(** * ai-word-card: the content store, the home page handlers and the
      resumable batch generator

    A shallow embedding of

    - [services/storageService.ts]: the record migrations and the
      [get*]/[save*] accessors of the three collections;
    - [components/HomePage.tsx]: [handleDeleteDeck], [handleDeleteWord]
      and [handleFileImport];
    - [services/geminiService.ts]: [processAndGenerateWords].

    The store and the home page work on untyped data ([any], whatever
    [JSON.parse] returns), so they are embedded over a type of JSON values
    with the dynamic semantics of the JavaScript operators they use.  The
    batch generator is embedded over the records of [types.ts]. *)

From Stdlib Require Import ZArith Ascii String List.
From stdpp Require Import base option list gmap strings pretty sorting.

Open Scope string_scope.
Open Scope list_scope.
Set Warnings "-register-all,-clear-no-such-hyp".

(** ** JavaScript values *)

Module JS.

(** What [JSON.parse] can return.  Numbers are restricted to integers: the
    code under study only tests a number for truthiness and compares a
    length with zero.  An object is the list of its own properties in
    enumeration order, with pairwise distinct keys. *)
Inductive value : Type :=
| VNull
| VBool (b : bool)
| VNum (n : Z)
| VStr (s : string)
| VArr (elems : list value)
| VObj (props : list (string * value)).

(** The result of reading a property is [None] when it is [undefined]. *)
Abbreviation undefined := (@None value).

(** ToBoolean. *)
Definition truthy (v : value) : bool :=
  match v with
  | VNull => false
  | VBool b => b
  | VNum n => negb (n =? 0)%Z
  | VStr s => negb (String.eqb s "")
  | VArr _ | VObj _ => true
  end.

(** [a || b] where [a] is the result of a property read. *)
Definition or_else (a : option value) (b : value) : value :=
  match a with
  | Some v => if truthy v then v else b
  | None => b
  end.

(** [Array.isArray(a) ? a : []]. *)
Definition array_or_empty (a : option value) : value :=
  match a with
  | Some (VArr l) => VArr l
  | _ => VArr []
  end.

(** [typeof a === 'object'] (true of [null] too). *)
Definition typeof_object (a : option value) : bool :=
  match a with
  | Some (VObj _) | Some (VArr _) | Some VNull => true
  | _ => false
  end.

(** [a === s] and [a !== s] for a string [s]. *)
Definition strict_eq_str (a : option value) (s : string) : bool :=
  match a with
  | Some (VStr s') => String.eqb s' s
  | _ => false
  end.

(** *** Objects as property lists *)

Fixpoint obj_lookup (k : string) (o : list (string * value)) : option value :=
  match o with
  | [] => None
  | (k', v) :: o' => if String.eqb k' k then Some v else obj_lookup k o'
  end.

(** Defining a data property: an existing key keeps its position. *)
Fixpoint obj_set (k : string) (v : value) (o : list (string * value))
  : list (string * value) :=
  match o with
  | [] => [(k, v)]
  | (k', v') :: o' =>
      if String.eqb k' k then (k', v) :: o' else (k', v') :: obj_set k v o'
  end.

(** The entries [k1: v1, ..., kn: vn] of an object literal, evaluated left
    to right on the object built so far. *)
Definition obj_assign (o : list (string * value)) (kvs : list (string * value))
  : list (string * value) :=
  foldl (fun acc kv => obj_set kv.1 kv.2 acc) o kvs.

Fixpoint chars (s : string) : list value :=
  match s with
  | EmptyString => []
  | String c s' => VStr (String c EmptyString) :: chars s'
  end.

Definition indexed (l : list value) : list (string * value) :=
  imap (fun i v => (pretty i, v)) l.

(** The own enumerable properties that [...x] copies: those of an object,
    the indexed elements of an array, the indexed code units of a string, and
    nothing for [null], a boolean or a number. *)
Definition own_props (x : value) : list (string * value) :=
  match x with
  | VObj o => o
  | VArr l => indexed l
  | VStr s => indexed (chars s)
  | VNull | VBool _ | VNum _ => []
  end.

(** The object literal [{ ...x, k1: v1, ..., kn: vn }]. *)
Definition spread_with (x : value) (kvs : list (string * value)) : value :=
  VObj (obj_assign (own_props x) kvs).

(** [x.k] for a data key [k]: a [TypeError] ([None]) on [null]; on an
    array or a string only [length] is modelled among the non-index keys
    (the code reads no inherited member through this function). *)
Definition get_prop (k : string) (x : value) : option (option value) :=
  match x with
  | VNull => None
  | VObj o => Some (obj_lookup k o)
  | VArr l =>
      Some (if String.eqb k "length" then Some (VNum (Z.of_nat (length l)))
            else undefined)
  | VStr s =>
      Some (if String.eqb k "length" then Some (VNum (Z.of_nat (String.length s)))
            else undefined)
  | VBool _ | VNum _ => Some undefined
  end.

(** [x[i]] for a number [i]. *)
Definition get_index (i : nat) (x : value) : option (option value) :=
  match x with
  | VNull => None
  | VObj o => Some (obj_lookup (pretty i) o)
  | VArr l => Some (l !! i)
  | VStr s => Some (chars s !! i)
  | VBool _ | VNum _ => Some undefined
  end.

End JS.

Import JS.

(** ** services/storageService.ts *)

Module Storage.

Definition DECKS_KEY := "flashcardDecks".
Definition WORDS_KEY := "flashcardWords".
Definition STORIES_KEY := "flashcardStories".

(** An item of [localStorage], up to [JSON.parse]: text that does not parse,
    or the value it parses to.  [JSON.stringify] followed by [JSON.parse] is
    the identity on [value]. *)
Inductive item : Type :=
| Malformed
| Doc (v : value).

Abbreviation localStorage := (gmap string item).

(** *** Data migration.  [None] is a thrown [TypeError]. *)

Definition migrateWordCard (card : value) : option value :=
  targetLanguage ← get_prop "targetLanguage" card;
  nativeLanguage ← get_prop "nativeLanguage" card;
  phonetics ← get_prop "phonetics" card;
  partOfSpeech ← get_prop "partOfSpeech" card;
  definitions ← get_prop "definitions" card;
  collocations ← get_prop "collocations" card;
  synonyms ← get_prop "synonyms" card;
  antonyms ← get_prop "antonyms" card;
  wordFamily ← get_prop "wordFamily" card;
  mnemonic ← get_prop "mnemonic" card;
  Some (spread_with card [
    ("targetLanguage", or_else targetLanguage (VStr "en"));
    ("nativeLanguage", or_else nativeLanguage (VStr "zh"));
    ("phonetics", or_else phonetics
       (VObj [("uk", VStr ""); ("us", VStr "")]));
    ("partOfSpeech", or_else partOfSpeech
       (VObj [("abbreviation", VStr ""); ("nativeName", VStr "")]));
    ("definitions", array_or_empty definitions);
    ("collocations", array_or_empty collocations);
    ("synonyms", array_or_empty synonyms);
    ("antonyms", array_or_empty antonyms);
    ("wordFamily", array_or_empty wordFamily);
    ("mnemonic", array_or_empty mnemonic)]).

Definition migrateDeck (deck : value) : option value :=
  targetLanguage ← get_prop "targetLanguage" deck;
  nativeLanguage ← get_prop "nativeLanguage" deck;
  cards ← get_prop "cards" deck;
  cards' ← match cards with
           | Some (VArr l) => VArr <$> mapM migrateWordCard l
           | _ => Some (VArr [])
           end;
  Some (spread_with deck [
    ("targetLanguage", or_else targetLanguage (VStr "en"));
    ("nativeLanguage", or_else nativeLanguage (VStr "zh"));
    ("cards", cards')]).

Definition migrateStory (story : value) : option value :=
  targetLanguage ← get_prop "targetLanguage" story;
  nativeLanguage ← get_prop "nativeLanguage" story;
  Some (spread_with story [
    ("targetLanguage", or_else targetLanguage (VStr "en"));
    ("nativeLanguage", or_else nativeLanguage (VStr "zh"))]).

(** *** Accessors.  The [try]/[catch] of each getter turns every failure
    (text that does not parse, a stored value without [map], a migration
    that throws) into the empty collection; an absent item reads as [[]]. *)

Definition getDecks (ls : localStorage) : list value :=
  match ls !! DECKS_KEY with
  | Some (Doc (VArr decks)) => default [] (mapM migrateDeck decks)
  | _ => []
  end.

Definition saveDecks (decks : list value) (ls : localStorage) : localStorage :=
  <[DECKS_KEY := Doc (VArr decks)]> ls.

Definition getWords (ls : localStorage) : list value :=
  match ls !! WORDS_KEY with
  | Some (Doc (VArr words)) => default [] (mapM migrateWordCard words)
  | _ => []
  end.

Definition saveWords (words : list value) (ls : localStorage) : localStorage :=
  <[WORDS_KEY := Doc (VArr words)]> ls.

Definition getStories (ls : localStorage) : list value :=
  match ls !! STORIES_KEY with
  | Some (Doc (VArr stories)) => default [] (mapM migrateStory stories)
  | _ => []
  end.

Definition saveStories (stories : list value) (ls : localStorage) : localStorage :=
  <[STORIES_KEY := Doc (VArr stories)]> ls.

End Storage.

(** ** components/HomePage.tsx *)

Module HomePage.
Import Storage.

(** What the handlers can throw, and what [alert] shows.  The message of
    the [Error] thrown by the import is [t('invalid_import_file')]; the
    messages of a [SyntaxError] and of a [TypeError] are the engine's. *)
Inductive exn : Type :=
| TypeError
| SyntaxError
| InvalidImportFile.

Inductive alert : Type :=
| ImportSuccess
| ImportFailed (e : exn).

(** The component state ([useState]) next to the browser storage. *)
Record World : Type := {
  ls : localStorage;
  decks : list value;
  stories : list value;
  myWords : list value;
  alerts : list alert;
}.

Inductive res (A : Type) : Type :=
| Val (a : A)
| Exc (e : exn).
Arguments Val {A} a.
Arguments Exc {A} e.

(** Handlers run in a state monad with exceptions: what a handler did
    before it throws stays done. *)
Definition M (A : Type) : Type := World → res A * World.

#[global] Instance M_ret : MRet M := λ A a w, (Val a, w).
#[global] Instance M_bind : MBind M := λ A B f m w,
  match m w with
  | (Val a, w') => f a w'
  | (Exc e, w') => (Exc e, w')
  end.

Definition throw {A} (e : exn) : M A := λ w, (Exc e, w).

(** A dynamic operation that may raise a [TypeError]. *)
Definition js {A} (o : option A) : M A :=
  match o with Some a => mret a | None => throw TypeError end.

Definition try_catch (body : M ()) (handler : exn → M ()) : M () := λ w,
  match body w with
  | (Exc e, w') => handler e w'
  | r => r
  end.

Definition read {A} (f : World → A) : M A := λ w, (Val (f w), w).
Definition modify (f : World → World) : M () := λ w, (Val (), f w).

Definition store (save : localStorage → localStorage) : M () :=
  modify (λ w, {| ls := save (ls w); decks := decks w; stories := stories w;
                  myWords := myWords w; alerts := alerts w |}).
Definition setDecks (ds : list value) : M () :=
  modify (λ w, {| ls := ls w; decks := ds; stories := stories w;
                  myWords := myWords w; alerts := alerts w |}).
Definition setStories (ss : list value) : M () :=
  modify (λ w, {| ls := ls w; decks := decks w; stories := ss;
                  myWords := myWords w; alerts := alerts w |}).
Definition setMyWords (ws : list value) : M () :=
  modify (λ w, {| ls := ls w; decks := decks w; stories := stories w;
                  myWords := ws; alerts := alerts w |}).
Definition show_alert (a : alert) : M () :=
  modify (λ w, {| ls := ls w; decks := decks w; stories := stories w;
                  myWords := myWords w; alerts := alerts w ++ [a] |}).

Definition reloadData : M () :=
  l ← read ls;
  setDecks (getDecks l);;
  setStories (getStories l);;
  setMyWords (getWords l).

(** [xs.filter(p)] for a callback that may throw. *)
Fixpoint filter_js (p : value → option bool) (xs : list value)
  : option (list value) :=
  match xs with
  | [] => Some []
  | x :: xs' =>
      b ← p x;
      r ← filter_js p xs';
      Some (if b : bool then x :: r else r)
  end.

(** [x => x.k !== s]. *)
Definition prop_differs (k s : string) (x : value) : option bool :=
  a ← get_prop k x;
  Some (negb (strict_eq_str a s)).

(** [confirmed] is the answer to [window.confirm]. *)
Definition handleDeleteDeck (confirmed : bool) (deckId : string) : M () :=
  if confirmed then
    ds ← read decks;
    updatedDecks ← js (filter_js (prop_differs "id" deckId) ds);
    store (saveDecks updatedDecks);;
    setDecks updatedDecks;;
    ss ← read stories;
    updatedStories ← js (filter_js (prop_differs "deckId" deckId) ss);
    store (saveStories updatedStories);;
    setStories updatedStories
  else mret ().

(** [deck => ({...deck, cards: deck.cards.filter(id => id !== wordId)})];
    [deck.cards.filter] is a function only when [deck.cards] is an array. *)
Definition without_word (wordId : string) (deck : value) : option value :=
  cards ← get_prop "cards" deck;
  match cards with
  | Some (VArr ids) =>
      Some (spread_with deck
              [("cards",
                VArr (filter (λ id, negb (strict_eq_str (Some id) wordId)) ids))])
  | _ => None
  end.

Definition handleDeleteWord (confirmed : bool) (wordId : string) : M () :=
  if confirmed then
    ws ← read myWords;
    updatedWords ← js (filter_js (prop_differs "id" wordId) ws);
    store (saveWords updatedWords);;
    setMyWords updatedWords;;
    ds ← read decks;
    updatedDecks ← js (mapM (without_word wordId) ds);
    store (saveDecks updatedDecks);;
    setDecks updatedDecks
  else mret ().

(** *** Import *)

(** A [Map] keyed by whatever [x.id] evaluates to ([None] is [undefined]),
    in insertion order.  Keys are compared by SameValueZero: primitives by
    value, objects and arrays by reference; every object of a parsed
    payload is a node of its own, so an object key equals no other key. *)
Definition same_value_zero (a b : option value) : bool :=
  match a, b with
  | None, None => true
  | Some VNull, Some VNull => true
  | Some (VBool x), Some (VBool y) => Bool.eqb x y
  | Some (VNum x), Some (VNum y) => (x =? y)%Z
  | Some (VStr x), Some (VStr y) => String.eqb x y
  | _, _ => false
  end.

Definition map_has (k : option value) (m : list (option value * value)) : bool :=
  existsb (λ e, same_value_zero e.1 k) m.

Fixpoint map_set (k : option value) (v : value) (m : list (option value * value))
  : list (option value * value) :=
  match m with
  | [] => [(k, v)]
  | (k', v') :: m' =>
      if same_value_zero k' k then (k', v) :: m' else (k', v') :: map_set k v m'
  end.

(** [new Map(importedWords.map(w => [w.id, w]))]. *)
Definition words_by_id (importedWords : list value)
  : option (list (option value * value)) :=
  entries ← mapM (λ w, id ← get_prop "id" w; Some (id, w)) importedWords;
  Some (foldl (λ m e, map_set e.1 e.2 m) [] entries).

(** The body of [deck.cards.forEach(...)], folded over the cards: the ids
    collected so far and the map of all words. *)
Definition collect_card (acc : list value * list (option value * value))
    (card : value) : list value * list (option value * value) :=
  let '(cardIds, allWordsMap) := acc in
  if truthy card then
    match get_prop "id" card with
    | Some (Some id) =>
        if truthy id then
          (cardIds ++ [id],
           if map_has (Some id) allWordsMap then allWordsMap
           else map_set (Some id) card allWordsMap)
        else acc
    | _ => acc
    end
  else acc.

(** One round of [importedDecks.map(deck => ...)], threading the map. *)
Definition upgrade_deck (allWordsMap : list (option value * value))
    (deck : value) : option (value * list (option value * value)) :=
  cards ← get_prop "cards" deck;
  match cards with
  | Some (VArr cs) =>
      let '(cardIds, allWordsMap') := foldl collect_card ([], allWordsMap) cs in
      Some (spread_with deck [("cards", VArr cardIds)], allWordsMap')
  | _ => None
  end.

Fixpoint upgrade_decks (allWordsMap : list (option value * value))
    (importedDecks : list value)
  : option (list value * list (option value * value)) :=
  match importedDecks with
  | [] => Some ([], allWordsMap)
  | deck :: rest =>
      '(deck', m) ← upgrade_deck allWordsMap deck;
      '(rest', m') ← upgrade_decks m rest;
      Some (deck' :: rest', m')
  end.

Section FileImport.

(** [v > 0] for a [v] that is not a number goes through the runtime's
    ToNumber; it is only reached for a [cards] object with a [length]
    entry that is not a number, and is left to the runtime. *)
Variable to_number_positive : value → bool.

Definition gt_zero (a : option value) : bool :=
  match a with
  | None => false
  | Some (VNum n) => (0 <? n)%Z
  | Some v => to_number_positive v
  end.

(** [importedDecks.length > 0 && importedDecks[0].cards.length > 0 &&
    typeof importedDecks[0].cards[0] === 'object']. *)
Definition is_legacy (importedDecks : list value) : option bool :=
  match importedDecks with
  | [] => Some false
  | deck0 :: _ =>
      cards ← get_prop "cards" deck0;
      cards ← cards;
      len ← get_prop "length" cards;
      if gt_zero len then
        card0 ← get_index 0 cards;
        Some (typeof_object card0)
      else Some false
  end.

Definition array_items (a : option value) : list value :=
  match a with Some (VArr l) => l | _ => [] end.

(** [reader.onload] of [handleFileImport]: [text] is the content of the
    chosen file up to [JSON.parse] (the reader always delivers a string),
    [confirmed] the answer to [window.confirm]. *)
Definition handleFileImport (text : item) (confirmed : bool) : M () :=
  try_catch
    (data ← match text with
            | Malformed => throw SyntaxError
            | Doc data => mret data
            end;
     match data with
     | VObj o =>
         if confirmed then
           let importedDecks := array_items (obj_lookup "decks" o) in
           let importedWords := array_items (obj_lookup "words" o) in
           legacy ← js (is_legacy importedDecks);
           '(importedDecks, importedWords) ←
             (if legacy : bool then
                allWordsMap ← js (words_by_id importedWords);
                '(migratedDecks, allWordsMap) ←
                  js (upgrade_decks allWordsMap importedDecks);
                mret (migratedDecks, allWordsMap.*2)
              else mret (importedDecks, importedWords));
           store (saveDecks importedDecks);;
           store (saveWords importedWords);;
           store (saveStories (array_items (obj_lookup "stories" o)));;
           reloadData;;
           show_alert ImportSuccess
         else mret ()
     | _ => throw InvalidImportFile
     end)
    (λ error, show_alert (ImportFailed error)).

End FileImport.

End HomePage.

(** ** services/geminiService.ts *)

Module Gemini.

Inductive ContentLanguage : Type := en | zh | fr | de | es | ja | ko.

(** *** types.ts, as [processAndGenerateWords] uses it: decks embed their
    cards. *)

Record Phonetics : Type := { uk : string; us : string }.
Record PartOfSpeech : Type := { abbreviation : string; nativeName : string }.
Record DefinitionEntry : Type := {
  definition : string; nativeDefinition : string;
  example : string; exampleTranslation : string }.
Record Collocation : Type := { phrase : string; translation : string }.
Record FamilyEntry : Type := {
  family_word : string; family_partOfSpeech : string;
  nativeTranslation : string }.
Record Mnemonic : Type := {
  mnemonic_type : string; mnemonic_targetLanguage : string;
  mnemonic_nativeLanguage : string }.

(** [Omit<WordCard, 'id' | 'audioPronunciation' | 'image'>]: what the
    flashcard call returns. *)
Record FlashcardData : Type := {
  word : string;
  targetLanguage : string;
  nativeLanguage : string;
  phonetics : Phonetics;
  partOfSpeech : PartOfSpeech;
  definitions : list DefinitionEntry;
  collocations : list Collocation;
  synonyms : list string;
  antonyms : list string;
  wordFamily : list FamilyEntry;
  mnemonic : list Mnemonic;
}.

(** [Omit<WordCard, 'id'>]: the [data] of [const { id, ...data } = card]. *)
Record CardData : Type := {
  content : FlashcardData;
  audioPronunciation : option string;
  image : option string;
}.

Record WordCard : Type := { id : string; data : CardData }.

Definition card_word (card : WordCard) : string := word (content (data card)).

Record CardDeck : Type := {
  deck_id : string;
  title : string;
  cards : list WordCard;
  createdAt : string;
  deck_targetLanguage : string;
  deck_nativeLanguage : string;
}.

Record WordGenerationDraft : Type := {
  inputWords : list string;
  generatedCards : list WordCard;
}.

(** The item under [DRAFT_KEY]: [Unreadable] is any non-empty text on
    which the [try] block throws ([JSON.parse] fails, or there is no
    [inputWords] array to sort); [Stored] is a draft as this function
    writes it. *)
Inductive draft_item : Type :=
| Unreadable
| Stored (draft : WordGenerationDraft).

(** *** Strings (code units restricted to ASCII) *)

Definition lower_ascii (c : ascii) : ascii :=
  let n := nat_of_ascii c in
  if (65 <=? n)%nat && (n <=? 90)%nat then ascii_of_nat (n + 32) else c.

Fixpoint toLowerCase (s : string) : string :=
  match s with
  | EmptyString => EmptyString
  | String c s' => String (lower_ascii c) (toLowerCase s')
  end.

(** Tab, line feed, vertical tab, form feed, carriage return, space. *)
Definition is_white (c : ascii) : bool :=
  let n := nat_of_ascii c in
  ((9 <=? n)%nat && (n <=? 13)%nat) || (n =? 32)%nat.

Fixpoint trimStart (s : string) : string :=
  match s with
  | EmptyString => EmptyString
  | String c s' => if is_white c then trimStart s' else s
  end.

Fixpoint trimEnd (s : string) : string :=
  match s with
  | EmptyString => EmptyString
  | String c s' =>
      match trimEnd s' with
      | EmptyString => if is_white c then EmptyString else String c EmptyString
      | r => String c r
      end
  end.

Definition trim (s : string) : string := trimEnd (trimStart s).

(** [[...new Set(xs)]]: insertion order, first occurrence kept. *)
Definition set_add (seen : list string) (x : string) : list string :=
  if bool_decide (x ∈ seen) then seen else seen ++ [x].

Definition unique (xs : list string) : list string := foldl set_add [] xs.

(** [words.map(w => w.trim().toLowerCase()).filter(Boolean)], made unique. *)
Definition normalize (words : list string) : list string :=
  unique (filter (λ w, w ≠ "") ((λ w, toLowerCase (trim w)) <$> words)).

(** [xs.sort()]: ascending by code units. *)
Definition sort (xs : list string) : list string := merge_sort String.le xs.

(** *** What the run does to the outside *)

Inductive progress : Type :=
| Recovering
| LoadingLocalData
| Skipped (word : string) (i n : nat)
| FoundLocally (word : string) (i n : nat)
| GeneratingData (word : string) (i n : nat)
| GeneratingSpeech (word : string) (i n : nat).

Inductive event : Type :=
| OnProgress (p : progress)
| FlashcardCall (word : string)
| SpeechCall (word : string)
| SetDraft (draft : WordGenerationDraft)
| RemoveDraft.

(** The locals of [processAndGenerateWords] together with the item under
    [DRAFT_KEY], the number of identifiers drawn so far and the effects so
    far, oldest first. *)
Record Run : Type := {
  cur_cards : list WordCard;                (* generatedCards *)
  cur_known : gmap string CardData;         (* existingWordData *)
  cur_draft : option draft_item;            (* localStorage[DRAFT_KEY] *)
  cur_uuids : nat;
  cur_trace : list event;
}.

Definition log (e : event) (r : Run) : Run :=
  {| cur_cards := cur_cards r; cur_known := cur_known r;
     cur_draft := cur_draft r; cur_uuids := cur_uuids r;
     cur_trace := cur_trace r ++ [e] |}.

(** [if (!existingWordData.has(k)) existingWordData.set(k, data)]. *)
Definition remember (known : gmap string CardData) (card : WordCard)
  : gmap string CardData :=
  let k := toLowerCase (card_word card) in
  match known !! k with
  | Some _ => known
  | None => <[k := data card]> known
  end.

(** Step 2: decks first, then the independent words. *)
Definition build_existingWordData (allDecks : list CardDeck)
    (allWords : list WordCard) : gmap string CardData :=
  let fromDecks :=
    foldl (λ known deck, foldl remember known (cards deck)) ∅ allDecks in
  foldl remember fromDecks allWords.

Section Generator.

(** The Generation Client: [None] is a rejected promise for the flashcard
    call and [undefined] for the speech call, which never throws. *)
Variable generateFlashcardDataForWord :
  string → ContentLanguage → ContentLanguage → option FlashcardData.
Variable generateSpeech : string → ContentLanguage → option string.
(** The [n]-th identifier that [uuidv4()] returns. *)
Variable uuidv4 : nat → string.

Variables targetLanguage_ nativeLanguage_ : ContentLanguage.
Variable uniqueInputWords : list string.
Variable alreadyGeneratedWords : gset string.

(** The body of the [for] loop at index [i]; [false] when the flashcard
    call throws, which ends the run there.  The progress callback is taken
    to return, and [localStorage.setItem] to succeed (its failure would be
    caught and logged, leaving the item as it was). *)
Definition process_word (i : nat) (word : string) (r : Run) : bool * Run :=
  let n := length uniqueInputWords in
  if bool_decide (word ∈ alreadyGeneratedWords) then
    (true, log (OnProgress (Skipped word (i + 1) n)) r)
  else
    match cur_known r !! word with
    | Some cardData =>
        let r := log (OnProgress (FoundLocally word (i + 1) n)) r in
        (true,
         {| cur_cards :=
              cur_cards r ++ [{| id := uuidv4 (cur_uuids r); data := cardData |}];
            cur_known := cur_known r; cur_draft := cur_draft r;
            cur_uuids := S (cur_uuids r); cur_trace := cur_trace r |})
    | None =>
        let r := log (OnProgress (GeneratingData word (i + 1) n)) r in
        let r := log (FlashcardCall word) r in
        match generateFlashcardDataForWord word targetLanguage_ nativeLanguage_ with
        | None => (false, r)
        | Some cardData =>
            let r := log (OnProgress (GeneratingSpeech word (i + 1) n)) r in
            let r := log (SpeechCall word) r in
            let audioPronunciation := generateSpeech word targetLanguage_ in
            let newCard :=
              {| id := uuidv4 (cur_uuids r);
                 data := {| content := cardData;
                            audioPronunciation := audioPronunciation;
                            image := None |} |} in
            let generatedCards := cur_cards r ++ [newCard] in
            let draftToSave :=
              {| inputWords := uniqueInputWords;
                 generatedCards := generatedCards |} in
            (true,
             log (SetDraft draftToSave)
               {| cur_cards := generatedCards;
                  cur_known := <[toLowerCase word := data newCard]> (cur_known r);
                  cur_draft := Some (Stored draftToSave);
                  cur_uuids := S (cur_uuids r);
                  cur_trace := cur_trace r |})
        end
    end.

(** [for (let i = ...; i < uniqueInputWords.length; i++)] from index [i],
    [rest] being the words from there on. *)
Fixpoint process_from (i : nat) (rest : list string) (r : Run) : bool * Run :=
  match rest with
  | [] => (true, r)
  | word :: rest' =>
      match process_word i word r with
      | (true, r') => process_from (S i) rest' r'
      | (false, r') => (false, r')
      end
  end.

End Generator.

(** The browser as the run finds it: the item under [DRAFT_KEY], what
    [getDecks()] and [getWords()] return, and the identifiers drawn so far. *)
Record Browser : Type := {
  draft_slot : option draft_item;
  allDecks : list CardDeck;
  allWords : list WordCard;
  uuids_drawn : nat;
}.

Section Run.

Variable generateFlashcardDataForWord :
  string → ContentLanguage → ContentLanguage → option FlashcardData.
Variable generateSpeech : string → ContentLanguage → option string.
Variable uuidv4 : nat → string.

(** Step 1: the draft.  Reading a stored draft sorts [uniqueInputWords] in
    place ([uniqueInputWords.sort()] is an operand of the comparison),
    whether or not the draft is then adopted; an unreadable one is removed
    by the [catch]. *)
Definition load_draft (words : list string) (slot : option draft_item)
  : list string * list WordCard * option draft_item * list event :=
  let uniqueInputWords := normalize words in
  match slot with
  | None => (uniqueInputWords, [], None, [])
  | Some Unreadable => (uniqueInputWords, [], None, [RemoveDraft])
  | Some (Stored draft) =>
      let uniqueInputWords := sort uniqueInputWords in
      if bool_decide (sort (inputWords draft) = uniqueInputWords) then
        (uniqueInputWords, generatedCards draft, slot, [OnProgress Recovering])
      else (uniqueInputWords, [], slot, [])
  end.

(** The promise resolves to [Some generatedCards] or is rejected ([None]);
    the final [Run] holds the item left under [DRAFT_KEY] and the effects. *)
Definition processAndGenerateWords (words : list string)
    (targetLanguage_ nativeLanguage_ : ContentLanguage) (b : Browser)
  : option (list WordCard) * Run :=
  let '(uniqueInputWords, generatedCards, slot, effects) :=
    load_draft words (draft_slot b) in
  let alreadyGeneratedWords : gset string :=
    list_to_set ((λ c, toLowerCase (card_word c)) <$> generatedCards) in
  let r :=
    {| cur_cards := generatedCards;
       cur_known := build_existingWordData (allDecks b) (allWords b);
       cur_draft := slot;
       cur_uuids := uuids_drawn b;
       cur_trace := effects ++ [OnProgress LoadingLocalData] |} in
  match process_from generateFlashcardDataForWord generateSpeech uuidv4
          targetLanguage_ nativeLanguage_ uniqueInputWords
          alreadyGeneratedWords 0 uniqueInputWords r with
  | (true, r') =>
      (Some (cur_cards r'),
       log RemoveDraft
         {| cur_cards := cur_cards r'; cur_known := cur_known r';
            cur_draft := None; cur_uuids := cur_uuids r';
            cur_trace := cur_trace r' |})
  | (false, r') => (None, r')
  end.

End Run.

End Gemini.

(** ** Vocabulary of the statements *)

Module Vocabulary.

(** [x.k] is the string [s]. *)
Definition prop_is (k s : string) (x : value) : Prop :=
  get_prop k x = Some (Some (VStr s)).

#[global] Instance prop_is_dec k s x : Decision (prop_is k s x).
Proof.
  unfold prop_is. destruct (get_prop k x) as [[[| | |s'| |]|]|];
    try (right; discriminate).
  destruct (decide (s' = s)) as [->|Hne]; [by left|right; congruence].
Defined.

(** The value [v] is the string [s]. *)
Definition is_string (s : string) (v : value) : Prop := v = VStr s.

#[global] Instance is_string_dec s v : Decision (is_string s v).
Proof.
  unfold is_string. destruct v as [| | |s'| |]; try (right; discriminate).
  destruct (decide (s' = s)) as [->|Hne]; [by left|right; congruence].
Defined.

(** A stored deck on which [migrateDeck] throws: [null], or a deck with a
    [null] in its [cards] array. *)
Definition unreadable_deck (d : value) : Prop :=
  d = VNull ∨ ∃ cs, get_prop "cards" d = Some (Some (VArr cs)) ∧ VNull ∈ cs.

(** A deck as [getDecks] returns it: an object whose [cards] is an array. *)
Definition deck_shaped (d : value) : Prop :=
  ∃ o ids, d = VObj o ∧ obj_lookup "cards" o = Some (VArr ids).

(** The words of the flashcard calls, the speech calls and the drafts
    written, in the order of a trace. *)
Definition flashcard_calls (tr : list Gemini.event) : list string :=
  omap (λ e, match e with Gemini.FlashcardCall w => Some w | _ => None end) tr.

Definition speech_calls (tr : list Gemini.event) : list string :=
  omap (λ e, match e with Gemini.SpeechCall w => Some w | _ => None end) tr.

Definition drafts_written (tr : list Gemini.event)
  : list Gemini.WordGenerationDraft :=
  omap (λ e, match e with Gemini.SetDraft d => Some d | _ => None end) tr.

(** The same run with another item under the draft key. *)
Definition with_draft (x : option Gemini.draft_item) (r : Gemini.Run)
  : Gemini.Run :=
  {| Gemini.cur_cards := Gemini.cur_cards r;
     Gemini.cur_known := Gemini.cur_known r;
     Gemini.cur_draft := x;
     Gemini.cur_uuids := Gemini.cur_uuids r;
     Gemini.cur_trace := Gemini.cur_trace r |}.

(** The card is stored under the word [w]. *)
Definition named (w : string) (card : Gemini.WordCard) : Prop :=
  Gemini.toLowerCase (Gemini.card_word card) = w.

#[global] Instance named_dec w card : Decision (named w card).
Proof. unfold named. apply _. Defined.

(** The first card of a list stored under [w]. *)
Definition first_named (w : string) (cs : list Gemini.WordCard)
  : option Gemini.WordCard :=
  snd <$> list_find (named w) cs.

(** A word that step 3 has to generate: not completed by the adopted draft
    and not in the lookup. *)
Definition to_generate (already : gset string)
    (known : gmap string Gemini.CardData) (w : string) : Prop :=
  (w ∉ already) ∧ (known !! w) = None.

#[global] Instance to_generate_dec already known w :
  Decision (to_generate already known w).
Proof. unfold to_generate. apply _. Defined.

(** A card, a draft, an effect and a run with the audio left out. *)
Definition mute_data (cd : Gemini.CardData) : Gemini.CardData :=
  {| Gemini.content := Gemini.content cd; Gemini.audioPronunciation := None;
     Gemini.image := Gemini.image cd |}.

Definition mute_card (c : Gemini.WordCard) : Gemini.WordCard :=
  {| Gemini.id := Gemini.id c; Gemini.data := mute_data (Gemini.data c) |}.

Definition mute_draft (d : Gemini.WordGenerationDraft)
  : Gemini.WordGenerationDraft :=
  {| Gemini.inputWords := Gemini.inputWords d;
     Gemini.generatedCards := mute_card <$> Gemini.generatedCards d |}.

Definition mute_item (x : Gemini.draft_item) : Gemini.draft_item :=
  match x with
  | Gemini.Unreadable => Gemini.Unreadable
  | Gemini.Stored d => Gemini.Stored (mute_draft d)
  end.

Definition mute_event (e : Gemini.event) : Gemini.event :=
  match e with
  | Gemini.SetDraft d => Gemini.SetDraft (mute_draft d)
  | _ => e
  end.

Definition mute_run (r : Gemini.Run) : Gemini.Run :=
  {| Gemini.cur_cards := mute_card <$> Gemini.cur_cards r;
     Gemini.cur_known := mute_data <$> Gemini.cur_known r;
     Gemini.cur_draft := mute_item <$> Gemini.cur_draft r;
     Gemini.cur_uuids := Gemini.cur_uuids r;
     Gemini.cur_trace := mute_event <$> Gemini.cur_trace r |}.

(** The component state of the home page shows what the getters read. *)
Definition in_sync (w : HomePage.World) : Prop :=
  HomePage.decks w = Storage.getDecks (HomePage.ls w) ∧
  HomePage.stories w = Storage.getStories (HomePage.ls w) ∧
  HomePage.myWords w = Storage.getWords (HomePage.ls w).

(** The identifier that the import's upgrade collects for an embedded
    card: [card.id] when [card] and [card.id] are truthy. *)
Definition card_id (card : value) : option value :=
  if truthy card then
    match get_prop "id" card with
    | Some (Some id) => if truthy id then Some id else None
    | _ => None
    end
  else None.

(** Every entry of the import's map is filed under the [id] of its
    value. *)
Definition keyed (m : list (option value * value)) : Prop :=
  Forall (λ e, get_prop "id" e.2 = Some e.1) m.

(** The first deck of a list has an array of cards that is not empty. *)
Definition first_deck_has_cards (ds : list value) : bool :=
  match ds with
  | d0 :: _ =>
      match get_prop "cards" d0 with
      | Some (Some (VArr (_ :: _))) => true
      | _ => false
      end
  | [] => false
  end.

(** A deck of the current schema: an object whose [cards] is an array of
    identifier strings. *)
Definition id_deck (d : value) : Prop :=
  ∃ o ids, d = VObj o ∧ obj_lookup "cards" o = Some (VArr (VStr <$> ids)).

(** The [id] of a record when it is a string, and the records whose [id]
    is not one of the strings [ids]. *)
Definition string_id (x : value) : option string :=
  match get_prop "id" x with
  | Some (Some (VStr s)) => Some s
  | _ => None
  end.

Definition not_among (ids : list string) (x : value) : Prop :=
  match string_id x with
  | Some s => s ∉ ids
  | None => True
  end.

#[global] Instance not_among_dec ids x : Decision (not_among ids x).
Proof. unfold not_among. destruct (string_id x); apply _. Defined.

(** Every character of [s] satisfies [p]. *)
Fixpoint all_chars (p : ascii → bool) (s : string) : bool :=
  match s with
  | EmptyString => true
  | String c s' => p c && all_chars p s'
  end.

(** No white space in front. *)
Definition clean_start (s : string) : Prop :=
  match s with
  | EmptyString => True
  | String c _ => Gemini.is_white c = false
  end.

(** A word as [normalize] leaves it. *)
Definition normal (w : string) : Prop :=
  Gemini.toLowerCase (Gemini.trim w) = w ∧ w ≠ "".

End Vocabulary.

(** ** Sample data *)

Module Samples.
Import Gemini.

Definition flashcard (w gloss : string) : FlashcardData :=
  {| word := w; targetLanguage := "en"; nativeLanguage := "zh";
     phonetics := {| uk := ""; us := "" |};
     partOfSpeech := {| abbreviation := "n."; nativeName := gloss |};
     definitions := []; collocations := []; synonyms := []; antonyms := [];
     wordFamily := []; mnemonic := [] |}.

Definition card (i w gloss : string) : WordCard :=
  {| id := i;
     data := {| content := flashcard w gloss; audioPronunciation := None;
                image := None |} |}.

Definition deck (i : string) (cs : list WordCard) : CardDeck :=
  {| deck_id := i; title := "deck"; cards := cs; createdAt := "2024-01-01";
     deck_targetLanguage := "en"; deck_nativeLanguage := "zh" |}.

(** A client that answers every word, one that answers none, and one that
    answers all but ["pear"]. *)
Definition client_ok : string → ContentLanguage → ContentLanguage → option FlashcardData :=
  λ w _ _, Some (flashcard w "generated").
Definition client_down : string → ContentLanguage → ContentLanguage → option FlashcardData :=
  λ _ _ _, None.
Definition client_no_pear : string → ContentLanguage → ContentLanguage → option FlashcardData :=
  λ w _ _, if String.eqb w "pear" then None else Some (flashcard w "generated").
Definition no_speech : string → ContentLanguage → option string := λ _ _, None.
Definition uuid (n : nat) : string := "uuid-" +:+ pretty n.

(** "apple" is both embedded in a deck and among the independent words,
    with different content. *)
Definition both_stores : Browser :=
  {| draft_slot := None;
     allDecks := [deck "d1" [card "c1" "apple" "from the deck"]];
     allWords := [card "c2" "apple" "from the words"];
     uuids_drawn := 0 |}.

(** Drafts left by an earlier run that completed "a": one for the request
    a, b, c and one for the request a, b. *)
Definition draft_abc : WordGenerationDraft :=
  {| inputWords := ["a"; "b"; "c"];
     generatedCards := [card "k1" "a" "earlier"] |}.
Definition draft_ab : WordGenerationDraft :=
  {| inputWords := ["a"; "b"];
     generatedCards := [card "k1" "a" "earlier"] |}.

Definition browser_with (slot : option draft_item) : Browser :=
  {| draft_slot := slot; allDecks := []; allWords := []; uuids_drawn := 0 |}.

(** A home page with one deck, one word and one story stored and loaded,
    and a backup file without any. *)
Definition stocked : HomePage.World :=
  let ds := [VObj [("id", VStr "d1"); ("title", VStr "fruit");
                   ("cards", VArr [VStr "w1"])]] in
  let ws := [VObj [("id", VStr "w1"); ("word", VStr "apple")]] in
  let ss := [VObj [("id", VStr "s1"); ("deckId", VStr "d1")]] in
  {| HomePage.ls :=
       Storage.saveStories ss (Storage.saveWords ws (Storage.saveDecks ds ∅));
     HomePage.decks := ds; HomePage.stories := ss; HomePage.myWords := ws;
     HomePage.alerts := [] |}.

Definition empty_backup : value :=
  VObj [("decks", VArr []); ("words", VArr []); ("stories", VArr [])].

(** A backup whose first deck has no [cards]. *)
Definition cardless_backup : value :=
  VObj [("decks", VArr [VObj [("id", VStr "d9"); ("title", VStr "new")]])].

End Samples.

(** ** components/HomePage.tsx: story deletion and export *)

Module HomePageHandlers.
Import Storage HomePage.

Definition handleDeleteStory (confirmed : bool) (storyId : string) : M () :=
  if confirmed then
    ss ← read stories;
    updatedStories ← js (filter_js (prop_differs "id" storyId) ss);
    store (saveStories updatedStories);;
    setStories updatedStories
  else mret ().

(** [handleExport] up to the download: the [data] object that is
    serialized into the backup file. *)
Definition handleExport : M value :=
  l ← read ls;
  mret (VObj [("decks", VArr (getDecks l)); ("words", VArr (getWords l));
              ("stories", VArr (getStories l))]).

End HomePageHandlers.

(** ** App.tsx: the save handlers *)

Module App.
Import Storage.

Inductive View : Type :=
| home | create | editDeck | editWords | study | storyView | settings
| generateStory.

(** The component state ([useState]) next to the browser storage. *)
Record State : Type := {
  ls : localStorage;
  view : View;
  editingDeck : option value;
  editingWords : option (list value);
  studyingDeck : option value;
  viewingStory : option value;
  generatingStoryForDeck : option value;
}.

(** [a === b] for two property reads.  A value read from the store is a
    fresh node, so an object or an array there is identical to no value of
    the argument; on the other values [===] differs from SameValueZero on
    [NaN] only, which no [value] is. *)
Definition strict_eq (a b : option value) : bool := HomePage.same_value_zero a b.

(** [xs.findIndex(p)] for a callback that may throw; [Some None] is [-1]. *)
Fixpoint findIndex (p : value → option bool) (xs : list value)
  : option (option nat) :=
  match xs with
  | [] => Some None
  | x :: xs' =>
      match p x with
      | None => None
      | Some true => Some (Some 0)
      | Some false =>
          match findIndex p xs' with
          | None => None
          | Some i => Some (S <$> i)
          end
      end
  end.

(** The handlers throw, if at all, before their first effect: [None] is
    a [TypeError] that leaves the state as it was. *)
Definition handleSaveDeck (deckToSave : value) (st : State) : option State :=
  let decks := getDecks (ls st) in
  existingIndex ←
    findIndex (λ d, a ← get_prop "id" d;
                    b ← get_prop "id" deckToSave;
                    Some (strict_eq a b)) decks;
  let decks :=
    match existingIndex with
    | Some i => <[i := deckToSave]> decks
    | None => deckToSave :: decks
    end in
  Some {| ls := saveDecks decks (ls st); view := home; editingDeck := None;
          editingWords := editingWords st; studyingDeck := studyingDeck st;
          viewingStory := viewingStory st;
          generatingStoryForDeck := generatingStoryForDeck st |}.

Definition handleSaveWords (wordsToSave : list value) (st : State)
  : option State :=
  let existingWords := getWords (ls st) in
  wordsToSaveMap ← HomePage.words_by_id wordsToSave;
  updatedWordsList ←
    HomePage.filter_js
      (λ w, i ← get_prop "id" w;
            Some (negb (HomePage.map_has i wordsToSaveMap))) existingWords;
  let updatedWordsList := updatedWordsList ++ wordsToSave in
  Some {| ls := saveWords updatedWordsList (ls st); view := home;
          editingDeck := editingDeck st; editingWords := None;
          studyingDeck := studyingDeck st; viewingStory := viewingStory st;
          generatingStoryForDeck := generatingStoryForDeck st |}.

Definition handleSaveStory (story : value) (st : State) : State :=
  let stories := story :: getStories (ls st) in
  {| ls := saveStories stories (ls st); view := home;
     editingDeck := editingDeck st; editingWords := editingWords st;
     studyingDeck := studyingDeck st; viewingStory := viewingStory st;
     generatingStoryForDeck := None |}.

End App.

(** ** Word lists: geminiService.ts and CreationPage.tsx *)

Module WordLists.
Import Gemini.

Definition is_comma (c : ascii) : bool := Ascii.eqb c ",".

(** The class [[\n,]] of the prompt's separators. *)
Definition is_separator (c : ascii) : bool :=
  Ascii.eqb c "010" || Ascii.eqb c ",".

(** [s.split(',')]: every comma closes a piece. *)
Fixpoint split_comma (s : string) : list string :=
  match s with
  | EmptyString => [EmptyString]
  | String c s' =>
      if is_comma c then EmptyString :: split_comma s'
      else match split_comma s' with
           | p :: ps => String c p :: ps
           | [] => [String c EmptyString]
           end
  end.

(** [s.split(/[\n,]+/)]: a run of separators closes a piece once;
    [in_run] says that the character before was a separator. *)
Fixpoint split_runs (in_run : bool) (s : string) : list string :=
  match s with
  | EmptyString => [EmptyString]
  | String c s' =>
      if is_separator c then
        if in_run then split_runs true s'
        else EmptyString :: split_runs true s'
      else match split_runs false s' with
           | p :: ps => String c p :: ps
           | [] => [String c EmptyString]
           end
  end.


(** [.map(word => word.trim().toLowerCase()).filter(Boolean)]. *)
Definition words_of (pieces : list string) : list string :=
  filter (λ w, w ≠ "") ((λ w, toLowerCase (trim w)) <$> pieces).



(** The words that [handleGenerate] passes to the generator. *)
Definition handleGenerate_words (prompt : string) : list string :=
  words_of (split_runs false prompt).

(** [ws.join(sep)]. *)
Fixpoint join (sep : string) (ws : list string) : string :=
  match ws with
  | [] => EmptyString
  | [w] => w
  | w :: ws' => String.append w (String.append sep (join sep ws'))
  end.

(** The updater that [handleGenerateWordList] passes to [setPrompt] when
    the generated list [words] is not empty. *)
Definition prompt_updater (words : list string) (prev : string) : string :=
  let sep := String "," (String "010" EmptyString) in
  let existingWords := filter (λ w, w ≠ "") (trim <$> split_runs false prev) in
  let newWords := filter (λ w, w ∉ existingWords) words in
  if bool_decide (trim prev ≠ "") && bool_decide (newWords ≠ [])
  then String.append prev (String.append sep (join sep newWords))
  else join sep newWords.

End WordLists.

(** ** components/EditDeckPage.tsx *)

Module EditDeckPage.
Import Storage.

(** [m.get(k)]; [None] is [undefined]. *)
Definition map_get (k : option value) (m : list (option value * value))
  : option value :=
  snd <$> List.find (λ e, HomePage.same_value_zero e.1 k) m.

(** [new Map(getWords().map(w => [w.id, w]))]. *)
Definition allWordsMap (l : localStorage) : option (list (option value * value)) :=
  HomePage.words_by_id (getWords l).

(** [deck.cards.map(id => allWordsMap.get(id)).filter(c => c !== undefined)];
    [deck.cards.map] is a function only when [deck.cards] is an array. *)
Definition cardsForDeck (deck : value) (allWordsMap : list (option value * value))
  : option (list value) :=
  cards ← get_prop "cards" deck;
  match cards with
  | Some (VArr ids) => Some (omap (λ id, map_get (Some id) allWordsMap) ids)
  | _ => None
  end.

(** [handleCardUpdate]: what it does to the store, and the updater it
    passes to [setDisplayedCards]. *)
Definition handleCardUpdate_store (updatedCard : value) (l : localStorage)
  : option localStorage :=
  let allWords := getWords l in
  wordIndex ←
    App.findIndex (λ w, a ← get_prop "id" w;
                        b ← get_prop "id" updatedCard;
                        Some (App.strict_eq a b)) allWords;
  Some match wordIndex with
       | Some i => saveWords (<[i := updatedCard]> allWords) l
       | None => l
       end.

Definition handleCardUpdate_displayed (updatedCard : value) (prev : list value)
  : option (list value) :=
  mapM (λ c, a ← get_prop "id" c;
             b ← get_prop "id" updatedCard;
             Some (if App.strict_eq a b then updatedCard else c)) prev.

(** The updater of [handleRemoveWordFromDeck]: the arrow function of
    [handleDeleteWord] on the deck being edited. *)
Definition handleRemoveWordFromDeck (wordId : string) (prev : value)
  : option value :=
  HomePage.without_word wordId prev.

(** [[...new Set(xs)]] on values, compared by SameValueZero. *)
Definition set_values (xs : list value) : list value :=
  foldl (λ seen x,
           if existsb (λ y, HomePage.same_value_zero (Some y) (Some x)) seen
           then seen else seen ++ [x]) [] xs.

(** The updater of [handleAddWords]; spreading [prevDeck.cards] works on
    an array and on a string and throws on the other values. *)
Definition handleAddWords_deck (newCardIds : list value) (prevDeck : value)
  : option value :=
  cards ← get_prop "cards" prevDeck;
  ids ← match cards with
        | Some (VArr ids) => Some ids
        | Some (VStr s) => Some (chars s)
        | _ => None
        end;
  Some (spread_with prevDeck [("cards", VArr (set_values (ids ++ newCardIds)))]).

End EditDeckPage.

(** ** components/EditWordsPage.tsx *)

Module EditWordsPage.

(** The item under [DRAFT_KEY]: text that does not parse or is not a
    draft of the expected shape, or a [WordsDraft]. *)
Record WordsDraft : Type := {
  initialIds : list string;
  words : list value;
}.

Inductive draft_item : Type :=
| Unreadable
| Stored (draft : WordsDraft).

(** [currentInitialIds.join(',') === draftInitialIds.join(',')], both
    sorted. *)
Definition same_ids (currentInitialIds draftInitialIds : list string) : bool :=
  String.eqb (WordLists.join "," (Gemini.sort currentInitialIds))
             (WordLists.join "," (Gemini.sort draftInitialIds)).

(** The effect that restores a draft on mount: the words shown and the
    item left under the key.  [confirmed] is the answer to
    [window.confirm], asked only when the identifiers match. *)
Definition restore_draft (slot : option draft_item)
    (initialWordIds : list string) (confirmed : bool) (shown : list value)
  : list value * option draft_item :=
  match slot with
  | None => (shown, None)
  | Some Unreadable => (shown, None)
  | Some (Stored savedDraft) =>
      if same_ids initialWordIds (initialIds savedDraft) && confirmed
      then (words savedDraft, slot)
      else (shown, slot)
  end.

(** [handleCardUpdate]: the words after the update; [None] is a
    [TypeError]. *)
Definition handleCardUpdate (updatedCard : value) (shown : list value)
  : option (list value) :=
  cardIndex ←
    App.findIndex (λ c, a ← get_prop "id" c;
                        b ← get_prop "id" updatedCard;
                        Some (App.strict_eq a b)) shown;
  Some match cardIndex with
       | Some i => <[i := updatedCard]> shown
       | None => shown
       end.

End EditWordsPage.

(** ** components/StudyPage.tsx *)

Module StudyPage.

Section Session.

(** The cards of the deck under study. *)
Variable card : Type.

(** [[a[i], a[j]] = [a[j], a[i]]]; both indexes are inside the array
    wherever the shuffle uses it. *)
Definition swap (i j : nat) (a : list card) : list card :=
  match a !! i, a !! j with
  | Some x, Some y => <[j := x]> (<[i := y]> a)
  | _, _ => a
  end.

(** The loop of [shuffleArray] from index [i] down to 1.  [random i] stands
    for the number that [Math.floor(Math.random() * (i + 1))] draws at index
    [i], an index from 0 to [i]. *)
Fixpoint shuffle_from (random : nat → nat) (i : nat) (newArray : list card)
  : list card :=
  match i with
  | 0 => newArray
  | S i' =>
      let j := random i mod (i + 1) in
      shuffle_from random i' (swap i j newArray)
  end.

Definition shuffleArray (random : nat → nat) (array : list card) : list card :=
  shuffle_from random (length array - 1) array.

(** The component state. *)
Record Session : Type := {
  sessionQueue : list card;
  learningQueue : list card;
  currentIndex : nat;
  isFlipped : bool;
  sessionComplete : bool;
  isTransitioning : bool;
}.

Definition initial : Session :=
  {| sessionQueue := []; learningQueue := []; currentIndex := 0;
     isFlipped := false; sessionComplete := false; isTransitioning := false |}.

(** The effect on [deck]. *)
Definition start (random : nat → nat) (cards : list card) (s : Session)
  : Session :=
  if (0 <? length cards)%nat then
    {| sessionQueue := shuffleArray random cards;
       learningQueue := learningQueue s; currentIndex := currentIndex s;
       isFlipped := isFlipped s; sessionComplete := false;
       isTransitioning := isTransitioning s |}
  else
    {| sessionQueue := sessionQueue s; learningQueue := learningQueue s;
       currentIndex := currentIndex s; isFlipped := isFlipped s;
       sessionComplete := true; isTransitioning := isTransitioning s |}.

Definition currentCard (s : Session) : option card :=
  sessionQueue s !! currentIndex s.

(** The callback that [advanceToNextCard] hands to [setTimeout].  It is
    the closure of the render [r] in which the button was pressed: the
    [currentIndex], [sessionQueue] and [learningQueue] it tests are those of
    [r], while its updates apply to the state [s] that the press has left. *)
Definition advance_timeout (random : nat → nat) (r s : Session) : Session :=
  let s :=
    if (currentIndex r + 1 <? length (sessionQueue r))%nat then
      {| sessionQueue := sessionQueue s; learningQueue := learningQueue s;
         currentIndex := currentIndex s + 1; isFlipped := isFlipped s;
         sessionComplete := sessionComplete s;
         isTransitioning := isTransitioning s |}
    else if (0 <? length (learningQueue r))%nat then
      {| sessionQueue := shuffleArray random (learningQueue r);
         learningQueue := []; currentIndex := 0; isFlipped := isFlipped s;
         sessionComplete := sessionComplete s;
         isTransitioning := isTransitioning s |}
    else
      {| sessionQueue := sessionQueue s; learningQueue := learningQueue s;
         currentIndex := currentIndex s; isFlipped := isFlipped s;
         sessionComplete := true; isTransitioning := isTransitioning s |} in
  {| sessionQueue := sessionQueue s; learningQueue := learningQueue s;
     currentIndex := currentIndex s; isFlipped := isFlipped s;
     sessionComplete := sessionComplete s; isTransitioning := false |}.

(** [advanceToNextCard] up to the end of its timeout; while it runs the
    buttons do nothing. *)
Definition advanceToNextCard (random : nat → nat) (r s : Session) : Session :=
  advance_timeout random r
    {| sessionQueue := sessionQueue s; learningQueue := learningQueue s;
       currentIndex := currentIndex s; isFlipped := false;
       sessionComplete := sessionComplete s; isTransitioning := true |}.

Definition handleMarkLearning (random : nat → nat) (s : Session) : Session :=
  match currentCard s with
  | None => s
  | Some c =>
      if isTransitioning s then s
      else advanceToNextCard random s
             {| sessionQueue := sessionQueue s;
                learningQueue := learningQueue s ++ [c];
                currentIndex := currentIndex s; isFlipped := isFlipped s;
                sessionComplete := sessionComplete s;
                isTransitioning := isTransitioning s |}
  end.

Definition handleMarkKnown (random : nat → nat) (s : Session) : Session :=
  match currentCard s with
  | None => s
  | Some _ => if isTransitioning s then s else advanceToNextCard random s s
  end.

Definition handleFlip (s : Session) : Session :=
  if isTransitioning s then s
  else {| sessionQueue := sessionQueue s; learningQueue := learningQueue s;
          currentIndex := currentIndex s; isFlipped := true;
          sessionComplete := sessionComplete s;
          isTransitioning := isTransitioning s |}.

End Session.

Arguments sessionQueue {card} _.
Arguments learningQueue {card} _.
Arguments currentIndex {card} _.
Arguments isFlipped {card} _.
Arguments sessionComplete {card} _.
Arguments isTransitioning {card} _.
Arguments swap {card} _ _ _.
Arguments shuffle_from {card} _ _ _.
Arguments shuffleArray {card} _ _.
Arguments initial {card}.
Arguments start {card} _ _ _.
Arguments currentCard {card} _.
Arguments advance_timeout {card} _ _ _.
Arguments advanceToNextCard {card} _ _ _.
Arguments handleMarkLearning {card} _ _.
Arguments handleMarkKnown {card} _ _.
Arguments handleFlip {card} _.

End StudyPage.

(** ** components/WordCardComponent.tsx: collocations as text *)

Module WordCardComponent.
Import Gemini.

Record Collocation : Type := {
  phrase : string;
  translation : string;
}.

(** [s.split(c)] for a separator of one character. *)
Fixpoint split_char (sep : ascii) (s : string) : list string :=
  match s with
  | EmptyString => [EmptyString]
  | String c s' =>
      if Ascii.eqb c sep then EmptyString :: split_char sep s'
      else match split_char sep s' with
           | p :: ps => String c p :: ps
           | [] => [String c EmptyString]
           end
  end.

Definition collocationsToString (cols : list Collocation) : string :=
  WordLists.join (String "010" EmptyString)
    ((λ c, String.append (phrase c)
             (String.append " | " (translation c))) <$> cols).

(** [parts[i]?.trim() || ''] is the trimmed part, or the empty string when
    there is no such part. *)
Definition stringToCollocations (str : string) : list Collocation :=
  filter (λ c, phrase c ≠ "")
    ((λ line,
        let parts := split_char "|" line in
        {| phrase := default "" (trim <$> parts !! 0);
           translation := default "" (trim <$> parts !! 1) |})
       <$> split_char "010" str).

End WordCardComponent.

(** * Properties *)

(** ** Objects *)

Module ObjFacts.

Lemma obj_lookup_set_eq k v o : obj_lookup k (obj_set k v o) = Some v.
Proof.
  induction o as [|[k' v'] o IH]; simpl.
  - by rewrite String.eqb_refl.
  - destruct (String.eqb k' k) eqn:E; simpl; by rewrite E.
Qed.

Lemma obj_lookup_set_ne k k' v o :
  k ≠ k' → obj_lookup k' (obj_set k v o) = obj_lookup k' o.
Proof.
  intros Hne. induction o as [|[k0 v0] o IH]; simpl.
  - by apply String.eqb_neq in Hne as ->.
  - destruct (String.eqb k0 k) eqn:E; simpl; [|by rewrite IH].
    apply String.eqb_eq in E as ->.
    by apply String.eqb_neq in Hne as ->.
Qed.

Lemma obj_set_id k v o : obj_lookup k o = Some v → obj_set k v o = o.
Proof.
  induction o as [|[k0 v0] o IH]; simpl; [done|].
  destruct (String.eqb k0 k); [congruence|].
  intros H. by rewrite IH.
Qed.

Lemma obj_assign_cons o k v kvs :
  obj_assign o ((k, v) :: kvs) = obj_assign (obj_set k v o) kvs.
Proof. done. Qed.

Lemma obj_lookup_assign_notin k o kvs :
  k ∉ kvs.*1 → obj_lookup k (obj_assign o kvs) = obj_lookup k o.
Proof.
  revert o. induction kvs as [|[k0 v0] kvs IH]; intros o Hk; [done|].
  rewrite obj_assign_cons, IH by set_solver.
  apply obj_lookup_set_ne. set_solver.
Qed.

Lemma obj_lookup_assign_in k v o kvs :
  NoDup kvs.*1 → (k, v) ∈ kvs → obj_lookup k (obj_assign o kvs) = Some v.
Proof.
  revert o. induction kvs as [|[k0 v0] kvs IH]; intros o Hnd Hin.
  - by apply elem_of_nil in Hin.
  - apply NoDup_cons in Hnd as [Hk0 Hnd]. rewrite obj_assign_cons.
    apply elem_of_cons in Hin as [[= -> ->]|Hin].
    + rewrite obj_lookup_assign_notin by done. apply obj_lookup_set_eq.
    + by apply IH.
Qed.

Lemma obj_assign_id o kvs :
  (∀ k v, (k, v) ∈ kvs → obj_lookup k o = Some v) → obj_assign o kvs = o.
Proof.
  induction kvs as [|[k0 v0] kvs IH]; intros H; [done|].
  rewrite obj_assign_cons, obj_set_id by (apply H; left).
  apply IH. intros k v Hin. apply H. by right.
Qed.

(** Assigning the same entries a second time changes nothing. *)
Lemma obj_assign_idemp o kvs :
  NoDup kvs.*1 → obj_assign (obj_assign o kvs) kvs = obj_assign o kvs.
Proof.
  intros Hnd. apply obj_assign_id. intros k v Hin.
  by apply obj_lookup_assign_in.
Qed.

Lemma or_else_truthy a d : truthy d = true → truthy (or_else a d) = true.
Proof. intros Hd. destruct a as [v|]; simpl; [|done]. by destruct (truthy v) eqn:E. Qed.

Lemma or_else_fix a d :
  truthy d = true → or_else (Some (or_else a d)) d = or_else a d.
Proof. intros Hd. simpl. by rewrite or_else_truthy. Qed.

Lemma array_or_empty_fix a :
  array_or_empty (Some (array_or_empty a)) = array_or_empty a.
Proof. by destruct a as [[]|]. Qed.

End ObjFacts.

(** ** Migration *)

Module StorageFacts.
Import Storage ObjFacts.

Lemma get_prop_spread_with k v x kvs :
  NoDup kvs.*1 → (k, v) ∈ kvs → get_prop k (spread_with x kvs) = Some (Some v).
Proof. intros. simpl. f_equal. by apply obj_lookup_assign_in. Qed.

Lemma spread_with_twice x kvs :
  NoDup kvs.*1 → spread_with (spread_with x kvs) kvs = spread_with x kvs.
Proof. intros. unfold spread_with. simpl. f_equal. by apply obj_assign_idemp. Qed.

Ltac closed_NoDup := simpl; apply (bool_decide_unpack _); vm_compute; exact I.
Ltac find_entry :=
  repeat first [apply list_elem_of_here | apply list_elem_of_further].
Ltac read_back :=
  repeat (erewrite get_prop_spread_with by first [closed_NoDup | find_entry]);
  cbn [mbind option_bind];
  rewrite ?or_else_fix, ?array_or_empty_fix by done.

Lemma migrateWordCard_fix card r :
  migrateWordCard card = Some r → migrateWordCard r = Some r.
Proof.
  unfold migrateWordCard at 1. destruct (get_prop "targetLanguage" card) eqn:E1;
    [|done].
  assert (∀ k, is_Some (get_prop k card)) as Hget.
  { destruct card; try done; eauto. }
  repeat match goal with
  | |- context [get_prop ?k card] =>
      let o := fresh "p" in let E := fresh "E" in
      destruct (Hget k) as [o E]; rewrite E; clear E
  end.
  simpl. intros [= <-]. unfold migrateWordCard. read_back.
  f_equal. apply spread_with_twice. closed_NoDup.
Qed.

Lemma mapM_migrateWordCard_fix l l' :
  mapM migrateWordCard l = Some l' → mapM migrateWordCard l' = Some l'.
Proof.
  rewrite !mapM_Some. intros H. induction H as [|x y l l' Hxy _ IH]; constructor.
  - by apply migrateWordCard_fix in Hxy.
  - done.
Qed.

Lemma migrateDeck_fix deck r :
  migrateDeck deck = Some r → migrateDeck r = Some r.
Proof.
  unfold migrateDeck at 1.
  destruct (get_prop "targetLanguage" deck) as [tl|] eqn:E1; [|done].
  assert (∀ k, is_Some (get_prop k deck)) as Hget.
  { destruct deck; try done; eauto. }
  destruct (Hget "nativeLanguage") as [nl ->].
  destruct (Hget "cards") as [cards ->]. cbn [mbind option_bind].
  set (migrated := match cards with
                   | Some (VArr l) => VArr <$> mapM migrateWordCard l
                   | _ => Some (VArr [])
                   end).
  assert (∀ c, migrated = Some c →
            ∃ l', c = VArr l' ∧ mapM migrateWordCard l' = Some l') as Hc.
  { subst migrated. intros c. destruct cards as [[]|]; try (intros [= <-]; by exists []).
    destruct (mapM migrateWordCard elems) as [l'|] eqn:E; [|done].
    intros [= <-]. exists l'. eauto using mapM_migrateWordCard_fix. }
  destruct migrated as [c|]; [|done].
  destruct (Hc c eq_refl) as (l' & -> & Hl'). cbn [mbind option_bind].
  intros [= <-]. unfold migrateDeck. read_back. rewrite Hl'. simpl.
  f_equal. apply spread_with_twice. closed_NoDup.
Qed.

Lemma migrateStory_fix story r :
  migrateStory story = Some r → migrateStory r = Some r.
Proof.
  unfold migrateStory at 1.
  destruct (get_prop "targetLanguage" story) as [tl|] eqn:E1; [|done].
  assert (∀ k, is_Some (get_prop k story)) as Hget.
  { destruct story; try done; eauto. }
  destruct (Hget "nativeLanguage") as [nl ->]. cbn [mbind option_bind].
  intros [= <-]. unfold migrateStory. read_back.
  f_equal. apply spread_with_twice. closed_NoDup.
Qed.

Lemma twice_from_fix (f : value → option value) :
  (∀ x r, f x = Some r → f r = Some r) → ∀ x, f x ≫= f = f x.
Proof. intros Hfix x. destruct (f x) as [r|] eqn:E; simpl; eauto. Qed.

Ltac other_key :=
  cbn [own_props]; rewrite obj_lookup_assign_notin; [done|]; simpl;
  repeat match goal with
  | H : _ ∉ _ :: _ |- _ => apply not_elem_of_cons in H as [? H]
  end;
  repeat (apply not_elem_of_cons; split; [done|]); apply not_elem_of_nil.

Lemma obj_lookup_assign_is_Some k o kvs :
  is_Some (obj_lookup k o) → is_Some (obj_lookup k (obj_assign o kvs)).
Proof.
  revert o. induction kvs as [|[k0 v0] kvs IH]; intros o Hk; [done|].
  rewrite obj_assign_cons. apply IH.
  destruct (decide (k0 = k)) as [->|Hne].
  - rewrite obj_lookup_set_eq. eauto.
  - by rewrite obj_lookup_set_ne.
Qed.

Lemma array_field k o kvs :
  NoDup kvs.*1 → (k, array_or_empty (obj_lookup k o)) ∈ kvs →
  (∃ l, obj_lookup k (obj_assign o kvs) = Some (VArr l)) ∧
  obj_lookup k (obj_assign o kvs) = Some (array_or_empty (obj_lookup k o)) ∧
  (obj_lookup k o = None → obj_lookup k (obj_assign o kvs) = Some (VArr [])).
Proof.
  intros Hnd Hin. rewrite (obj_lookup_assign_in _ _ _ _ Hnd Hin). split_and!.
  - destruct (obj_lookup k o) as [[]|]; simpl; eauto.
  - done.
  - by intros ->.
Qed.

(** C5.  Migration is idempotent on every value: migrating twice gives
    what migrating once gives (a [TypeError] included), for word cards,
    decks and stories.  On a word card record it leaves each of the six
    array fields an array (the empty one when the field is missing or not
    an array), [phonetics] and [partOfSpeech] present, drops no key, and
    leaves every key it does not migrate with the value it had; a deck or a
    story record likewise keeps every key and every value outside the
    migrated ones. *)
Theorem migration_idempotent_and_conservative :
  (∀ card, migrateWordCard card ≫= migrateWordCard = migrateWordCard card) ∧
  (∀ deck, migrateDeck deck ≫= migrateDeck = migrateDeck deck) ∧
  (∀ story, migrateStory story ≫= migrateStory = migrateStory story) ∧
  (∀ o, ∃ o',
     migrateWordCard (VObj o) = Some (VObj o') ∧
     Forall (λ k, (∃ l, obj_lookup k o' = Some (VArr l)) ∧
                  obj_lookup k o' = Some (array_or_empty (obj_lookup k o)) ∧
                  (obj_lookup k o = None → obj_lookup k o' = Some (VArr [])))
       ["definitions"; "collocations"; "synonyms"; "antonyms"; "wordFamily";
        "mnemonic"] ∧
     obj_lookup "phonetics" o' =
       Some (or_else (obj_lookup "phonetics" o)
               (VObj [("uk", VStr ""); ("us", VStr "")])) ∧
     obj_lookup "partOfSpeech" o' =
       Some (or_else (obj_lookup "partOfSpeech" o)
               (VObj [("abbreviation", VStr ""); ("nativeName", VStr "")])) ∧
     (∀ k, is_Some (obj_lookup k o) → is_Some (obj_lookup k o')) ∧
     (∀ k, k ∉ ["targetLanguage"; "nativeLanguage"; "phonetics"; "partOfSpeech";
                "definitions"; "collocations"; "synonyms"; "antonyms";
                "wordFamily"; "mnemonic"] →
           obj_lookup k o' = obj_lookup k o)) ∧
  (∀ o r, migrateDeck (VObj o) = Some r → ∃ o',
     r = VObj o' ∧
     (∀ k, is_Some (obj_lookup k o) → is_Some (obj_lookup k o')) ∧
     (∀ k, k ∉ ["targetLanguage"; "nativeLanguage"; "cards"] →
           obj_lookup k o' = obj_lookup k o)) ∧
  (∀ o, ∃ o',
     migrateStory (VObj o) = Some (VObj o') ∧
     (∀ k, is_Some (obj_lookup k o) → is_Some (obj_lookup k o')) ∧
     (∀ k, k ∉ ["targetLanguage"; "nativeLanguage"] →
           obj_lookup k o' = obj_lookup k o)).
Proof.
  split_and!.
  - apply twice_from_fix, migrateWordCard_fix.
  - apply twice_from_fix, migrateDeck_fix.
  - apply twice_from_fix, migrateStory_fix.
  - intros o. eexists. split; [reflexivity|]. split_and!.
    + repeat (apply Forall_cons; split;
        [apply array_field; [closed_NoDup|find_entry]|]).
      apply Forall_nil_2.
    + by (erewrite obj_lookup_assign_in; [reflexivity|closed_NoDup|find_entry]).
    + by (erewrite obj_lookup_assign_in; [reflexivity|closed_NoDup|find_entry]).
    + intros k. apply obj_lookup_assign_is_Some.
    + intros k Hk. other_key.
  - intros o r. unfold migrateDeck. simpl.
    destruct (match obj_lookup "cards" o with
              | Some (VArr l) => VArr <$> mapM migrateWordCard l
              | _ => Some (VArr [])
              end) as [c|]; [|done].
    simpl. intros [= <-]. eexists. split; [reflexivity|]. split.
    + intros k. apply obj_lookup_assign_is_Some.
    + intros k Hk. other_key.
  - intros o. eexists. split; [reflexivity|]. split.
    + intros k. apply obj_lookup_assign_is_Some.
    + intros k Hk. other_key.
Qed.

(** ** Decks read back from the store *)

Lemma getDecks_saveDecks ds ls :
  getDecks (saveDecks ds ls) = default [] (mapM migrateDeck ds).
Proof. unfold getDecks, saveDecks. by rewrite lookup_insert_eq. Qed.

Lemma migrateWordCard_string s :
  migrateWordCard (VStr s) =
    Some (spread_with (VStr s)
      [("targetLanguage", VStr "en"); ("nativeLanguage", VStr "zh");
       ("phonetics", VObj [("uk", VStr ""); ("us", VStr "")]);
       ("partOfSpeech", VObj [("abbreviation", VStr ""); ("nativeName", VStr "")]);
       ("definitions", VArr []); ("collocations", VArr []);
       ("synonyms", VArr []); ("antonyms", VArr []);
       ("wordFamily", VArr []); ("mnemonic", VArr [])]).
Proof. reflexivity. Qed.

Lemma mapM_migrateWordCard_strings ids :
  mapM migrateWordCard (VStr <$> ids) =
    Some ((λ s, default VNull (migrateWordCard (VStr s))) <$> ids).
Proof.
  apply mapM_Some. induction ids as [|s ids IH]; constructor; [|done].
  by rewrite migrateWordCard_string.
Qed.

Lemma migrateDeck_cards_array o l :
  obj_lookup "cards" o = Some (VArr l) →
  migrateDeck (VObj o) =
    (λ l', spread_with (VObj o)
       [("targetLanguage", or_else (obj_lookup "targetLanguage" o) (VStr "en"));
        ("nativeLanguage", or_else (obj_lookup "nativeLanguage" o) (VStr "zh"));
        ("cards", VArr l')]) <$> mapM migrateWordCard l.
Proof.
  intros Hcards. unfold migrateDeck. simpl. rewrite Hcards.
  by destruct (mapM migrateWordCard l).
Qed.

(** A legacy card keeps its own fields, the unknown one included, and
    gains the missing ones. *)
Example migrate_legacy_card :
  migrateWordCard
    (VObj [("id", VStr "w1"); ("word", VStr "apple"); ("note", VStr "mine");
           ("synonyms", VArr [VStr "pome"])])
  = Some (VObj [("id", VStr "w1"); ("word", VStr "apple"); ("note", VStr "mine");
                ("synonyms", VArr [VStr "pome"]);
                ("targetLanguage", VStr "en"); ("nativeLanguage", VStr "zh");
                ("phonetics", VObj [("uk", VStr ""); ("us", VStr "")]);
                ("partOfSpeech",
                 VObj [("abbreviation", VStr ""); ("nativeName", VStr "")]);
                ("definitions", VArr []); ("collocations", VArr []);
                ("antonyms", VArr []); ("wordFamily", VArr []);
                ("mnemonic", VArr [])]).
Proof. reflexivity. Qed.

(** A deck that refers to the word "w1" by identifier, saved and read back. *)
Example id_reference_round_trip :
  getDecks (saveDecks [VObj [("id", VStr "d1"); ("cards", VArr [VStr "w1"])]] ∅)
  = [VObj [("id", VStr "d1");
           ("cards",
            VArr [VObj [("0", VStr "w"); ("1", VStr "1");
                        ("targetLanguage", VStr "en");
                        ("nativeLanguage", VStr "zh");
                        ("phonetics", VObj [("uk", VStr ""); ("us", VStr "")]);
                        ("partOfSpeech",
                         VObj [("abbreviation", VStr ""); ("nativeName", VStr "")]);
                        ("definitions", VArr []); ("collocations", VArr []);
                        ("synonyms", VArr []); ("antonyms", VArr []);
                        ("wordFamily", VArr []); ("mnemonic", VArr [])]]);
           ("targetLanguage", VStr "en"); ("nativeLanguage", VStr "zh")]].
Proof. by vm_compute. Qed.

(** C10.  [migrateDeck] maps [migrateWordCard] over [cards] whenever it
    is an array, whatever the elements are; an identifier string is turned
    into the object that spreads its code units under the migration
    defaults; so decks saved in the id-reference schema are read back by
    [getDecks] with every identifier replaced by such an object, and the
    membership list read back equals the one saved only when it is empty. *)
Theorem migrateDeck_rewrites_id_references :
  let migrated_id s :=
    spread_with (VStr s)
      [("targetLanguage", VStr "en"); ("nativeLanguage", VStr "zh");
       ("phonetics", VObj [("uk", VStr ""); ("us", VStr "")]);
       ("partOfSpeech", VObj [("abbreviation", VStr ""); ("nativeName", VStr "")]);
       ("definitions", VArr []); ("collocations", VArr []);
       ("synonyms", VArr []); ("antonyms", VArr []);
       ("wordFamily", VArr []); ("mnemonic", VArr [])] in
  (∀ o l, obj_lookup "cards" o = Some (VArr l) →
     migrateDeck (VObj o) =
       (λ l', spread_with (VObj o)
          [("targetLanguage", or_else (obj_lookup "targetLanguage" o) (VStr "en"));
           ("nativeLanguage", or_else (obj_lookup "nativeLanguage" o) (VStr "zh"));
           ("cards", VArr l')]) <$> mapM migrateWordCard l) ∧
  (∀ s, migrateWordCard (VStr s) = Some (migrated_id s)) ∧
  (∀ ls ds,
     Forall (λ d, ∃ o ids, d = VObj o ∧
                  obj_lookup "cards" o = Some (VArr (VStr <$> ids))) ds →
     ∃ ds', getDecks (saveDecks ds ls) = ds' ∧
       Forall2 (λ d d', ∃ ids,
                  get_prop "cards" d = Some (Some (VArr (VStr <$> ids))) ∧
                  get_prop "cards" d' = Some (Some (VArr (migrated_id <$> ids))) ∧
                  (get_prop "cards" d' = get_prop "cards" d ↔ ids = []))
         ds ds').
Proof.
  intros migrated_id. split_and!.
  - apply migrateDeck_cards_array.
  - intros s. apply migrateWordCard_string.
  - intros ls ds Hds. rewrite getDecks_saveDecks.
    assert (∃ ds', mapM migrateDeck ds = Some ds' ∧
      Forall2 (λ d d', ∃ ids,
                  get_prop "cards" d = Some (Some (VArr (VStr <$> ids))) ∧
                  get_prop "cards" d' = Some (Some (VArr (migrated_id <$> ids))) ∧
                  (get_prop "cards" d' = get_prop "cards" d ↔ ids = []))
         ds ds') as (ds' & -> & HF); [|by exists ds'].
    induction Hds as [|d ds (o & ids & -> & Hcards) _ (ds' & IH & HF)].
    { exists []. by split; [|constructor]. }
    eexists (_ :: ds'). split.
    + change (mapM migrateDeck (VObj o :: ds)) with
        (y ← migrateDeck (VObj o); k ← mapM migrateDeck ds; mret (y :: k)).
      rewrite (migrateDeck_cards_array _ _ Hcards).
      rewrite mapM_migrateWordCard_strings, IH. reflexivity.
    + constructor; [|done]. exists ids. split_and!.
      * simpl. by rewrite Hcards.
      * erewrite get_prop_spread_with; [|closed_NoDup|find_entry].
        done.
      * erewrite get_prop_spread_with; [|closed_NoDup|find_entry].
        simpl. rewrite Hcards. destruct ids as [|s ids]; [done|].
        split; [|done]. simpl. intros [=].
Qed.

End StorageFacts.

(** ** Home page handlers *)

Module HomePageFacts.
Import Storage HomePage Vocabulary ObjFacts.

Lemma strict_eq_str_spec a s : strict_eq_str a s = true ↔ a = Some (VStr s).
Proof.
  destruct a as [[| | |s'| |]|]; simpl; try (split; [done|congruence]).
  rewrite String.eqb_eq. split; congruence.
Qed.

Lemma prop_differs_spec k s x :
  x ≠ VNull →
  ∃ b, prop_differs k s x = Some b ∧ (b = true ↔ ¬ prop_is k s x).
Proof.
  intros Hx. unfold prop_differs, prop_is.
  destruct (get_prop k x) as [a|] eqn:E; [|by destruct x].
  simpl. eexists. split; [done|].
  rewrite negb_true_iff, <-not_true_iff_false, strict_eq_str_spec.
  split; intros H; contradict H; congruence.
Qed.

Lemma filter_js_prop_differs k s xs :
  Forall (λ x, x ≠ VNull) xs →
  filter_js (prop_differs k s) xs = Some (filter (λ x, ¬ prop_is k s x) xs).
Proof.
  induction 1 as [|x xs Hx _ IH]; [done|].
  simpl. rewrite IH. destruct (prop_differs_spec k s x Hx) as (b & -> & Hb).
  simpl. rewrite filter_cons. destruct b, (decide (¬ prop_is k s x)); try done.
  - by destruct n; apply Hb.
  - by apply Hb in n.
Qed.

(** C7.  Deleting the deck [deckId] (the confirmation accepted) stores
    the decks whose [id] is not [deckId] and the stories whose [deckId] is
    not [deckId], in their order, and leaves the stored words as they
    were. *)
Theorem delete_deck_cascades deckId w :
  Forall (λ d, d ≠ VNull) (decks w) →
  Forall (λ s, s ≠ VNull) (stories w) →
  let keptDecks := filter (λ d, ¬ prop_is "id" deckId d) (decks w) in
  let keptStories := filter (λ s, ¬ prop_is "deckId" deckId s) (stories w) in
  let w' := (handleDeleteDeck true deckId w).2 in
  (handleDeleteDeck true deckId w).1 = Val () ∧
  ls w' !! DECKS_KEY = Some (Doc (VArr keptDecks)) ∧
  ls w' !! STORIES_KEY = Some (Doc (VArr keptStories)) ∧
  ls w' !! WORDS_KEY = ls w !! WORDS_KEY ∧
  getWords (ls w') = getWords (ls w) ∧
  decks w' = keptDecks ∧ stories w' = keptStories ∧ myWords w' = myWords w.
Proof.
  intros Hd Hs keptDecks keptStories.
  unfold handleDeleteDeck, mbind, M_bind, read. simpl.
  rewrite (filter_js_prop_differs _ _ _ Hd). simpl.
  rewrite (filter_js_prop_differs _ _ _ Hs). simpl.
  unfold getWords, saveStories, saveDecks. split_and!; try done.
  - by rewrite lookup_insert_ne, lookup_insert_eq.
  - by rewrite lookup_insert_eq.
  - by rewrite !lookup_insert_ne.
  - by rewrite !lookup_insert_ne.
Qed.

Lemma delete_deck_cascades_witness :
  let w := {| ls := {[ WORDS_KEY := Doc (VArr [VObj [("id", VStr "w1")]]) ]};
              decks := [VObj [("id", VStr "d1"); ("cards", VArr [VStr "w1"])];
                        VObj [("id", VStr "d2"); ("cards", VArr [])]];
              stories := [VObj [("id", VStr "s1"); ("deckId", VStr "d1")];
                          VObj [("id", VStr "s2"); ("deckId", VStr "d2")]];
              myWords := [VObj [("id", VStr "w1")]];
              alerts := [] |} in
  let w' := (handleDeleteDeck true "d1" w).2 in
  ls w' !! DECKS_KEY =
    Some (Doc (VArr [VObj [("id", VStr "d2"); ("cards", VArr [])]])) ∧
  ls w' !! STORIES_KEY =
    Some (Doc (VArr [VObj [("id", VStr "s2"); ("deckId", VStr "d2")]])) ∧
  ls w' !! WORDS_KEY = Some (Doc (VArr [VObj [("id", VStr "w1")]])).
Proof.
  intros w w'.
  assert (Forall (λ d, d ≠ VNull) (decks w)) as Hd by (repeat constructor; done).
  assert (Forall (λ s, s ≠ VNull) (stories w)) as Hs by (repeat constructor; done).
  destruct (delete_deck_cascades "d1" w Hd Hs) as (_ & H1 & H2 & H3 & _).
  split_and!; [exact H1 | exact H2 | exact H3].
Defined.






(** [getDecks] only returns decks of that shape, and no getter returns
    [null]: what [reloadData] puts in the component state satisfies the
    hypotheses of C7 and C8. *)
Lemma migrated_not_null (migrate : value → option value) l l' :
  (∀ x r, migrate x = Some r → migrate r = Some r) →
  migrate VNull = None →
  mapM migrate l = Some l' → Forall (λ x, x ≠ VNull) l'.
Proof.
  intros Hfix Hnull. rewrite mapM_Some.
  induction 1 as [|x r l l' Hx _ IH]; constructor; [|done].
  intros ->. apply Hfix in Hx. congruence.
Qed.

Lemma getters_not_null l :
  Forall (λ x, x ≠ VNull) (getDecks l) ∧
  Forall (λ x, x ≠ VNull) (getStories l) ∧
  Forall (λ x, x ≠ VNull) (getWords l).
Proof.
  unfold getDecks, getStories, getWords. split_and!.
  - destruct (l !! DECKS_KEY) as [[|[]]|]; try by constructor.
    destruct (mapM migrateDeck elems) eqn:E; [|by constructor].
    eapply migrated_not_null; [apply StorageFacts.migrateDeck_fix|done|exact E].
  - destruct (l !! STORIES_KEY) as [[|[]]|]; try by constructor.
    destruct (mapM migrateStory elems) eqn:E; [|by constructor].
    eapply migrated_not_null; [apply StorageFacts.migrateStory_fix|done|exact E].
  - destruct (l !! WORDS_KEY) as [[|[]]|]; try by constructor.
    destruct (mapM migrateWordCard elems) eqn:E; [|by constructor].
    eapply migrated_not_null; [apply StorageFacts.migrateWordCard_fix|done|exact E].
Qed.

Lemma migrateDeck_shaped d r : migrateDeck d = Some r → deck_shaped r.
Proof.
  unfold migrateDeck.
  destruct (get_prop "targetLanguage" d) as [tl|]; [|done].
  destruct (get_prop "nativeLanguage" d) as [nl|]; [|done].
  destruct (get_prop "cards" d) as [cards|]; [|done]. cbn [mbind option_bind].
  destruct (match cards with
            | Some (VArr l) => VArr <$> mapM migrateWordCard l
            | _ => Some (VArr [])
            end) as [c|] eqn:E; [|done].
  assert (∃ l', c = VArr l') as [l' ->].
  { destruct cards as [[]|]; try (injection E as <-; eauto).
    destruct (mapM migrateWordCard elems); [|done]. injection E as <-; eauto. }
  cbn [mbind option_bind]. intros [= <-]. eexists _, l'. split; [reflexivity|].
  by rewrite obj_lookup_assign_in with (v := VArr l');
    [|StorageFacts.closed_NoDup|StorageFacts.find_entry].
Qed.

Lemma getDecks_shaped l : Forall deck_shaped (getDecks l).
Proof.
  unfold getDecks. destruct (l !! DECKS_KEY) as [[|[]]|]; try by constructor.
  destruct (mapM migrateDeck elems) as [ds|] eqn:E; [|by constructor].
  simpl. apply mapM_Some in E. induction E; constructor; eauto using migrateDeck_shaped.
Qed.

(** ** Import *)

Ltac run_handler :=
  unfold handleFileImport, try_catch, reloadData, store, setDecks, setStories,
    setMyWords, show_alert, modify, read, js, throw, mbind, M_bind, mret, M_ret;
  simpl.



(** Accepted, the same backup empties the three collections; a backup
    whose first deck has no [cards] makes the legacy check throw, and nothing
    is stored. *)
Example import_examples :
  ls (handleFileImport (λ _, false) (Doc Samples.empty_backup) true
        Samples.stocked).2
    = saveStories [] (saveWords [] (saveDecks [] (ls Samples.stocked))) ∧
  (let w' := (handleFileImport (λ _, false) (Doc Samples.cardless_backup) true
                Samples.stocked).2 in
   ls w' = ls Samples.stocked ∧ alerts w' = [ImportFailed TypeError]).
Proof. split_and!; by vm_compute. Qed.

End HomePageFacts.

(** ** Strings and word lists *)

Module WordFacts.
Import Gemini Vocabulary.

Lemma lower_ascii_idemp c : lower_ascii (lower_ascii c) = lower_ascii c.
Proof. destruct c as [[] [] [] [] [] [] [] []]; reflexivity. Qed.

Lemma is_white_lower c : is_white (lower_ascii c) = is_white c.
Proof. destruct c as [[] [] [] [] [] [] [] []]; reflexivity. Qed.

Lemma toLowerCase_idemp s : toLowerCase (toLowerCase s) = toLowerCase s.
Proof. induction s as [|c s IH]; simpl; [done|]. by rewrite lower_ascii_idemp, IH. Qed.

Lemma trimStart_lower s : trimStart (toLowerCase s) = toLowerCase (trimStart s).
Proof.
  induction s as [|c s IH]; simpl; [done|].
  rewrite is_white_lower. by destruct (is_white c).
Qed.

Lemma trimEnd_lower s : trimEnd (toLowerCase s) = toLowerCase (trimEnd s).
Proof.
  induction s as [|c s IH]; simpl; [done|].
  rewrite IH, is_white_lower. destruct (trimEnd s); simpl; [|done].
  by destruct (is_white c).
Qed.

Lemma trim_lower s : trim (toLowerCase s) = toLowerCase (trim s).
Proof. unfold trim. by rewrite trimStart_lower, trimEnd_lower. Qed.

Lemma trimEnd_idemp s : trimEnd (trimEnd s) = trimEnd s.
Proof.
  induction s as [|c s IH]; simpl; [done|].
  destruct (trimEnd s) as [|c' r] eqn:E.
  - destruct (is_white c) eqn:Ec; simpl; [done|]. by rewrite Ec.
  - change (trimEnd (String c (String c' r))) with
      (match trimEnd (String c' r) with
       | EmptyString => if is_white c then EmptyString else String c EmptyString
       | r' => String c r'
       end).
    by rewrite IH.
Qed.

Lemma trimStart_clean s : clean_start (trimStart s).
Proof. induction s as [|c s IH]; simpl; [done|]. by destruct (is_white c) eqn:E. Qed.

Lemma clean_start_trimEnd s : clean_start s → clean_start (trimEnd s).
Proof.
  destruct s as [|c s]; simpl; [done|]. intros Hc.
  destruct (trimEnd s); simpl; [by rewrite Hc|done].
Qed.

Lemma trimStart_id s : clean_start s → trimStart s = s.
Proof. destruct s as [|c s]; simpl; [done|]. by intros ->. Qed.

Lemma trim_idemp s : trim (trim s) = trim s.
Proof.
  unfold trim. rewrite (trimStart_id (trimEnd _)).
  - apply trimEnd_idemp.
  - apply clean_start_trimEnd, trimStart_clean.
Qed.

Lemma normal_lower_trim w : toLowerCase (trim w) ≠ "" → normal (toLowerCase (trim w)).
Proof.
  intros Hne. split; [|done].
  by rewrite trim_lower, trim_idemp, toLowerCase_idemp.
Qed.

Lemma normal_lower w : normal w → toLowerCase w = w.
Proof. intros [H _]. rewrite <-H. apply toLowerCase_idemp. Qed.

(** *** [unique] *)

Lemma foldl_set_add_spec acc xs :
  NoDup acc →
  NoDup (foldl set_add acc xs) ∧
  (∀ x, x ∈ foldl set_add acc xs ↔ x ∈ acc ∨ x ∈ xs).
Proof.
  revert acc. induction xs as [|y xs IH]; intros acc Hacc; simpl.
  - split; [done|]. set_solver.
  - assert (NoDup (set_add acc y)) as Hnd.
    { unfold set_add. case_bool_decide; [done|].
      apply NoDup_app. split_and!; [done| |apply NoDup_singleton].
      intros x Hx Hxy. apply list_elem_of_singleton in Hxy. by subst. }
    destruct (IH _ Hnd) as [IH1 IH2]. split; [done|].
    intros x. rewrite IH2. unfold set_add. case_bool_decide; set_solver.
Qed.

Lemma NoDup_unique xs : NoDup (unique xs).
Proof. apply foldl_set_add_spec, NoDup_nil_2. Qed.

Lemma elem_of_unique x xs : x ∈ unique xs ↔ x ∈ xs.
Proof.
  unfold unique. rewrite (proj2 (foldl_set_add_spec [] xs (NoDup_nil_2))).
  set_solver.
Qed.

Lemma foldl_set_add_NoDup acc xs :
  NoDup (acc ++ xs) → foldl set_add acc xs = acc ++ xs.
Proof.
  revert acc. induction xs as [|y xs IH]; intros acc Hnd; simpl.
  - by rewrite app_nil_r.
  - unfold set_add at 2. rewrite bool_decide_eq_false_2.
    + rewrite IH; rewrite <-app_assoc; done.
    + apply NoDup_app in Hnd as (_ & Hnd & _). intros Hy.
      apply (Hnd _ Hy). by left.
Qed.

Lemma unique_NoDup xs : NoDup xs → unique xs = xs.
Proof. intros. by apply (foldl_set_add_NoDup []). Qed.

(** *** [normalize] *)

Lemma normalize_normal words : Forall normal (normalize words).
Proof.
  apply Forall_forall. intros w. unfold normalize.
  rewrite elem_of_unique, list_elem_of_filter, list_elem_of_fmap.
  intros (Hne & w0 & -> & _). by apply normal_lower_trim.
Qed.

Lemma NoDup_normalize words : NoDup (normalize words).
Proof. apply NoDup_unique. Qed.

Lemma normalize_id ws : NoDup ws → Forall normal ws → normalize ws = ws.
Proof.
  intros Hnd Hn. unfold normalize.
  assert ((λ w, toLowerCase (trim w)) <$> ws = ws) as ->.
  { induction Hn as [|w ws [Hw _] _ IH]; [done|].
    apply NoDup_cons in Hnd as [_ Hnd]. rewrite fmap_cons, Hw. f_equal. by apply IH. }
  assert (filter (λ w, w ≠ "") ws = ws) as ->.
  { clear Hnd. induction Hn as [|w ws [_ Hw] _ IH]; [done|].
    rewrite filter_cons_True by done. by rewrite IH. }
  by apply unique_NoDup.
Qed.

(** *** [sort] *)

Lemma sort_Permutation xs : sort xs ≡ₚ xs.
Proof. apply merge_sort_Permutation. Qed.

Lemma sort_eq_iff xs ys : sort xs = sort ys ↔ xs ≡ₚ ys.
Proof.
  split.
  - intros H. by rewrite <-(sort_Permutation xs), H, sort_Permutation.
  - intros H. apply (Sorted_unique String.le).
    + apply Sorted_merge_sort, _.
    + apply Sorted_merge_sort, _.
    + unfold sort in *. by rewrite !merge_sort_Permutation.
Qed.

Lemma normalize_sort_normalize words :
  normalize (sort (normalize words)) = sort (normalize words).
Proof.
  apply normalize_id.
  - rewrite sort_Permutation. apply NoDup_normalize.
  - rewrite sort_Permutation. apply normalize_normal.
Qed.

End WordFacts.

(** ** The batch generator *)

Module GeminiFacts.
Import Gemini Vocabulary WordFacts.

(** *** Step 2: the lookup *)

Lemma remember_lookup known card w :
  remember known card !! w =
    match known !! w with
    | Some d => Some d
    | None => if decide (named w card) then Some (data card) else None
    end.
Proof.
  unfold remember, named. set (k := toLowerCase (card_word card)).
  destruct (decide (k = w)) as [<-|Hne].
  - destruct (known !! k) eqn:E; [exact E|]. by rewrite lookup_insert_eq.
  - destruct (known !! k) eqn:E.
    + by destruct (known !! w).
    + rewrite lookup_insert_ne by done. by destruct (known !! w).
Qed.

Lemma first_named_cons w c cs :
  first_named w (c :: cs) =
    if decide (named w c) then Some c else first_named w cs.
Proof.
  unfold first_named. simpl. destruct (decide (named w c)); [done|].
  by destruct (list_find (named w) cs) as [[]|].
Qed.

Lemma foldl_remember_lookup known cs w :
  foldl remember known cs !! w =
    match known !! w with
    | Some d => Some d
    | None => data <$> first_named w cs
    end.
Proof.
  revert known. induction cs as [|c cs IH]; intros known.
  - simpl. by destruct (known !! w).
  - rewrite first_named_cons. simpl. rewrite IH, remember_lookup.
    destruct (known !! w); [done|]. by destruct (decide (named w c)).
Qed.

Lemma foldl_decks known decks :
  foldl (λ known deck, foldl remember known (cards deck)) known decks =
  foldl remember known (decks ≫= cards).
Proof.
  revert known. induction decks as [|d ds IH]; intros known; simpl; [done|].
  by rewrite IH, foldl_app.
Qed.

Lemma first_named_app w cs1 cs2 :
  first_named w (cs1 ++ cs2) =
    match first_named w cs1 with
    | Some c => Some c
    | None => first_named w cs2
    end.
Proof.
  induction cs1 as [|c cs1 IH].
  - simpl. by destruct (first_named w cs2).
  - rewrite <-app_comm_cons, !first_named_cons.
    by destruct (decide (named w c)).
Qed.

(** The lookup holds, for each word, the first card stored under it among
    the cards of the decks in deck order followed by the independent words. *)
Lemma build_existingWordData_lookup decks words w :
  build_existingWordData decks words !! w =
    data <$> first_named w ((decks ≫= cards) ++ words).
Proof.
  unfold build_existingWordData.
  by rewrite foldl_decks, <-foldl_app, foldl_remember_lookup, lookup_empty.
Qed.

(** *** Step 3: the loop *)

Section Loop.

Variable gen : string → ContentLanguage → ContentLanguage → option FlashcardData.
Variable speech : string → ContentLanguage → option string.
Variable uuid : nat → string.
Variables tl nl : ContentLanguage.
Variable U : list string.
Variable already : gset string.

Abbreviation process_word := (process_word gen speech uuid tl nl U already).
Abbreviation process_from := (process_from gen speech uuid tl nl U already).

(** The card minted for a freshly generated word. *)
Abbreviation generated_card r w fd :=
  {| id := uuid (cur_uuids r);
     data := {| content := fd; audioPronunciation := speech w tl;
                image := None |} |}.

Lemma process_word_skip i w r :
  w ∈ already →
  process_word i w r = (true, log (OnProgress (Skipped w (i + 1) (length U))) r).
Proof. intros H. unfold Gemini.process_word. by rewrite bool_decide_eq_true_2. Qed.

Lemma process_word_reuse i w r cardData :
  w ∉ already → cur_known r !! w = Some cardData →
  process_word i w r =
    (true,
     {| cur_cards := cur_cards r ++ [{| id := uuid (cur_uuids r); data := cardData |}];
        cur_known := cur_known r; cur_draft := cur_draft r;
        cur_uuids := S (cur_uuids r);
        cur_trace := cur_trace r ++ [OnProgress (FoundLocally w (i + 1) (length U))] |}).
Proof.
  intros H Hk. unfold Gemini.process_word.
  rewrite bool_decide_eq_false_2 by done. by rewrite Hk.
Qed.

Lemma process_word_generate i w r fd :
  w ∉ already → cur_known r !! w = None → gen w tl nl = Some fd →
  let cards' := cur_cards r ++ [generated_card r w fd] in
  let draft := {| inputWords := U; generatedCards := cards' |} in
  process_word i w r =
    (true,
     {| cur_cards := cards';
        cur_known := <[toLowerCase w := data (generated_card r w fd)]> (cur_known r);
        cur_draft := Some (Stored draft);
        cur_uuids := S (cur_uuids r);
        cur_trace :=
          cur_trace r ++
          [OnProgress (GeneratingData w (i + 1) (length U)); FlashcardCall w;
           OnProgress (GeneratingSpeech w (i + 1) (length U)); SpeechCall w;
           SetDraft draft] |}).
Proof.
  intros H Hk Hg cards' draft. subst cards' draft. unfold Gemini.process_word.
  rewrite bool_decide_eq_false_2 by done. rewrite Hk, Hg.
  unfold log. simpl. by rewrite <-!app_assoc.
Qed.

Lemma process_word_fail i w r :
  w ∉ already → cur_known r !! w = None → gen w tl nl = None →
  process_word i w r =
    (false,
     {| cur_cards := cur_cards r; cur_known := cur_known r;
        cur_draft := cur_draft r; cur_uuids := cur_uuids r;
        cur_trace :=
          cur_trace r ++
          [OnProgress (GeneratingData w (i + 1) (length U)); FlashcardCall w] |}).
Proof.
  intros H Hk Hg. unfold Gemini.process_word.
  rewrite bool_decide_eq_false_2 by done. rewrite Hk, Hg.
  unfold log. simpl. by rewrite <-!app_assoc.
Qed.

(** What one round of the loop does to the outside. *)
Lemma process_word_effects i w r ok r' :
  process_word i w r = (ok, r') →
  ∃ tr cs,
    cur_trace r' = cur_trace r ++ tr ∧
    cur_cards r' = cur_cards r ++ cs ∧
    (RemoveDraft ∉ tr) ∧
    (drafts_written tr = [] ∧ cur_draft r' = cur_draft r ∨
     ∃ d, drafts_written tr = [d] ∧ cur_draft r' = Some (Stored d) ∧
          inputWords d = U ∧ generatedCards d = cur_cards r') ∧
    length (drafts_written tr) = length (speech_calls tr) ∧
    (if ok then flashcard_calls tr = [] ∨
                (flashcard_calls tr = [w] ∧ to_generate already (cur_known r) w ∧
                 is_Some (gen w tl nl))
     else ∃ tr0, tr = tr0 ++ [FlashcardCall w] ∧ flashcard_calls tr = [w] ∧
                 to_generate already (cur_known r) w ∧ gen w tl nl = None) ∧
    (flashcard_calls tr = [] → ¬ to_generate already (cur_known r) w) ∧
    (∀ w', w' ≠ toLowerCase w → cur_known r' !! w' = cur_known r !! w').
Proof.
  destruct (decide (w ∈ already)) as [Hin|Hout].
  { rewrite process_word_skip by done. intros [= <- <-].
    eexists [_], []. simpl. rewrite app_nil_r.
    split_and!; try done; [set_solver|eauto..|].
    intros _ [? _]. done. }
  destruct (cur_known r !! w) as [cd|] eqn:Hk.
  { rewrite (process_word_reuse _ _ _ cd) by done. intros [= <- <-].
    eexists [_], [_]. simpl.
    split_and!; try done; [set_solver|eauto..|].
    intros _ [_ ?]. congruence. }
  destruct (gen w tl nl) as [fd|] eqn:Hg.
  - rewrite (process_word_generate _ _ _ fd) by done. intros [= <- <-].
    eexists [_; _; _; _; _], [_]. simpl.
    split_and!; try done.
    + set_solver.
    + right. eexists. split_and!; done.
    + right. split_and!; [done|done|eauto].
    + intros w' Hw'. by rewrite lookup_insert_ne.
  - rewrite process_word_fail by done. intros [= <- <-].
    eexists [_; _], []. simpl. rewrite app_nil_r.
    split_and!; try done; [set_solver|eauto|].
    eexists [_]. split_and!; done.
Qed.

Lemma flashcard_calls_app tr1 tr2 :
  flashcard_calls (tr1 ++ tr2) = flashcard_calls tr1 ++ flashcard_calls tr2.
Proof. apply omap_app. Qed.

Lemma drafts_written_app tr1 tr2 :
  drafts_written (tr1 ++ tr2) = drafts_written tr1 ++ drafts_written tr2.
Proof. apply omap_app. Qed.

(** The drafts written by the loop, and the item it leaves under the key:
    each draft holds [U] and the accumulator of that moment, and the last
    one written is what stays. *)
Lemma process_from_effects i ws r ok r' :
  process_from i ws r = (ok, r') →
  ∃ tr cs,
    cur_trace r' = cur_trace r ++ tr ∧
    cur_cards r' = cur_cards r ++ cs ∧
    (RemoveDraft ∉ tr) ∧
    Forall (λ d, inputWords d = U ∧
                 cur_cards r `prefix_of` generatedCards d ∧
                 generatedCards d `prefix_of` cur_cards r')
      (drafts_written tr) ∧
    cur_draft r' =
      match last (drafts_written tr) with
      | Some d => Some (Stored d)
      | None => cur_draft r
      end ∧
    length (drafts_written tr) = length (speech_calls tr) ∧
    (ok = false →
     ∃ w tr0, tr = tr0 ++ [FlashcardCall w] ∧ w ∈ ws ∧ gen w tl nl = None).
Proof.
  revert i r. induction ws as [|w ws IH]; intros i r; simpl.
  { intros [= <- <-]. exists [], []. rewrite !app_nil_r.
    split_and!; try done. set_solver. }
  destruct (process_word i w r) as [[] r1] eqn:Hstep;
    destruct (process_word_effects _ _ _ _ _ Hstep)
      as (tr1 & cs1 & Htr1 & Hcs1 & Hrm1 & Hdraft1 & Hsp1 & Hok1 & _).
  - intros Hrest.
    destruct (IH _ _ Hrest)
      as (tr2 & cs2 & Htr2 & Hcs2 & Hrm2 & HF2 & Hd2 & Hsp2 & Hfail).
    exists (tr1 ++ tr2), (cs1 ++ cs2).
    rewrite Htr2, Htr1, Hcs2, Hcs1, !app_assoc, drafts_written_app, last_app.
    unfold speech_calls. rewrite omap_app, !length_app. fold (speech_calls tr1).
    fold (speech_calls tr2). rewrite Hsp1, Hsp2.
    split_and!; try done.
    + set_solver.
    + apply Forall_app. split.
      * destruct Hdraft1 as [[-> _]|(d & -> & _ & HU & Hd)]; [done|].
        apply Forall_singleton. rewrite Hd, Hcs1. split_and!; [done|..].
        -- by apply prefix_app_r.
        -- by apply prefix_app_r.
      * rewrite Hcs2, Hcs1 in HF2. eapply Forall_impl; [exact HF2|].
        intros d (HU & Hpre & Hpost). split_and!; [done| |done].
        etrans; [|exact Hpre]. by apply prefix_app_r.
    + rewrite Hd2. destruct (last (drafts_written tr2)); [done|].
      by destruct Hdraft1 as [[-> ->]|(d & -> & -> & _)].
    + intros ->. destruct (Hfail eq_refl) as (w' & tr0 & -> & Hin & Hg).
      exists w', (tr1 ++ tr0). rewrite app_assoc. split_and!; [done|by right|done].
  - intros [= <- <-]. exists tr1, cs1. split_and!; try done.
    + destruct Hdraft1 as [[-> _]|(d & -> & _ & HU & Hd)]; [done|].
      apply Forall_singleton. rewrite Hd, Hcs1. split_and!; [done| |done].
      by apply prefix_app_r.
    + by destruct Hdraft1 as [[-> ->]|(d & -> & -> & _)].
    + intros _. destruct Hok1 as (tr0 & -> & _ & _ & Hg).
      exists w, tr0. split_and!; [done|by left|done].
Qed.

Lemma filter_to_generate_ext known1 known2 (ws : list string) :
  (∀ w, w ∈ ws → known1 !! w = known2 !! w) →
  filter (to_generate already known1) ws = filter (to_generate already known2) ws.
Proof.
  induction ws as [|w ws IH]; intros H; [done|].
  rewrite !filter_cons, IH by (intros; apply H; by right).
  assert (to_generate already known1 w ↔ to_generate already known2 w) as Hw.
  { unfold to_generate. by rewrite (H w) by by left. }
  destruct (decide (to_generate already known1 w)),
    (decide (to_generate already known2 w)); tauto.
Qed.

(** The flashcard calls of the loop over distinct lower-case words: one for
    each word to generate, in order, up to the first that fails. *)
Lemma process_from_calls i ws r ok r' :
  NoDup ws → Forall (λ w, toLowerCase w = w) ws →
  process_from i ws r = (ok, r') →
  ∃ calls,
    flashcard_calls (cur_trace r') = flashcard_calls (cur_trace r) ++ calls ∧
    calls `prefix_of` filter (to_generate already (cur_known r)) ws ∧
    (ok = true → calls = filter (to_generate already (cur_known r)) ws).
Proof.
  revert i r. induction ws as [|w ws IH]; intros i r Hnd Hlow; simpl.
  { intros [= <- <-]. exists []. by rewrite app_nil_r. }
  apply NoDup_cons in Hnd as [Hw Hnd]. apply Forall_cons in Hlow as [Hlw Hlow].
  destruct (process_word i w r) as [[] r1] eqn:Hstep;
    destruct (process_word_effects _ _ _ _ _ Hstep)
      as (tr1 & cs1 & Htr1 & _ & _ & _ & _ & Hok1 & Hnone & Hknown).
  - intros Hrest. destruct (IH _ _ Hnd Hlow Hrest) as (calls & Hc & Hpre & Hall).
    assert (filter (to_generate already (cur_known r1)) ws =
            filter (to_generate already (cur_known r)) ws) as Hsame.
    { apply filter_to_generate_ext. intros w' Hw'. apply Hknown.
      rewrite Hlw. by intros ->. }
    rewrite Hsame in Hpre, Hall.
    exists (flashcard_calls tr1 ++ calls).
    rewrite Hc, Htr1, flashcard_calls_app, app_assoc. split; [done|].
    rewrite filter_cons.
    destruct Hok1 as [Hno|(Hyes & Hgen & _)].
    + rewrite Hno. rewrite decide_False by by apply Hnone. done.
    + rewrite Hyes, decide_True by done. simpl. split.
      * by apply prefix_cons.
      * intros H. by rewrite Hall.
  - intros [= <- <-]. destruct Hok1 as (tr0 & _ & Hcalls & Hgen & _).
    exists [w]. rewrite Htr1, flashcard_calls_app, Hcalls. split; [done|].
    rewrite filter_cons, decide_True by done. split; [|done].
    apply prefix_cons, prefix_nil.
Qed.

(** An entry of the lookup stays what it is, and a word that is in the
    lookup when its turn comes is answered from it. *)
Lemma process_from_reused i ws r r' w cardData :
  Forall (λ w, toLowerCase w = w) ws →
  process_from i ws r = (true, r') →
  w ∈ ws → w ∉ already → cur_known r !! w = Some cardData →
  ∃ n, {| id := uuid n; data := cardData |} ∈ cur_cards r'.
Proof.
  revert i r. induction ws as [|w0 ws IH]; intros i r Hlow; simpl.
  { intros _ Hin. by apply elem_of_nil in Hin. }
  apply Forall_cons in Hlow as [Hlw Hlow].
  destruct (process_word i w0 r) as [[] r1] eqn:Hstep; [|done].
  intros Hrest Hin Hout Hk.
  destruct (decide (w = w0)) as [->|Hne].
  - rewrite (process_word_reuse _ _ _ cardData) in Hstep by done.
    injection Hstep as <-.
    destruct (process_from_effects _ _ _ _ _ Hrest) as (tr & cs & _ & -> & _).
    exists (cur_uuids r). simpl. set_solver.
  - apply (IH (S i) r1); try done.
    + apply elem_of_cons in Hin as [?|?]; done.
    + destruct (process_word_effects _ _ _ _ _ Hstep)
        as (tr1 & cs1 & _ & _ & _ & _ & _ & _ & _ & Hknown).
      rewrite Hknown; [done|]. by rewrite Hlw.
Qed.

(** The loop never reads the item under the draft key. *)
Lemma process_word_with_draft i w r x :
  ∃ y, process_word i w (with_draft x r) =
         ((process_word i w r).1, with_draft y (process_word i w r).2).
Proof.
  unfold Gemini.process_word. simpl.
  destruct (bool_decide (w ∈ already)); [by exists x|].
  destruct (cur_known r !! w); [by exists x|].
  destruct (gen w tl nl); [|by exists x].
  by eexists.
Qed.

Lemma process_from_with_draft i ws r x :
  ∃ y, process_from i ws (with_draft x r) =
         ((process_from i ws r).1, with_draft y (process_from i ws r).2).
Proof.
  revert i r x. induction ws as [|w ws IH]; intros i r x; simpl.
  { by exists x. }
  destruct (process_word_with_draft i w r x) as [y ->].
  destruct (process_word i w r) as [[] r1]; simpl; [|by exists y].
  apply IH.
Qed.

End Loop.

(** *** The whole run *)

Lemma NoDup_sort_normalize words : NoDup (sort (normalize words)).
Proof. rewrite sort_Permutation. apply NoDup_normalize. Qed.

Lemma lower_normalize words : Forall (λ w, toLowerCase w = w) (normalize words).
Proof. eapply Forall_impl; [apply normalize_normal|]. apply normal_lower. Qed.

Lemma lower_sort_normalize words :
  Forall (λ w, toLowerCase w = w) (sort (normalize words)).
Proof. rewrite sort_Permutation. apply lower_normalize. Qed.

(** C1 (as the code has it).  Decks are scanned before the independent
    words and the first occurrence wins: when a requested word is embedded
    in a deck, the lookup holds the data of the first card embedded under
    that word, whatever the independent words hold for it, and a run
    without draft that completes returns a card with exactly that data
    under a fresh identifier, without a flashcard call for the word. *)
Theorem reuse_yields_deck_version gen speech uuid tl nl words b w card cs r :
  draft_slot b = None →
  w ∈ normalize words →
  first_named w (allDecks b ≫= cards) = Some card →
  processAndGenerateWords gen speech uuid words tl nl b = (Some cs, r) →
  build_existingWordData (allDecks b) (allWords b) !! w = Some (data card) ∧
  (∃ n, {| id := uuid n; data := data card |} ∈ cs) ∧
  (w ∉ flashcard_calls (cur_trace r)) ∧
  (∀ w', first_named w' (allDecks b ≫= cards) = None →
         build_existingWordData (allDecks b) (allWords b) !! w'
         = data <$> first_named w' (allWords b)).
Proof.
  intros Hslot Hw Hfirst Hrun.
  assert (∀ w', first_named w' (allDecks b ≫= cards) = None →
                build_existingWordData (allDecks b) (allWords b) !! w'
                = data <$> first_named w' (allWords b)) as Hwords.
  { intros w' Hnone. by rewrite build_existingWordData_lookup, first_named_app, Hnone. }
  revert Hrun. unfold processAndGenerateWords.
  rewrite Hslot. simpl.
  assert (build_existingWordData (allDecks b) (allWords b) !! w
          = Some (data card)) as Hk.
  { by rewrite build_existingWordData_lookup, first_named_app, Hfirst. }
  destruct (process_from _ _ _ _ _ _ _ _ _ _) as [[] r'] eqn:Hloop; [|done].
  intros [= <- <-]. split_and!; [done| | |done].
  - eapply process_from_reused; [apply lower_normalize|exact Hloop|done| |done].
    set_solver.
  - destruct (process_from_calls _ _ _ _ _ _ _ _ _ _ _ _
                (NoDup_normalize words) (lower_normalize words) Hloop)
      as (calls & Hc & _ & Hall).
    simpl in *. unfold log. simpl. rewrite flashcard_calls_app, Hc, (Hall eq_refl).
    simpl. rewrite app_nil_r. intros Hin.
    apply list_elem_of_filter in Hin as [[_ Hnone] _]. congruence.
Qed.

Lemma reuse_yields_deck_version_witness :
  build_existingWordData (allDecks Samples.both_stores)
    (allWords Samples.both_stores) !! "apple"
  = Some (data (Samples.card "c1" "apple" "from the deck")) ∧
  (∃ n, {| id := Samples.uuid n;
           data := data (Samples.card "c1" "apple" "from the deck") |}
        ∈ [{| id := "uuid-0";
              data := data (Samples.card "c1" "apple" "from the deck") |};
           {| id := "uuid-1";
              data := {| content := Samples.flashcard "kiwi" "generated";
                         audioPronunciation := None; image := None |} |}]) ∧
  ("apple" ∉ flashcard_calls
     (cur_trace (processAndGenerateWords Samples.client_ok Samples.no_speech
                   Samples.uuid [" Apple"; "kiwi"] en zh Samples.both_stores).2)).
Proof.
  edestruct (reuse_yields_deck_version Samples.client_ok Samples.no_speech
               Samples.uuid en zh [" Apple"; "kiwi"] Samples.both_stores "apple"
               (Samples.card "c1" "apple" "from the deck"))
    as (Hlookup & Hcard & Hcalls & _).
  - reflexivity.
  - vm_compute. apply list_elem_of_here.
  - reflexivity.
  - vm_compute. reflexivity.
  - split_and!; [exact Hlookup|exact Hcard|exact Hcalls].
Defined.

(** C1 as stated fails: "apple" is among the independent words and embedded
    in a deck with another content; the run reuses the deck's version. *)
Lemma reuse_prefers_words_counterexample :
  (processAndGenerateWords Samples.client_down Samples.no_speech Samples.uuid
     ["apple"] en zh Samples.both_stores).1
  = Some [{| id := "uuid-0";
             data := data (Samples.card "c1" "apple" "from the deck") |}] ∧
  allWords Samples.both_stores = [Samples.card "c2" "apple" "from the words"] ∧
  data (Samples.card "c1" "apple" "from the deck")
  ≠ data (Samples.card "c2" "apple" "from the words").
Proof. split_and!; [by vm_compute|done|discriminate]. Qed.

Lemma to_generate_list completed known (ws : list string) :
  filter (to_generate (list_to_set completed) known) ws =
  filter (λ w, (w ∉ completed) ∧ (known !! w) = None) ws.
Proof.
  apply list_filter_iff. intros w. unfold to_generate.
  by rewrite elem_of_list_to_set.
Qed.

(** Resumption in terms of the comparison the code makes: the two word
    lists, sorted, are equal, that is, one is a permutation of the other. *)
Lemma resumption_by_permutation gen speech uuid tl nl words d decks indep n :
  let b := {| draft_slot := Some (Stored d); allDecks := decks;
              allWords := indep; uuids_drawn := n |} in
  let U := sort (normalize words) in
  let completed := (λ c, toLowerCase (card_word c)) <$> generatedCards d in
  let known := build_existingWordData decks indep in
  let remaining := filter (λ w, (w ∉ completed) ∧ (known !! w) = None) U in
  let run := processAndGenerateWords gen speech uuid words tl nl b in
  (inputWords d ≡ₚ normalize words →
     generatedCards d `prefix_of` cur_cards run.2 ∧
     (∀ w, w ∈ completed → w ∉ flashcard_calls (cur_trace run.2)) ∧
     flashcard_calls (cur_trace run.2) `prefix_of` remaining ∧
     (∀ cs, run.1 = Some cs →
        generatedCards d `prefix_of` cs ∧
        flashcard_calls (cur_trace run.2) = remaining)) ∧
  (¬ inputWords d ≡ₚ normalize words →
     let fresh :=
       processAndGenerateWords gen speech uuid U tl nl
         {| draft_slot := None; allDecks := decks; allWords := indep;
            uuids_drawn := n |} in
     run.1 = fresh.1 ∧ cur_trace run.2 = cur_trace fresh.2 ∧
     cur_cards run.2 = cur_cards fresh.2).
Proof.
  intros b U completed known remaining run. split.
  - intros Hperm. subst run. unfold processAndGenerateWords, load_draft. simpl.
    rewrite bool_decide_eq_true_2 by by apply sort_eq_iff.
    fold U. fold completed. fold known.
    set (r0 := {| cur_cards := generatedCards d; cur_known := known;
                  cur_draft := _; cur_uuids := n; cur_trace := _ |}).
    destruct (process_from _ _ _ _ _ _ _ _ _ _) as [ok r'] eqn:Hloop.
    destruct (process_from_effects _ _ _ _ _ _ _ _ _ _ _ _ Hloop)
      as (tr & cs & Htr & Hcs & _).
    destruct (process_from_calls _ _ _ _ _ _ _ _ _ _ _ _
                (NoDup_sort_normalize words) (lower_sort_normalize words) Hloop)
      as (calls & Hc & Hpre & Hall).
    fold U in Hpre, Hall. simpl in Hc, Hpre, Hall, Hcs.
    rewrite to_generate_list in Hpre, Hall. fold remaining in Hpre, Hall.
    assert (flashcard_calls (cur_trace (if ok then
              log RemoveDraft
                {| cur_cards := cur_cards r'; cur_known := cur_known r';
                   cur_draft := None; cur_uuids := cur_uuids r';
                   cur_trace := cur_trace r' |} else r')) = calls) as Hcalls.
    { destruct ok; simpl; [rewrite flashcard_calls_app, app_nil_r|]; by rewrite Hc. }
    assert (generatedCards d `prefix_of` cur_cards r') as Hprefix.
    { rewrite Hcs. by apply prefix_app_r. }
    destruct ok; simpl in *; rewrite Hcalls.
    + split_and!; [done| |done|].
      * intros w Hw Hin. eapply elem_of_prefix in Hin; [|exact Hpre].
        apply list_elem_of_filter in Hin as [[? _] _]. done.
      * intros ? [= <-]. split; [done|]. by apply Hall.
    + split_and!; [done| |done|done].
      intros w Hw Hin. eapply elem_of_prefix in Hin; [|exact Hpre].
      apply list_elem_of_filter in Hin as [[? _] _]. done.
  - intros Hperm fresh. subst run fresh.
    unfold processAndGenerateWords, load_draft. simpl.
    rewrite bool_decide_eq_false_2
      by (intros H; by apply Hperm, sort_eq_iff).
    fold U. subst U. rewrite normalize_sort_normalize. simpl.
    set (r0 := {| cur_cards := []; cur_known := _; cur_draft := None;
                  cur_uuids := n; cur_trace := _ |}).
    destruct (process_from_with_draft gen speech uuid tl nl
                (sort (normalize words)) (list_to_set []) 0
                (sort (normalize words)) r0 (Some (Stored d))) as [y Hy].
    unfold with_draft in Hy. simpl in Hy. rewrite Hy. clear Hy.
    destruct (process_from gen speech uuid tl nl (sort (normalize words)) ∅ 0
                (sort (normalize words)) r0) as [[] r']; simpl;
      split_and!; reflexivity.
Qed.

(** C2.  With a stored draft whose words (a duplicate-free list, as the
    run writes it) are, as a set, the normalized request, the run starts
    from the draft's cards (they stay a prefix of the accumulator and of the
    result), makes no flashcard call for the word of any of those cards, and
    calls the client, in sorted order and up to the first failure, exactly
    for the requested words that are neither completed by the draft nor in
    the lookup: all of them when the run completes.  With a stored draft for
    another set of words the run is the run without draft on the same words
    in sorted order: same outcome, same effects, same cards; no error comes
    from the draft. *)
Theorem checkpoint_resumption gen speech uuid tl nl words d decks indep n :
  let b := {| draft_slot := Some (Stored d); allDecks := decks;
              allWords := indep; uuids_drawn := n |} in
  let U := sort (normalize words) in
  let completed := (λ c, toLowerCase (card_word c)) <$> generatedCards d in
  let known := build_existingWordData decks indep in
  let remaining := filter (λ w, (w ∉ completed) ∧ (known !! w) = None) U in
  let run := processAndGenerateWords gen speech uuid words tl nl b in
  (NoDup (inputWords d) →
   (∀ w, w ∈ inputWords d ↔ w ∈ normalize words) →
     generatedCards d `prefix_of` cur_cards run.2 ∧
     (∀ w, w ∈ completed → w ∉ flashcard_calls (cur_trace run.2)) ∧
     flashcard_calls (cur_trace run.2) `prefix_of` remaining ∧
     (∀ cs, run.1 = Some cs →
        generatedCards d `prefix_of` cs ∧
        flashcard_calls (cur_trace run.2) = remaining)) ∧
  ((¬ ∀ w, w ∈ inputWords d ↔ w ∈ normalize words) →
     let fresh :=
       processAndGenerateWords gen speech uuid U tl nl
         {| draft_slot := None; allDecks := decks; allWords := indep;
            uuids_drawn := n |} in
     run.1 = fresh.1 ∧ cur_trace run.2 = cur_trace fresh.2 ∧
     cur_cards run.2 = cur_cards fresh.2).
Proof.
  intros b U completed known remaining run.
  destruct (resumption_by_permutation gen speech uuid tl nl words d decks indep n)
    as [Hsame Hother].
  split.
  - intros Hnd Hset. apply Hsame.
    apply NoDup_Permutation; [done|apply NoDup_normalize|done].
  - intros Hset. apply Hother. intros Hperm. apply Hset. intros w.
    by rewrite Hperm.
Qed.

Lemma checkpoint_resumption_witness :
  (let run := processAndGenerateWords Samples.client_ok Samples.no_speech
                Samples.uuid ["c"; "A "; "b"] en zh
                (Samples.browser_with (Some (Stored Samples.draft_abc))) in
   flashcard_calls (cur_trace run.2) = ["b"; "c"] ∧
   ("a" ∉ flashcard_calls (cur_trace run.2)) ∧
   generatedCards Samples.draft_abc `prefix_of` cur_cards run.2) ∧
  (let run := processAndGenerateWords Samples.client_ok Samples.no_speech
                Samples.uuid ["c"; "A "; "b"] en zh
                (Samples.browser_with (Some (Stored Samples.draft_ab))) in
   let fresh := processAndGenerateWords Samples.client_ok Samples.no_speech
                  Samples.uuid ["a"; "b"; "c"] en zh
                  (Samples.browser_with None) in
   run.1 = fresh.1 ∧ cur_trace run.2 = cur_trace fresh.2).
Proof.
  split.
  - destruct (checkpoint_resumption Samples.client_ok Samples.no_speech
                Samples.uuid en zh ["c"; "A "; "b"] Samples.draft_abc [] [] 0)
      as [Hsame _].
    destruct Hsame as (Hprefix & Hnot & _ & Hall).
    { apply (bool_decide_unpack _). vm_compute. exact I. }
    { assert (inputWords Samples.draft_abc ≡ₚ normalize ["c"; "A "; "b"]) as P.
      { apply sort_eq_iff. vm_compute. reflexivity. }
      intros w. by rewrite P. }
    split_and!.
    + eapply (Hall _). vm_compute. reflexivity.
    + apply Hnot. vm_compute. apply list_elem_of_here.
    + exact Hprefix.
  - destruct (checkpoint_resumption Samples.client_ok Samples.no_speech
                Samples.uuid en zh ["c"; "A "; "b"] Samples.draft_ab [] [] 0)
      as [_ Hother].
    destruct Hother as (Hres & Htrace & _).
    { intros H. destruct (H "c") as [_ Hc].
      assert ("c" ∉ inputWords Samples.draft_ab) as Hno.
      { apply (bool_decide_unpack _). vm_compute. exact I. }
      apply Hno, Hc. vm_compute. apply list_elem_of_here. }
    split; [exact Hres|exact Htrace].
Defined.

(** *** Drafts and failures *)

Lemma load_draft_cases words slot :
  ∃ adopted eff,
    load_draft words slot =
      (match slot with
       | Some (Stored _) => sort (normalize words)
       | _ => normalize words
       end,
       adopted,
       match slot with Some (Stored d) => Some (Stored d) | _ => None end,
       eff) ∧
    drafts_written eff = [] ∧ speech_calls eff = [] ∧ flashcard_calls eff = [] ∧
    (slot ≠ Some Unreadable → RemoveDraft ∉ eff) ∧
    (adopted = [] ∨ ∃ d, slot = Some (Stored d) ∧ adopted = generatedCards d ∧
                         inputWords d ≡ₚ normalize words).
Proof.
  unfold load_draft. destruct slot as [[|d]|].
  - exists [], [RemoveDraft]. split_and!; eauto.
  - case_bool_decide as Hd.
    + eexists _, [_]. split_and!; try done; [set_solver|]. right. exists d.
      split_and!; try done. by apply sort_eq_iff.
    + exists [], []. split_and!; eauto. set_solver.
  - exists [], []. split_and!; eauto. set_solver.
Qed.

(** The run from outside: what it adds to the draft's cards, the effects
    of the loop, and how it ends. *)
Lemma run_effects gen speech uuid tl nl words b :
  let run := processAndGenerateWords gen speech uuid words tl nl b in
  let U := match draft_slot b with
           | Some (Stored _) => sort (normalize words)
           | _ => normalize words
           end in
  let slot0 := match draft_slot b with
               | Some (Stored d) => Some (Stored d)
               | _ => None
               end in
  ∃ adopted eff tr cs,
    load_draft words (draft_slot b) = (U, adopted, slot0, eff) ∧
    (drafts_written eff = [] ∧ speech_calls eff = [] ∧
     (draft_slot b ≠ Some Unreadable → RemoveDraft ∉ eff)) ∧
    cur_cards run.2 = adopted ++ cs ∧
    (RemoveDraft ∉ tr) ∧
    Forall (λ d, inputWords d = U ∧ adopted `prefix_of` generatedCards d ∧
                 generatedCards d `prefix_of` cur_cards run.2)
      (drafts_written tr) ∧
    length (drafts_written tr) = length (speech_calls tr) ∧
    match run.1 with
    | Some res =>
        res = cur_cards run.2 ∧
        cur_trace run.2 =
          eff ++ [OnProgress LoadingLocalData] ++ tr ++ [RemoveDraft] ∧
        cur_draft run.2 = None
    | None =>
        cur_trace run.2 = eff ++ [OnProgress LoadingLocalData] ++ tr ∧
        cur_draft run.2 =
          match last (drafts_written tr) with
          | Some d => Some (Stored d)
          | None => slot0
          end ∧
        ∃ w tr0, tr = tr0 ++ [FlashcardCall w] ∧ w ∈ U ∧ gen w tl nl = None
    end.
Proof.
  intros run U slot0. subst run.
  destruct (load_draft_cases words (draft_slot b))
    as (adopted & eff & Hload & He1 & He2 & _ & He3 & _).
  fold U slot0 in Hload. exists adopted, eff.
  unfold processAndGenerateWords. rewrite Hload.
  destruct (process_from _ _ _ _ _ _ _ _ _ _) as [ok r'] eqn:Hloop.
  destruct (process_from_effects _ _ _ _ _ _ _ _ _ _ _ _ Hloop)
    as (tr & cs & Htr & Hcs & Hrm & HF & Hdraft & Hlen & Hfail).
  simpl in Htr, Hcs, HF, Hdraft. exists tr, cs.
  destruct ok; simpl.
  - split_and!; try done. unfold log. simpl. by rewrite Htr, <-!app_assoc.
  - split_and!; try done; [by rewrite Htr, <-!app_assoc|by apply Hfail].
Qed.

Lemma written_in_run eff tr (last_effects : list event) :
  drafts_written eff = [] → drafts_written last_effects = [] →
  drafts_written (eff ++ [OnProgress LoadingLocalData] ++ tr ++ last_effects)
  = drafts_written tr.
Proof.
  intros He Hl. rewrite !drafts_written_app, He, Hl. simpl. by rewrite app_nil_r.
Qed.

Lemma spoken_in_run eff tr (last_effects : list event) :
  speech_calls eff = [] → speech_calls last_effects = [] →
  speech_calls (eff ++ [OnProgress LoadingLocalData] ++ tr ++ last_effects)
  = speech_calls tr.
Proof.
  intros He Hl. unfold speech_calls in *. rewrite !omap_app, He, Hl. simpl.
  by rewrite app_nil_r.
Qed.

Lemma written_before_failure eff tr :
  drafts_written eff = [] →
  drafts_written (eff ++ [OnProgress LoadingLocalData] ++ tr) = drafts_written tr.
Proof. intros He. by rewrite !drafts_written_app, He. Qed.

Lemma spoken_before_failure eff tr :
  speech_calls eff = [] →
  speech_calls (eff ++ [OnProgress LoadingLocalData] ++ tr) = speech_calls tr.
Proof. intros He. unfold speech_calls in *. by rewrite !omap_app, He. Qed.

(** C3 (as the code has it).  A draft is written for a freshly generated
    word and for no other: a skipped word changes nothing but the progress
    report, a word found in the lookup is appended to the accumulator
    under a fresh identifier with the item under the draft key left as it
    is, and a generated word is appended and the draft (requested words,
    accumulator) stored.  So the drafts written by a run are as many as its
    speech calls, each holds the requested words of the run and a prefix of
    its final accumulator. *)
Theorem draft_written_on_generation_only gen speech uuid tl nl words b :
  let run := processAndGenerateWords gen speech uuid words tl nl b in
  let U := match draft_slot b with
           | Some (Stored _) => sort (normalize words)
           | _ => normalize words
           end in
  Forall (λ d, inputWords d = U ∧ generatedCards d `prefix_of` cur_cards run.2)
    (drafts_written (cur_trace run.2)) ∧
  length (drafts_written (cur_trace run.2))
  = length (speech_calls (cur_trace run.2)) ∧
  (∀ already i w r,
     w ∈ already →
     process_word gen speech uuid tl nl U already i w r
     = (true, log (OnProgress (Skipped w (i + 1) (length U))) r)) ∧
  (∀ already i w r cardData,
     w ∉ already → cur_known r !! w = Some cardData →
     process_word gen speech uuid tl nl U already i w r
     = (true,
        {| cur_cards :=
             cur_cards r ++ [{| id := uuid (cur_uuids r); data := cardData |}];
           cur_known := cur_known r; cur_draft := cur_draft r;
           cur_uuids := S (cur_uuids r);
           cur_trace :=
             cur_trace r ++ [OnProgress (FoundLocally w (i + 1) (length U))] |})) ∧
  (∀ already i w r fd,
     w ∉ already → cur_known r !! w = None → gen w tl nl = Some fd →
     let newCard :=
       {| id := uuid (cur_uuids r);
          data := {| content := fd; audioPronunciation := speech w tl;
                     image := None |} |} in
     let draft := {| inputWords := U;
                     generatedCards := cur_cards r ++ [newCard] |} in
     process_word gen speech uuid tl nl U already i w r
     = (true,
        {| cur_cards := cur_cards r ++ [newCard];
           cur_known := <[toLowerCase w := data newCard]> (cur_known r);
           cur_draft := Some (Stored draft);
           cur_uuids := S (cur_uuids r);
           cur_trace :=
             cur_trace r ++
             [OnProgress (GeneratingData w (i + 1) (length U)); FlashcardCall w;
              OnProgress (GeneratingSpeech w (i + 1) (length U)); SpeechCall w;
              SetDraft draft] |})).
Proof.
  intros run U.
  destruct (run_effects gen speech uuid tl nl words b)
    as (adopted & eff & tr & cs & _ & (He1 & He2 & _) & Hcs & _ & HF & Hlen & Hend).
  fold run U in Hcs, HF, Hend.
  assert (drafts_written (cur_trace run.2) = drafts_written tr ∧
          speech_calls (cur_trace run.2) = speech_calls tr) as [-> ->].
  { destruct run.1.
    - destruct Hend as (_ & -> & _).
      by rewrite written_in_run, spoken_in_run.
    - destruct Hend as (-> & _).
      by rewrite written_before_failure, spoken_before_failure. }
  split_and!.
  - eapply Forall_impl; [exact HF|]. by intros d (? & _ & ?).
  - done.
  - intros. by apply process_word_skip.
  - intros. by apply process_word_reuse.
  - intros. by apply process_word_generate.
Qed.

(** C3 as stated fails: "apple" is completed from the lookup, then the
    flashcard call for "pear" is pending and fails; no draft was ever
    written, and the key holds nothing. *)
Lemma reuse_writes_no_draft_counterexample :
  let run := processAndGenerateWords Samples.client_no_pear Samples.no_speech
               Samples.uuid ["apple"; "pear"] en zh Samples.both_stores in
  run.1 = None ∧
  cur_cards run.2
  = [{| id := "uuid-0";
        data := data (Samples.card "c1" "apple" "from the deck") |}] ∧
  cur_trace run.2
  = [OnProgress LoadingLocalData; OnProgress (FoundLocally "apple" 1 2);
     OnProgress (GeneratingData "pear" 2 2); FlashcardCall "pear"] ∧
  cur_draft run.2 = None.
Proof. by vm_compute. Qed.







End GeminiFacts.


(** ** Reading the store back *)

Module StoreReads.
Import Storage Vocabulary StorageFacts.

Lemma mapM_fix (migrate : value → option value) l l' :
  (∀ x r, migrate x = Some r → migrate r = Some r) →
  mapM migrate l = Some l' → mapM migrate l' = Some l'.
Proof.
  intros Hfix. rewrite !mapM_Some.
  induction 1 as [|x y l l' Hxy _ IH]; constructor; eauto.
Qed.

Lemma read_back (migrate : value → option value) (stored : option item) :
  (∀ x r, migrate x = Some r → migrate r = Some r) →
  let read (it : option item) :=
    match it with
    | Some (Doc (VArr l)) => default [] (mapM migrate l)
    | _ => []
    end in
  read (Some (Doc (VArr (read stored)))) = read stored.
Proof.
  intros Hfix read. subst read. simpl.
  destruct stored as [[|[]]|]; try done.
  destruct (mapM migrate elems) as [l'|] eqn:E; [|done].
  simpl. by rewrite (mapM_fix _ _ _ Hfix E).
Qed.

(** X1.  What a getter returns can be saved and read again without
    change, whatever else the store holds; and saving one collection leaves
    what the getters of the other two return as it was. *)
Theorem reads_survive_write_back ls ls' :
  getDecks (saveDecks (getDecks ls) ls') = getDecks ls ∧
  getWords (saveWords (getWords ls) ls') = getWords ls ∧
  getStories (saveStories (getStories ls) ls') = getStories ls ∧
  (∀ ds, getWords (saveDecks ds ls) = getWords ls ∧
         getStories (saveDecks ds ls) = getStories ls) ∧
  (∀ ws, getDecks (saveWords ws ls) = getDecks ls ∧
         getStories (saveWords ws ls) = getStories ls) ∧
  (∀ ss, getDecks (saveStories ss ls) = getDecks ls ∧
         getWords (saveStories ss ls) = getWords ls).
Proof.
  unfold getDecks, getWords, getStories, saveDecks, saveWords, saveStories.
  split_and!.
  - rewrite lookup_insert_eq. apply (read_back migrateDeck), migrateDeck_fix.
  - rewrite lookup_insert_eq. apply (read_back migrateWordCard), migrateWordCard_fix.
  - rewrite lookup_insert_eq. apply (read_back migrateStory), migrateStory_fix.
  - intros ds. by rewrite !lookup_insert_ne.
  - intros ws. by rewrite !lookup_insert_ne.
  - intros ss. by rewrite !lookup_insert_ne.
Qed.

Lemma migrateWordCard_None x : migrateWordCard x = None ↔ x = VNull.
Proof. split; [|by intros ->]. by destruct x. Qed.

Lemma migrateStory_None x : migrateStory x = None ↔ x = VNull.
Proof. split; [|by intros ->]. by destruct x. Qed.

Lemma mapM_migrateWordCard_None cs :
  mapM migrateWordCard cs = None ↔ VNull ∈ cs.
Proof.
  rewrite mapM_None, Exists_exists. split.
  - intros (x & Hx & Hnone). by apply migrateWordCard_None in Hnone as ->.
  - intros Hin. exists VNull. by split.
Qed.

Lemma migrateDeck_None d : migrateDeck d = None ↔ unreadable_deck d.
Proof.
  unfold unreadable_deck. destruct d as [|b|n|s|l|o].
  - split; [by left|done].
  - split; [done|]. by intros [?|(cs & ? & _)].
  - split; [done|]. by intros [?|(cs & ? & _)].
  - split; [done|]. by intros [?|(cs & ? & _)].
  - split; [done|]. by intros [?|(cs & ? & _)].
  - unfold migrateDeck. simpl.
    destruct (obj_lookup "cards" o) as [c|] eqn:E; simpl.
    + destruct c as [| | | |cs|]; simpl;
        try (split; [done|intros [?|(cs' & [=] & _)]; done]).
      destruct (mapM migrateWordCard cs) as [l|] eqn:Em; simpl.
      * split; [done|]. intros [?|(cs' & [= <-] & Hin)]; [done|].
        apply mapM_migrateWordCard_None in Hin. congruence.
      * split; [|done]. intros _. right. exists cs. split; [done|].
        by apply mapM_migrateWordCard_None.
    + split; [done|]. by intros [?|(cs' & [=] & _)].
Qed.

Lemma read_all_or_nothing (migrate : value → option value) raw :
  ((∃ x, x ∈ raw ∧ migrate x = None) → default [] (mapM migrate raw) = []) ∧
  ((∀ x, x ∈ raw → migrate x ≠ None) →
   Forall2 (λ x r, migrate x = Some r) raw (default [] (mapM migrate raw))).
Proof.
  split.
  - intros (x & Hin & Hnone).
    assert (mapM migrate raw = None) as ->; [|done].
    apply mapM_None, Exists_exists. eauto.
  - intros Hall. destruct (mapM migrate raw) as [l|] eqn:E.
    + by apply mapM_Some.
    + apply mapM_None, Exists_exists in E as (x & Hin & Hnone).
      by destruct (Hall x Hin).
Qed.

(** X2.  A getter is all or nothing: one stored record on which the
    migration throws ([null] among the words or the stories; for the decks,
    [null] or a deck with a [null] in its [cards]) makes the getter return
    the empty collection, and without such a record it returns the
    migration of every stored record, in order. *)
Theorem one_bad_record_empties_the_read ls :
  (∀ raw, ls !! WORDS_KEY = Some (Doc (VArr raw)) →
     (VNull ∈ raw → getWords ls = []) ∧
     (VNull ∉ raw →
      Forall2 (λ x r, migrateWordCard x = Some r) raw (getWords ls))) ∧
  (∀ raw, ls !! STORIES_KEY = Some (Doc (VArr raw)) →
     (VNull ∈ raw → getStories ls = []) ∧
     (VNull ∉ raw →
      Forall2 (λ x r, migrateStory x = Some r) raw (getStories ls))) ∧
  (∀ raw, ls !! DECKS_KEY = Some (Doc (VArr raw)) →
     ((∃ d, d ∈ raw ∧ unreadable_deck d) → getDecks ls = []) ∧
     ((∀ d, d ∈ raw → ¬ unreadable_deck d) →
      Forall2 (λ x r, migrateDeck x = Some r) raw (getDecks ls))).
Proof.
  unfold getWords, getStories, getDecks. split_and!; intros raw ->.
  - destruct (read_all_or_nothing migrateWordCard raw) as [Hbad Hgood]. split.
    + intros Hin. apply Hbad. exists VNull. by split.
    + intros Hnot. apply Hgood. intros x Hx Hnone.
      apply migrateWordCard_None in Hnone as ->. done.
  - destruct (read_all_or_nothing migrateStory raw) as [Hbad Hgood]. split.
    + intros Hin. apply Hbad. exists VNull. by split.
    + intros Hnot. apply Hgood. intros x Hx Hnone.
      apply migrateStory_None in Hnone as ->. done.
  - destruct (read_all_or_nothing migrateDeck raw) as [Hbad Hgood]. split.
    + intros (d & Hin & Hd). apply Hbad. exists d. split; [done|].
      by apply migrateDeck_None.
    + intros Hnot. apply Hgood. intros x Hx Hnone.
      apply migrateDeck_None in Hnone. by apply (Hnot x).
Qed.

(** Two good decks and one whose [cards] holds a [null]: nothing is read. *)
Example one_bad_deck :
  getDecks (saveDecks [VObj [("id", VStr "d1"); ("cards", VArr [])];
                       VObj [("id", VStr "d2"); ("cards", VArr [VNull])];
                       VObj [("id", VStr "d3"); ("cards", VArr [])]] ∅) = [].
Proof. reflexivity. Qed.

End StoreReads.

(** ** More on the batch generator *)

Module GeneratorMore.
Import Gemini Vocabulary WordFacts GeminiFacts.


Section Steps.

Variable gen : string → ContentLanguage → ContentLanguage → option FlashcardData.
Variable speech : string → ContentLanguage → option string.
Variable uuid : nat → string.
Variables tl nl : ContentLanguage.
Variable U : list string.
Variable already : gset string.

Abbreviation step := (process_word gen speech uuid tl nl U already).
Abbreviation steps := (process_from gen speech uuid tl nl U already).

(** What one round adds: its effects [tr] and cards [cs], by path. *)
Lemma process_word_cases i w r ok r' :
  step i w r = (ok, r') →
  ∃ tr cs,
    cur_trace r' = cur_trace r ++ tr ∧ cur_cards r' = cur_cards r ++ cs ∧
    cur_uuids r' = cur_uuids r + length cs ∧
    ((w ∈ already ∧ ok = true ∧ cs = [] ∧
      flashcard_calls tr = [] ∧ speech_calls tr = [] ∧ drafts_written tr = []) ∨
     ((w ∉ already) ∧ ok = true ∧
      (∃ cd, cur_known r !! w = Some cd ∧
             cs = [{| id := uuid (cur_uuids r); data := cd |}]) ∧
      flashcard_calls tr = [] ∧ speech_calls tr = [] ∧ drafts_written tr = []) ∨
     ((w ∉ already) ∧ ok = true ∧ cur_known r !! w = None ∧
      (∃ fd, gen w tl nl = Some fd ∧
             cs = [{| id := uuid (cur_uuids r);
                      data := {| content := fd;
                                 audioPronunciation := speech w tl;
                                 image := None |} |}]) ∧
      flashcard_calls tr = [w] ∧ speech_calls tr = [w] ∧
      drafts_written tr = [{| inputWords := U; generatedCards := cur_cards r' |}]) ∨
     ((w ∉ already) ∧ ok = false ∧ cur_known r !! w = None ∧
      gen w tl nl = None ∧ cs = [] ∧
      flashcard_calls tr = [w] ∧ speech_calls tr = [] ∧ drafts_written tr = [])).
Proof.
  destruct (decide (w ∈ already)) as [Hin|Hout].
  { rewrite process_word_skip by done. intros [= <- <-].
    eexists [_], []. simpl. rewrite app_nil_r, Nat.add_0_r.
    split_and!; [done..|]. left. by split_and!. }
  destruct (cur_known r !! w) as [cd|] eqn:Hk.
  { rewrite (process_word_reuse _ _ _ _ _ _ _ _ _ _ cd) by done. intros [= <- <-].
    eexists [_], [_]. simpl. split_and!; [done|done|lia|].
    right; left. split_and!; eauto. }
  destruct (gen w tl nl) as [fd|] eqn:Hg.
  - rewrite (process_word_generate _ _ _ _ _ _ _ _ _ _ fd) by done.
    intros [= <- <-]. eexists [_; _; _; _; _], [_]. simpl.
    split_and!; [done|done|lia|]. right; right; left. split_and!; eauto.
  - rewrite process_word_fail by done. intros [= <- <-].
    eexists [_; _], []. simpl. rewrite app_nil_r, Nat.add_0_r.
    split_and!; [done..|]. right; right; right. by split_and!.
Qed.

Lemma speech_calls_app tr1 tr2 :
  speech_calls (tr1 ++ tr2) = speech_calls tr1 ++ speech_calls tr2.
Proof. apply omap_app. Qed.

(** The ledger of the loop: identifiers are drawn one per card added, in
    order; speech is asked for exactly the words whose flashcard call
    succeeded; and every such word has its card in the last draft written. *)
Lemma process_from_ledger i ws r ok r' :
  steps i ws r = (ok, r') →
  ∃ tr cs,
    cur_trace r' = cur_trace r ++ tr ∧ cur_cards r' = cur_cards r ++ cs ∧
    cur_uuids r' = cur_uuids r + length cs ∧
    id <$> cs = uuid <$> seq (cur_uuids r) (length cs) ∧
    speech_calls tr =
      filter (λ w, is_Some (gen w tl nl)) (flashcard_calls tr) ∧
    (ok = true →
     speech_calls tr = flashcard_calls tr ∧
     length cs = length (filter (λ w, w ∉ already) ws)) ∧
    (∀ w, w ∈ speech_calls tr →
          ∃ fd c d, gen w tl nl = Some fd ∧
                    last (drafts_written tr) = Some d ∧
                    c ∈ generatedCards d ∧ content (data c) = fd ∧
                    audioPronunciation (data c) = speech w tl).
Proof.
  revert i r. induction ws as [|w ws IH]; intros i r; simpl.
  { intros [= <- <-]. exists [], []. simpl. rewrite !app_nil_r, Nat.add_0_r.
    split_and!; try done. intros w Hw. by apply elem_of_nil in Hw. }
  destruct (step i w r) as [ok1 r1] eqn:Hstep.
  destruct (process_word_cases _ _ _ _ _ Hstep)
    as (tr1 & cs1 & Htr1 & Hcs1 & Hid1 & Hcase).
  assert (id <$> cs1 = uuid <$> seq (cur_uuids r) (length cs1)) as Hids1.
  { destruct Hcase as [(_&_&->&_)|[(_&_&(cd&_&->)&_)|[(_&_&_&(fd&_&->)&_)|
      (_&_&_&_&->&_)]]]; done. }
  assert (speech_calls tr1 =
          filter (λ w, is_Some (gen w tl nl)) (flashcard_calls tr1)) as Hsp1.
  { destruct Hcase as [(_&_&_&->&->&_)|[(_&_&_&->&->&_)|
      [(_&_&_&(fd&Hg&_)&->&->&_)|(_&_&_&Hg&_&->&->&_)]]]; try done.
    - rewrite filter_cons_True, filter_nil; [done|by rewrite Hg].
    - rewrite filter_cons_False, filter_nil; [done|].
      rewrite Hg. by intros [? ?]. }
  destruct ok1.
  - intros Hrest.
    destruct (IH _ _ Hrest) as (tr2 & cs2 & Htr2 & Hcs2 & Hid2 & Hids2 & Hsp2
                                & Hok2 & Hgen2).
    destruct (process_from_effects _ _ _ _ _ _ _ _ _ _ _ _ Hrest)
      as (tr2' & cs2' & Htr2' & _ & _ & HF & _).
    assert (tr2' = tr2) as -> by (rewrite Htr2 in Htr2'; by simplify_list_eq).
    exists (tr1 ++ tr2), (cs1 ++ cs2). rewrite Hid1 in Hids2.
    rewrite Htr2, Htr1, Hcs2, Hcs1, !app_assoc, Hid2, Hid1, length_app,
      speech_calls_app, flashcard_calls_app, drafts_written_app, filter_app,
      fmap_app, seq_app, fmap_app, <-Hids1, <-Hids2, <-Hsp1, <-Hsp2, last_app.
    split_and!; try done; [lia| |].
    + intros ->. destruct (Hok2 eq_refl) as [-> ->]. split.
      * f_equal. destruct Hcase as [(_&_&_&->&->&_)|[(_&_&_&->&->&_)|
          [(_&_&_&_&->&->&_)|(_&?&_)]]]; done.
      * destruct Hcase as [(Hin&_&->&_)|[(Hout&_&(cd&_&->)&_)|
          [(Hout&_&_&(fd&_&->)&_)|(_&?&_)]]]; try done.
        -- by rewrite filter_cons_False by (intros H; by apply H).
        -- by rewrite filter_cons_True.
        -- by rewrite filter_cons_True.
    + intros w' Hw'. apply elem_of_app in Hw' as [Hw'|Hw'].
      * destruct Hcase as [(_&_&_&_&Hs&_)|[(_&_&_&_&Hs&_)|
          [(_&_&_&(fd&Hg&Hc)&_&Hs&Hd)|(_&_&_&_&_&_&Hs&_)]]];
          rewrite Hs in Hw'; try by apply elem_of_nil in Hw'.
        apply list_elem_of_singleton in Hw' as ->.
        set (c := {| id := uuid (cur_uuids r); data := _ |}) in Hc.
        destruct (last (drafts_written tr2)) as [d|] eqn:Hlast.
        -- exists fd, c, d. split_and!; try done.
           apply last_Some in Hlast as [ds Hds]. rewrite Hds in HF.
           rewrite Forall_app, Forall_singleton in HF.
           destruct HF as (_ & _ & Hpre & _). eapply elem_of_prefix; [|exact Hpre].
           rewrite Hcs1, Hc. apply elem_of_app. right. by left.
        -- rewrite Hd. simpl. eexists fd, c, _. split_and!; try done. simpl.
           rewrite Hcs1, Hc. apply elem_of_app. right. by left.
      * destruct (Hgen2 _ Hw') as (fd & c & d & Hg & Hlast & Hin & Hc & Ha).
        rewrite Hlast. by exists fd, c, d.
  - intros [= <- <-]. exists tr1, cs1.
    destruct Hcase as [(_&?&_)|[(_&?&_)|[(_&?&_)|(_&_&_&_&->&_&Hs&_)]]];
      try done.
    split_and!; try done. rewrite Hs. intros w' Hw'. by apply elem_of_nil in Hw'.
Qed.

End Steps.

(** The ledger of a whole run. *)
Lemma run_ledger gen speech uuid tl nl words b :
  let run := processAndGenerateWords gen speech uuid words tl nl b in
  let known := build_existingWordData (allDecks b) (allWords b) in
  ∃ U adopted slot0 eff tr cs,
    load_draft words (draft_slot b) = (U, adopted, slot0, eff) ∧
    (U = normalize words ∨ U = sort (normalize words)) ∧
    flashcard_calls (cur_trace run.2) = flashcard_calls tr ∧
    speech_calls (cur_trace run.2) = speech_calls tr ∧
    drafts_written (cur_trace run.2) = drafts_written tr ∧
    Forall (λ d, inputWords d = U) (drafts_written tr) ∧
    cur_cards run.2 = adopted ++ cs ∧
    cur_uuids run.2 = uuids_drawn b + length cs ∧
    id <$> cs = uuid <$> seq (uuids_drawn b) (length cs) ∧
    speech_calls tr =
      filter (λ w, is_Some (gen w tl nl)) (flashcard_calls tr) ∧
    flashcard_calls tr `prefix_of`
      filter (to_generate
                (list_to_set ((λ c, toLowerCase (card_word c)) <$> adopted))
                known) U ∧
    (∀ res, run.1 = Some res →
       res = adopted ++ cs ∧ speech_calls tr = flashcard_calls tr ∧
       length cs =
         length (filter (λ w, w ∉ (λ c, toLowerCase (card_word c)) <$> adopted)
                   U)) ∧
    (run.1 = None →
       cur_draft run.2 =
         match last (drafts_written tr) with
         | Some d => Some (Stored d)
         | None => slot0
         end ∧
       ∃ w tr0, tr = tr0 ++ [FlashcardCall w] ∧ gen w tl nl = None) ∧
    (∀ w, w ∈ speech_calls tr →
          ∃ fd c d, gen w tl nl = Some fd ∧
                    last (drafts_written tr) = Some d ∧
                    c ∈ generatedCards d ∧ content (data c) = fd ∧
                    audioPronunciation (data c) = speech w tl).
Proof.
  intros run known. subst run.
  destruct (load_draft_cases words (draft_slot b))
    as (adopted & eff & Hload & He1 & He2 & He3 & _ & _).
  set (U := match draft_slot b with
            | Some (Stored _) => sort (normalize words)
            | _ => normalize words
            end) in *.
  set (slot0 := match draft_slot b with
                | Some (Stored d) => Some (Stored d)
                | _ => None
                end) in *.
  assert (NoDup U ∧ Forall (λ w, toLowerCase w = w) U) as [Hnd Hlow].
  { subst U. destruct (draft_slot b) as [[|?]|];
      auto using NoDup_normalize, lower_normalize, NoDup_sort_normalize,
        lower_sort_normalize. }
  exists U, adopted, slot0, eff.
  unfold processAndGenerateWords. rewrite Hload.
  destruct (process_from _ _ _ _ _ _ _ _ _ _) as [ok r'] eqn:Hloop.
  destruct (process_from_ledger _ _ _ _ _ _ _ _ _ _ _ _ Hloop)
    as (tr & cs & Htr & Hcs & Hid & Hids & Hsp & Hok & Hgen).
  destruct (process_from_effects _ _ _ _ _ _ _ _ _ _ _ _ Hloop)
    as (tr' & cs' & Htr' & _ & _ & HF & Hdraft & _ & Hfail).
  assert (tr' = tr) as -> by (rewrite Htr in Htr'; by simplify_list_eq).
  destruct (process_from_calls _ _ _ _ _ _ _ _ _ _ _ _ Hnd Hlow Hloop)
    as (calls & Hc & Hpre & _).
  simpl in Htr, Hcs, Hid, Hids, Hdraft, Hc, Hpre.
  rewrite Htr, !flashcard_calls_app, He3 in Hc. simpl in Hc.
  subst calls.
  exists tr, cs. split_and!; try done.
  - subst U. destruct (draft_slot b) as [[|?]|]; auto.
  - destruct ok; simpl; unfold log; simpl;
      rewrite Htr, !flashcard_calls_app, He3; simpl; by rewrite ?app_nil_r.
  - destruct ok; simpl; unfold log; simpl;
      rewrite Htr, !speech_calls_app, He2; simpl; by rewrite ?app_nil_r.
  - destruct ok; simpl; unfold log; simpl;
      rewrite Htr, !drafts_written_app, He1; simpl; by rewrite ?app_nil_r.
  - eapply Forall_impl; [exact HF|]. by intros d (? & _).
  - by destruct ok.
  - by destruct ok.
  - destruct ok; simpl; [|done]. intros res [= <-].
    destruct (Hok eq_refl) as [Hall Hlen]. split_and!; [done|done|].
    rewrite Hlen. f_equal. apply list_filter_iff. intros w.
    by rewrite elem_of_list_to_set.
  - destruct ok; simpl; [done|]. intros _. split; [done|].
    destruct (Hfail eq_refl) as (w & tr0 & -> & _ & Hg). eauto.
Qed.


(** X5.  The cards a run adds to the adopted ones carry the identifiers
    drawn from [uuidv4], one per card and in the order drawn; when
    [uuidv4] never repeats they are pairwise different.  A completed run
    returns the adopted cards followed by one card for each word of the
    normalized request that no adopted card is filed under, so that without
    a draft it returns as many cards as the request has distinct words. *)
Theorem cards_and_identifiers gen speech uuid tl nl words b :
  let run := processAndGenerateWords gen speech uuid words tl nl b in
  let adopted := (load_draft words (draft_slot b)).1.1.2 in
  let completed := (λ c, toLowerCase (card_word c)) <$> adopted in
  ∃ cs,
    cur_cards run.2 = adopted ++ cs ∧
    cur_uuids run.2 = uuids_drawn b + length cs ∧
    id <$> cs = uuid <$> seq (uuids_drawn b) (length cs) ∧
    ((∀ m n, uuid m = uuid n → m = n) → NoDup (id <$> cs)) ∧
    (∀ res, run.1 = Some res →
       res = adopted ++ cs ∧
       length cs = length (filter (λ w, w ∉ completed) (normalize words)) ∧
       (draft_slot b = None → length res = length (normalize words))).
Proof.
  intros run adopted completed.
  destruct (run_ledger gen speech uuid tl nl words b)
    as (U & adopted' & slot0 & eff & tr & cs & Hload & HU & _ & _ & _ & _
        & Hcs & Hid & Hids & _ & _ & Hdone & _).
  fold run in Hcs, Hid, Hdone.
  assert (adopted' = adopted) as -> by (subst adopted; by rewrite Hload).
  fold completed in Hdone. exists cs. split_and!; try done.
  - intros Hinj. rewrite Hids. apply NoDup_fmap_2; [exact Hinj|apply NoDup_seq].
  - intros res Hres. destruct (Hdone res Hres) as (-> & _ & Hlen).
    assert (U ≡ₚ normalize words) as HP.
    { destruct HU as [->| ->]; [done|apply sort_Permutation]. }
    rewrite HP in Hlen. split_and!; [done|done|].
    intros Hslot. rewrite length_app, Hlen. subst completed adopted.
    unfold load_draft. rewrite Hslot. simpl.
    assert (∀ l : list string, filter (λ w, w ∉ @nil string) l = l) as Hall.
    { intros l. induction l as [|w ws IH]; [done|].
      rewrite filter_cons_True by apply not_elem_of_nil. by f_equal. }
    by rewrite Hall.
Qed.

(** X6.  Resuming after a failure generates nothing twice.  When the
    client answers a call with data for the word asked, a run is rejected,
    and the same request is started again on the draft that run left (with
    whatever decks and words are then stored, and any client), no word
    whose speech the first run requested gets a flashcard call in the
    second, and the cards of the draft open the second run's cards. *)
Theorem resume_skips_generated gen1 speech1 uuid1 gen2 speech2 uuid2
    tl nl words b1 b2 :
  let run1 := processAndGenerateWords gen1 speech1 uuid1 words tl nl b1 in
  let run2 := processAndGenerateWords gen2 speech2 uuid2 words tl nl b2 in
  (∀ w fd, w ∈ normalize words → gen1 w tl nl = Some fd →
           toLowerCase (word fd) = w) →
  run1.1 = None →
  draft_slot b2 = cur_draft run1.2 →
  (∀ w, w ∈ speech_calls (cur_trace run1.2) →
        w ∉ flashcard_calls (cur_trace run2.2)) ∧
  (∀ d, last (drafts_written (cur_trace run1.2)) = Some d →
        generatedCards d `prefix_of` cur_cards run2.2).
Proof.
  intros run1 run2 Hecho Hnone Hslot.
  destruct (run_ledger gen1 speech1 uuid1 tl nl words b1)
    as (U & adopted & slot0 & eff & tr & cs & _ & HU & _ & Hsc & Hdw & HF & _
        & _ & _ & Hsp & Hpre & _ & Hfail & Hgen).
  fold run1 in Hsc, Hdw, Hfail. destruct (Hfail Hnone) as (Hdraft & _).
  rewrite Hsc, Hdw.
  assert (∀ d, last (drafts_written tr) = Some d →
            generatedCards d `prefix_of` cur_cards run2.2 ∧
            ∀ w, w ∈ (λ c, toLowerCase (card_word c)) <$> generatedCards d →
                 w ∉ flashcard_calls (cur_trace run2.2)) as Hresume.
  { intros d Hd. rewrite Hd in Hdraft. rewrite Hdraft in Hslot.
    assert (inputWords d ≡ₚ normalize words) as Hperm.
    { apply last_Some_elem_of in Hd. rewrite Forall_forall in HF.
      rewrite (HF d Hd). destruct HU as [->| ->]; [done|apply sort_Permutation]. }
    subst run2. destruct b2 as [slot2 decks2 words2 n2]. simpl in Hslot.
    subst slot2.
    destruct (resumption_by_permutation gen2 speech2 uuid2 tl nl words d
                decks2 words2 n2) as [Hyes _].
    destruct (Hyes Hperm) as (Hpre2 & Hnot & _). done. }
  split.
  - intros w Hw. destruct (Hgen w Hw) as (fd & c & d & Hg & Hd & Hc & Hfd & _).
    destruct (Hresume d Hd) as [_ Hnot]. apply Hnot.
    apply list_elem_of_fmap. exists c. split; [|done].
    unfold card_word. rewrite Hfd. symmetry. apply Hecho; [|done].
    rewrite Hsp in Hw. apply list_elem_of_filter in Hw as [_ Hw].
    eapply elem_of_prefix in Hw; [|exact Hpre].
    apply list_elem_of_filter in Hw as [_ Hw].
    destruct HU as [->| ->]; [done|by rewrite sort_Permutation in Hw].
  - intros d Hd. by destruct (Hresume d Hd).
Qed.

Lemma resume_skips_generated_witness :
  let run1 := processAndGenerateWords Samples.client_no_pear Samples.no_speech
                Samples.uuid ["kiwi"; "pear"] en zh (Samples.browser_with None) in
  let run2 := processAndGenerateWords Samples.client_ok Samples.no_speech
                Samples.uuid ["kiwi"; "pear"] en zh
                (Samples.browser_with (cur_draft run1.2)) in
  speech_calls (cur_trace run1.2) = ["kiwi"] ∧
  flashcard_calls (cur_trace run2.2) = ["pear"] ∧
  ("kiwi" ∉ flashcard_calls (cur_trace run2.2)).
Proof.
  intros run1 run2. split_and!; [reflexivity..|].
  refine (proj1 (resume_skips_generated Samples.client_no_pear Samples.no_speech
            Samples.uuid Samples.client_ok Samples.no_speech Samples.uuid en zh
            ["kiwi"; "pear"] (Samples.browser_with None)
            (Samples.browser_with (cur_draft run1.2)) _ eq_refl eq_refl)
          "kiwi" _).
  - intros w fd Hw. vm_compute in Hw.
    apply elem_of_cons in Hw as [->|Hw]; [by intros [= <-]|].
    apply elem_of_cons in Hw as [->|Hw]; [done|]. by apply elem_of_nil in Hw.
  - vm_compute. left.
Defined.


Section Speech.

Variable gen : string → ContentLanguage → ContentLanguage → option FlashcardData.
Variables speech1 speech2 : string → ContentLanguage → option string.
Variable uuid : nat → string.
Variables tl nl : ContentLanguage.
Variable U : list string.
Variable already : gset string.

Lemma mute_run_eq r1 r2 :
  mute_run r1 = mute_run r2 ↔
  mute_card <$> cur_cards r1 = mute_card <$> cur_cards r2 ∧
  mute_data <$> cur_known r1 = mute_data <$> cur_known r2 ∧
  mute_item <$> cur_draft r1 = mute_item <$> cur_draft r2 ∧
  cur_uuids r1 = cur_uuids r2 ∧
  mute_event <$> cur_trace r1 = mute_event <$> cur_trace r2.
Proof.
  unfold mute_run. split.
  - by intros [= ? ? ? ? ?].
  - by intros (-> & -> & -> & -> & ->).
Qed.

(** One round under two speech services keeps two runs equal up to audio. *)
Lemma process_word_muted i w r1 r2 :
  mute_run r1 = mute_run r2 →
  (process_word gen speech1 uuid tl nl U already i w r1).1 =
  (process_word gen speech2 uuid tl nl U already i w r2).1 ∧
  mute_run (process_word gen speech1 uuid tl nl U already i w r1).2 =
  mute_run (process_word gen speech2 uuid tl nl U already i w r2).2.
Proof.
  intros (Hc & Hk & Hd & Hu & Ht)%mute_run_eq. unfold process_word.
  case_bool_decide.
  { split; [done|]. apply mute_run_eq. simpl. rewrite !fmap_app, Ht.
    by split_and!. }
  pose proof (f_equal (.!! w) Hk) as Hw. rewrite !lookup_fmap in Hw.
  destruct (cur_known r1 !! w) as [cd1|], (cur_known r2 !! w) as [cd2|];
    try done.
  { split; [done|]. apply mute_run_eq. simpl in *.
    rewrite !fmap_app, Ht, Hc, Hu. simpl. injection Hw as Hw Hi.
    split_and!; try done. do 2 f_equal. unfold mute_card, mute_data. simpl.
    by rewrite Hw, Hi. }
  destruct (gen w tl nl) as [fd|].
  - split; [done|]. apply mute_run_eq. simpl.
    rewrite !fmap_app, !fmap_insert, Ht, Hc, Hk, Hu.
    split_and!; try done; simpl; unfold mute_draft; simpl;
      by rewrite !fmap_app, Hc, ?Hu.
  - split; [done|]. apply mute_run_eq. simpl. rewrite !fmap_app, Ht.
    by split_and!.
Qed.

Lemma process_from_muted i ws r1 r2 :
  mute_run r1 = mute_run r2 →
  (process_from gen speech1 uuid tl nl U already i ws r1).1 =
  (process_from gen speech2 uuid tl nl U already i ws r2).1 ∧
  mute_run (process_from gen speech1 uuid tl nl U already i ws r1).2 =
  mute_run (process_from gen speech2 uuid tl nl U already i ws r2).2.
Proof.
  revert i r1 r2. induction ws as [|w ws IH]; intros i r1 r2 HR; simpl; [done|].
  destruct (process_word_muted i w r1 r2 HR) as [Hok Hr].
  destruct (process_word gen speech1 _ _ _ _ _ _ _ r1) as [ok1 r1'],
    (process_word gen speech2 _ _ _ _ _ _ _ r2) as [ok2 r2'].
  simpl in Hok, Hr. subst ok2. destruct ok1; [by apply IH|done].
Qed.

End Speech.

Lemma flashcard_calls_muted tr :
  flashcard_calls (mute_event <$> tr) = flashcard_calls tr.
Proof.
  induction tr as [|e tr IH]; [done|].
  change (flashcard_calls ([mute_event e] ++ (mute_event <$> tr)) =
          flashcard_calls ([e] ++ tr)).
  rewrite !flashcard_calls_app, IH. f_equal. by destruct e.
Qed.

(** X7.  The speech service has no say in the course of a run: with the
    same request, browser, client and identifiers, two runs under any two
    speech services are both rejected or both complete, make the same
    flashcard calls, draw as many identifiers and have the same effects in
    the same order up to the audio in the drafts written; their cards and
    the item they leave under the draft key differ at most in the audio of
    the cards. *)
Theorem speech_never_steers gen speech1 speech2 uuid tl nl words b :
  let run1 := processAndGenerateWords gen speech1 uuid words tl nl b in
  let run2 := processAndGenerateWords gen speech2 uuid words tl nl b in
  ((λ cs : list WordCard, mute_card <$> cs) <$> run1.1) =
    ((λ cs : list WordCard, mute_card <$> cs) <$> run2.1) ∧
  (run1.1 = None ↔ run2.1 = None) ∧
  mute_event <$> cur_trace run1.2 = mute_event <$> cur_trace run2.2 ∧
  flashcard_calls (cur_trace run1.2) = flashcard_calls (cur_trace run2.2) ∧
  mute_card <$> cur_cards run1.2 = mute_card <$> cur_cards run2.2 ∧
  mute_item <$> cur_draft run1.2 = mute_item <$> cur_draft run2.2 ∧
  cur_uuids run1.2 = cur_uuids run2.2.
Proof.
  intros run1 run2.
  assert (((λ cs : list WordCard, mute_card <$> cs) <$> run1.1) =
    ((λ cs : list WordCard, mute_card <$> cs) <$> run2.1) ∧
          mute_run run1.2 = mute_run run2.2) as [Hres Hrun].
  { subst run1 run2. unfold processAndGenerateWords.
    destruct (load_draft words (draft_slot b)) as [[[U adopted] slot0] eff].
    set (r0 := {| cur_cards := adopted; cur_known := _; cur_draft := slot0;
                  cur_uuids := _; cur_trace := _ |}).
    destruct (process_from_muted gen speech1 speech2 uuid tl nl U
                (list_to_set ((λ c, toLowerCase (card_word c)) <$> adopted))
                0 U r0 r0 eq_refl) as [Hok Hr].
    destruct (process_from gen speech1 _ _ _ _ _ _ _ r0) as [ok1 r1],
      (process_from gen speech2 _ _ _ _ _ _ _ r0) as [ok2 r2].
    simpl in Hok, Hr. subst ok2.
    apply mute_run_eq in Hr as (Hc & Hk & Hd & Hu & Ht).
    destruct ok1; simpl; [|split; [done|by apply mute_run_eq]].
    split; [by rewrite Hc|]. apply mute_run_eq. simpl.
    rewrite !fmap_app, Ht. by split_and!. }
  apply mute_run_eq in Hrun as (Hc & _ & Hd & Hu & Ht).
  split_and!; try done.
  - destruct run1.1, run2.1; done.
  - by rewrite <-(flashcard_calls_muted (cur_trace run1.2)), Ht,
      flashcard_calls_muted.
Qed.

End GeneratorMore.

(** ** The home page and the store *)

Module PageFacts.
Import Storage HomePage HomePageHandlers Vocabulary.
Import ObjFacts StorageFacts HomePageFacts StoreReads.

Lemma getters_fixed l :
  mapM migrateDeck (getDecks l) = Some (getDecks l) ∧
  mapM migrateStory (getStories l) = Some (getStories l) ∧
  mapM migrateWordCard (getWords l) = Some (getWords l).
Proof.
  unfold getDecks, getStories, getWords. split_and!.
  - destruct (l !! DECKS_KEY) as [[|[]]|]; try done.
    destruct (mapM migrateDeck elems) eqn:E; [|done].
    apply (mapM_fix _ _ _ migrateDeck_fix E).
  - destruct (l !! STORIES_KEY) as [[|[]]|]; try done.
    destruct (mapM migrateStory elems) eqn:E; [|done].
    apply (mapM_fix _ _ _ migrateStory_fix E).
  - destruct (l !! WORDS_KEY) as [[|[]]|]; try done.
    destruct (mapM migrateWordCard elems) eqn:E; [|done].
    apply (mapM_fix _ _ _ migrateWordCard_fix E).
Qed.

Lemma getters_saved l :
  (∀ ds, mapM migrateDeck ds = Some ds → getDecks (saveDecks ds l) = ds) ∧
  (∀ ss, mapM migrateStory ss = Some ss → getStories (saveStories ss l) = ss) ∧
  (∀ ws, mapM migrateWordCard ws = Some ws → getWords (saveWords ws l) = ws).
Proof.
  unfold getDecks, getStories, getWords, saveDecks, saveStories, saveWords.
  split_and!; intros xs Hxs; by rewrite lookup_insert_eq, Hxs.
Qed.

Lemma getters_frame l :
  (∀ ds, getWords (saveDecks ds l) = getWords l ∧
         getStories (saveDecks ds l) = getStories l) ∧
  (∀ ws, getDecks (saveWords ws l) = getDecks l ∧
         getStories (saveWords ws l) = getStories l) ∧
  (∀ ss, getDecks (saveStories ss l) = getDecks l ∧
         getWords (saveStories ss l) = getWords l).
Proof.
  unfold getDecks, getStories, getWords, saveDecks, saveStories, saveWords.
  split_and!; intros xs; by rewrite !lookup_insert_ne.
Qed.

Ltac getters :=
  repeat match goal with
  | |- context [getDecks (saveDecks ?ds ?l)] =>
      rewrite (proj1 (getters_saved l) ds) by auto
  | |- context [getStories (saveStories ?ss ?l)] =>
      rewrite (proj1 (proj2 (getters_saved l)) ss) by auto
  | |- context [getWords (saveWords ?ws ?l)] =>
      rewrite (proj2 (proj2 (getters_saved l)) ws) by auto
  | |- context [getWords (saveDecks ?ds ?l)] =>
      rewrite (proj1 (proj1 (getters_frame l) ds))
  | |- context [getStories (saveDecks ?ds ?l)] =>
      rewrite (proj2 (proj1 (getters_frame l) ds))
  | |- context [getDecks (saveWords ?ws ?l)] =>
      rewrite (proj1 (proj1 (proj2 (getters_frame l)) ws))
  | |- context [getStories (saveWords ?ws ?l)] =>
      rewrite (proj2 (proj1 (proj2 (getters_frame l)) ws))
  | |- context [getDecks (saveStories ?ss ?l)] =>
      rewrite (proj1 (proj2 (proj2 (getters_frame l)) ss))
  | |- context [getWords (saveStories ?ss ?l)] =>
      rewrite (proj2 (proj2 (proj2 (getters_frame l)) ss))
  end.

Lemma mapM_filter_fixed (f : value → option value) (P : value → Prop)
    `{!∀ x, Decision (P x)} l :
  mapM f l = Some l → mapM f (filter P l) = Some (filter P l).
Proof.
  rewrite !mapM_Some. intros Hm.
  assert (Forall (λ x, f x = Some x) l) as HF.
  { clear -Hm. induction l as [|x l IH]; [done|].
    apply Forall2_cons in Hm as [Hx Hl]. constructor; auto. }
  clear Hm. induction HF as [|x l Hx _ IH]; [by constructor|].
  rewrite filter_cons. destruct (decide (P x)); [constructor|]; done.
Qed.

Lemma migrateWordCard_object x r : migrateWordCard x = Some r → ∃ o, r = VObj o.
Proof. destruct x; [done|..]; intros [= <-]; eauto. Qed.

(** The cards of a deck that [getDecks] returns are objects. *)
Lemma migrateDeck_cards_objects d r :
  migrateDeck d = Some r →
  ∃ o ids, r = VObj o ∧ obj_lookup "cards" o = Some (VArr ids) ∧
           Forall (λ c, ∃ o', c = VObj o') ids.
Proof.
  unfold migrateDeck.
  destruct (get_prop "targetLanguage" d) as [tl|]; [|done].
  destruct (get_prop "nativeLanguage" d) as [nl|]; [|done].
  destruct (get_prop "cards" d) as [cards|]; [|done]. cbn [mbind option_bind].
  destruct (match cards with
            | Some (VArr l) => VArr <$> mapM migrateWordCard l
            | _ => Some (VArr [])
            end) as [c|] eqn:E; [|done].
  assert (∃ l', c = VArr l' ∧ Forall (λ c, ∃ o', c = VObj o') l')
    as (l' & -> & Hobj).
  { destruct cards as [[]|]; try (injection E as <-; eauto).
    destruct (mapM migrateWordCard elems) as [l'|] eqn:Em; [|done].
    injection E as <-. exists l'. split; [done|].
    apply mapM_Some in Em. induction Em as [|x y ? ? Hxy _ IH]; constructor;
      eauto using migrateWordCard_object. }
  cbn [mbind option_bind]. intros [= <-]. eexists _, l'. split; [reflexivity|].
  split; [|done].
  by rewrite obj_lookup_assign_in with (v := VArr l');
    [|closed_NoDup|find_entry].
Qed.

Lemma getDecks_cards_objects l :
  Forall (λ d, ∃ o ids, d = VObj o ∧ obj_lookup "cards" o = Some (VArr ids) ∧
                        Forall (λ c, ∃ o', c = VObj o') ids) (getDecks l).
Proof.
  unfold getDecks. destruct (l !! DECKS_KEY) as [[|[]]|]; try by constructor.
  destruct (mapM migrateDeck elems) as [ds|] eqn:E; [|by constructor].
  simpl. apply mapM_Some in E.
  induction E; constructor; eauto using migrateDeck_cards_objects.
Qed.

(** No membership list read by [getDecks] holds a string, so removing a
    word identifier from one changes nothing. *)
Lemma without_word_loaded wordId l :
  mapM (without_word wordId) (getDecks l) = Some (getDecks l).
Proof.
  apply mapM_Some. pose proof (getDecks_cards_objects l) as HF.
  induction HF as [|d ds (o & ids & -> & Hc & Hobj) _ IH]; constructor; [|done].
  unfold without_word, spread_with, obj_assign. simpl. rewrite Hc. simpl.
  assert (∀ p : value → bool,
            (∀ o', p (VObj o') = true) → filter p ids = ids) as ->.
  { intros p Hp. clear Hc.
    induction Hobj as [|c cs (o' & ->) _ IHc]; [done|].
    rewrite filter_cons, IHc. by rewrite decide_True by by rewrite Hp. }
  - by rewrite obj_set_id.
  - done.
Qed.

Lemma in_sync_reload w : in_sync (reloadData w).2.
Proof. by unfold in_sync. Qed.

(** X8.  The page state mirrors the store, and stays so.  [reloadData]
    makes the component state equal to what the getters read; from such a
    state each handler of the home page (the three deletions, confirmed or
    declined, and the import of any file) returns without throwing and
    leaves the state equal to what the getters read from the store it
    leaves. *)
Theorem page_stays_in_sync (to_number_positive : value → bool) w :
  in_sync (reloadData w).2 ∧
  (in_sync w →
   (∀ confirmed deckId,
      (handleDeleteDeck confirmed deckId w).1 = Val () ∧
      in_sync (handleDeleteDeck confirmed deckId w).2) ∧
   (∀ confirmed wordId,
      (handleDeleteWord confirmed wordId w).1 = Val () ∧
      in_sync (handleDeleteWord confirmed wordId w).2) ∧
   (∀ confirmed storyId,
      (handleDeleteStory confirmed storyId w).1 = Val () ∧
      in_sync (handleDeleteStory confirmed storyId w).2) ∧
   (∀ text confirmed,
      (handleFileImport to_number_positive text confirmed w).1 = Val () ∧
      in_sync (handleFileImport to_number_positive text confirmed w).2)).
Proof.
  split; [apply in_sync_reload|]. intros (Hd & Hs & Hw).
  destruct w as [l ds ss ws al]. simpl in Hd, Hs, Hw. subst ds ss ws.
  destruct (getters_not_null l) as (Nd & Ns & Nw).
  destruct (getters_fixed l) as (Fd & Fs & Fw).
  pose proof (λ P HP, mapM_filter_fixed migrateDeck P (H:=HP) _ Fd) as Kd.
  pose proof (λ P HP, mapM_filter_fixed migrateStory P (H:=HP) _ Fs) as Ks.
  pose proof (λ P HP, mapM_filter_fixed migrateWordCard P (H:=HP) _ Fw) as Kw.
  split_and!.
  - intros [] deckId; [|done].
    unfold handleDeleteDeck, mbind, M_bind, read. simpl.
    rewrite (filter_js_prop_differs _ _ _ Nd). simpl.
    rewrite (filter_js_prop_differs _ _ _ Ns). simpl.
    split; [done|]. unfold in_sync. simpl. by getters.
  - intros [] wordId; [|done].
    unfold handleDeleteWord, mbind, M_bind, read. simpl.
    rewrite (filter_js_prop_differs _ _ _ Nw). simpl.
    rewrite without_word_loaded. simpl.
    split; [done|]. unfold in_sync. simpl. by getters.
  - intros [] storyId; [|done].
    unfold handleDeleteStory, mbind, M_bind, read. simpl.
    rewrite (filter_js_prop_differs _ _ _ Ns). simpl.
    split; [done|]. unfold in_sync. simpl. by getters.
  - intros text confirmed.
    destruct text as [|data]; [by run_handler|].
    destruct data as [| | | | |o]; try by run_handler.
    destruct confirmed; [|by run_handler].
    run_handler.
    destruct (is_legacy to_number_positive (array_items (obj_lookup "decks" o)))
      as [[]|]; simpl; [|done|done].
    destruct (words_by_id (array_items (obj_lookup "words" o))) as [m|]; simpl;
      [|done].
    by destruct (upgrade_decks m (array_items (obj_lookup "decks" o)))
      as [[ds m']|].
Qed.



Lemma filter_js_null k s xs : VNull ∈ xs → filter_js (prop_differs k s) xs = None.
Proof.
  induction xs as [|x xs IH]; [by intros ?%elem_of_nil|].
  intros [<-|Hin]%elem_of_cons; [done|]. simpl. rewrite (IH Hin).
  by destruct (prop_differs k s x).
Qed.

(** X10.  Deleting a story touches the stories only.  Declined, nothing
    changes.  Accepted, on stories without [null] the stories whose [id] is
    not [storyId] are stored and shown, in their order, and the decks and
    words of the store and of the state are as before; with a [null] among
    the stories the handler throws a [TypeError] before it stores
    anything. *)
Theorem delete_story_only_stories storyId w :
  handleDeleteStory false storyId w = (Val (), w) ∧
  (Forall (λ s, s ≠ VNull) (stories w) →
   let kept := filter (λ s, ¬ prop_is "id" storyId s) (stories w) in
   let w' := (handleDeleteStory true storyId w).2 in
   (handleDeleteStory true storyId w).1 = Val () ∧
   ls w' = saveStories kept (ls w) ∧
   ls w' !! STORIES_KEY = Some (Doc (VArr kept)) ∧
   ls w' !! DECKS_KEY = ls w !! DECKS_KEY ∧
   ls w' !! WORDS_KEY = ls w !! WORDS_KEY ∧
   stories w' = kept ∧ decks w' = decks w ∧ myWords w' = myWords w ∧
   alerts w' = alerts w) ∧
  (VNull ∈ stories w → handleDeleteStory true storyId w = (Exc TypeError, w)).
Proof.
  split_and!; [done| |].
  - intros Hs kept. unfold handleDeleteStory, mbind, M_bind, read. simpl.
    rewrite (filter_js_prop_differs _ _ _ Hs). simpl.
    unfold saveStories. split_and!; try done.
    + by rewrite lookup_insert_eq.
    + by rewrite lookup_insert_ne.
    + by rewrite lookup_insert_ne.
  - intros Hin. unfold handleDeleteStory, mbind, M_bind, read. simpl.
    by rewrite (filter_js_null _ _ _ Hin).
Qed.

End PageFacts.

(** ** The upgrade of a legacy backup *)

Module UpgradeFacts.
Import Storage HomePage Vocabulary ObjFacts HomePageFacts.

(** No index key is the key ["id"]. *)
Lemma pretty_N_go_ne_id x s : s ≠ "id" → pretty_N_go x s ≠ "id".
Proof.
  revert s. induction (N.lt_wf_0 x) as [x _ IH]; intros s Hs.
  assert (x = 0 ∨ 0 < x)%N as [->|Hx] by lia.
  - by rewrite pretty_N_go_0.
  - rewrite pretty_N_go_step by done. apply IH.
    { by apply N.div_lt. }
    unfold pretty_N_char. by repeat case_match.
Qed.

Lemma pretty_nat_ne_id (i : nat) : pretty i ≠ "id".
Proof.
  unfold pretty, pretty_nat, pretty, pretty_N.
  case_decide; [done|]. by apply pretty_N_go_ne_id.
Qed.

Lemma obj_lookup_id_indexed l : obj_lookup "id" (indexed l) = None.
Proof.
  unfold indexed.
  assert (∀ f : nat → string, (∀ i, f i ≠ "id") →
            obj_lookup "id" (imap (λ i v, (f i, v)) l) = None) as Hgen.
  { induction l as [|v l IH]; intros f Hf; [done|].
    simpl. destruct (String.eqb_spec (f 0) "id") as [E|_]; [by destruct (Hf 0)|].
    apply (IH (f ∘ S)). intros i. apply Hf. }
  apply Hgen, pretty_nat_ne_id.
Qed.

Lemma same_value_zero_eq a b : same_value_zero a b = true → a = b.
Proof.
  destruct a as [[]|], b as [[]|]; simpl; try done.
  - by intros ->%Bool.eqb_prop.
  - by intros ->%Z.eqb_eq.
  - by intros ->%String.eqb_eq.
Qed.

Lemma same_value_zero_str s : same_value_zero (Some (VStr s)) (Some (VStr s)) = true.
Proof. apply String.eqb_refl. Qed.

Lemma map_has_app k m1 m2 : map_has k (m1 ++ m2) = map_has k m1 || map_has k m2.
Proof. apply existsb_app. Qed.

Lemma map_set_absent k v m : map_has k m = false → map_set k v m = m ++ [(k, v)].
Proof.
  induction m as [|[k' v'] m IH]; simpl; [done|].
  intros [Hk Hm]%orb_false_iff. by rewrite Hk, IH.
Qed.

Lemma map_has_elem k m :
  map_has k m = true → ∃ v, (k, v) ∈ m.
Proof.
  unfold map_has. rewrite existsb_exists.
  intros ([k' v] & Hin%list_elem_of_In & Heq). simpl in Heq.
  apply same_value_zero_eq in Heq as ->. eauto.
Qed.

Lemma map_set_keyed k v m :
  get_prop "id" v = Some k → keyed m → keyed (map_set k v m).
Proof.
  intros Hv. induction 1 as [|[k' v'] m Hk' Hm IH]; simpl.
  { by repeat constructor. }
  destruct (same_value_zero k' k) eqn:E.
  - apply same_value_zero_eq in E as ->. by constructor.
  - by constructor.
Qed.

Lemma words_by_id_keyed ws m : words_by_id ws = Some m → keyed m.
Proof.
  unfold words_by_id.
  destruct (mapM _ ws) as [entries|] eqn:E; [|done]. intros [= <-].
  apply mapM_Some in E.
  assert (Forall (λ e, get_prop "id" e.2 = Some e.1) entries) as HF.
  { clear -E. induction E as [|w e ws es Hw _ IH]; constructor; [|done].
    destruct (get_prop "id" w) as [i|] eqn:Ei; [|done]. simpl in Hw.
    by injection Hw as <-. }
  clear E.
  assert (∀ m, keyed m →
            keyed (foldl (λ m e, map_set e.1 e.2 m) m entries)) as Hgen.
  { induction HF as [|e es He _ IH]; intros m Hm; [done|].
    simpl. apply IH. by apply map_set_keyed. }
  apply Hgen. constructor.
Qed.

Lemma collect_card_spec ids m card :
  collect_card (ids, m) card =
    match card_id card with
    | Some i =>
        (ids ++ [i], if map_has (Some i) m then m else map_set (Some i) card m)
    | None => (ids, m)
    end.
Proof.
  unfold collect_card, card_id. destruct (truthy card); [|done].
  destruct (get_prop "id" card) as [[i|]|]; [|done..].
  by destruct (truthy i).
Qed.

Lemma card_id_keyed card i : card_id card = Some i → get_prop "id" card = Some (Some i).
Proof.
  unfold card_id. destruct (truthy card); [|done].
  destruct (get_prop "id" card) as [[j|]|]; [|done..].
  destruct (truthy j); [|done]. by intros [= <-].
Qed.

(** The cards of one deck, folded: the identifiers collected are those of
    the cards that have one, in order; the map only grows, at its end, by
    cards filed under their identifier; and every string collected is a key
    of the map. *)
Lemma foldl_collect cs ids m :
  ∃ added,
    foldl collect_card (ids, m) cs = (ids ++ omap card_id cs, m ++ added) ∧
    Forall (λ e, ∃ i, e.1 = Some i ∧ card_id e.2 = Some i ∧ e.2 ∈ cs) added ∧
    ∀ s, VStr s ∈ omap card_id cs → map_has (Some (VStr s)) (m ++ added) = true.
Proof.
  revert ids m. induction cs as [|card cs IH]; intros ids m.
  { exists []. rewrite !app_nil_r. split_and!; [done|done|].
    by intros s ?%elem_of_nil. }
  cbn [foldl]. rewrite collect_card_spec. cbn [omap list_omap].
  destruct (card_id card) as [i|] eqn:Ei.
  - destruct (map_has (Some i) m) eqn:Hhas.
    + destruct (IH (ids ++ [i]) m) as (added & -> & HF & Hres).
      exists added. rewrite <-app_assoc. split_and!; [done| |].
      * eapply Forall_impl; [exact HF|]. intros e (j & ? & ? & ?).
        exists j. split_and!; [done|done|by right].
      * intros s [Hi|Hs]%elem_of_cons; [|by apply Hres].
        subst i. by rewrite map_has_app, Hhas.
    + rewrite (map_set_absent _ _ _ Hhas).
      destruct (IH (ids ++ [i]) (m ++ [(Some i, card)])) as (added & -> & HF & Hres).
      exists ((Some i, card) :: added). rewrite <-!app_assoc. simpl.
      split_and!; [done| |].
      * constructor; [exists i; split_and!; [done|done|by left]|].
        eapply Forall_impl; [exact HF|]. intros e (j & ? & ? & ?).
        exists j. split_and!; [done|done|by right].
      * intros s [Hi|Hs]%elem_of_cons.
        -- subst i. rewrite map_has_app. apply orb_true_iff. right.
           unfold map_has. cbn [existsb fst]. by rewrite same_value_zero_str.
        -- specialize (Hres s Hs). by rewrite <-app_assoc in Hres.
  - destruct (IH ids m) as (added & -> & HF & Hres).
    exists added. split_and!; [done| |done].
    eapply Forall_impl; [exact HF|]. intros e (j & ? & ? & ?).
    exists j. split_and!; [done|done|by right].
Qed.

Lemma upgrade_decks_spec m ds ds' m' :
  upgrade_decks m ds = Some (ds', m') →
  ∃ added,
    m' = m ++ added ∧
    Forall (λ e, ∃ i, e.1 = Some i ∧ card_id e.2 = Some i) added ∧
    Forall2 (λ d d', ∃ cs,
               get_prop "cards" d = Some (Some (VArr cs)) ∧
               d' = spread_with d [("cards", VArr (omap card_id cs))] ∧
               ∀ s, VStr s ∈ omap card_id cs →
                    map_has (Some (VStr s)) m' = true) ds ds'.
Proof.
  revert m ds' m'. induction ds as [|d ds IH]; intros m ds' m'; simpl.
  { intros [= <- <-]. exists []. rewrite app_nil_r. by split_and!. }
  unfold upgrade_deck.
  destruct (get_prop "cards" d) as [[[| | | |cs|]|]|] eqn:Hc; try done.
  cbn [mbind option_bind].
  destruct (foldl_collect cs [] m) as (added1 & -> & HF1 & Hres1).
  cbn [mbind option_bind].
  destruct (upgrade_decks (m ++ added1) ds) as [[rest m2]|] eqn:Hrest; [|done].
  cbn [mbind option_bind]. intros [= <- <-].
  destruct (IH _ _ _ Hrest) as (added2 & -> & HF2 & HF).
  exists (added1 ++ added2). rewrite app_assoc. split_and!; [done| |].
  - apply Forall_app. split; [|done].
    eapply Forall_impl; [exact HF1|]. intros e (i & ? & ? & _). eauto.
  - constructor; [|done]. exists cs. split_and!; [done|done|].
    intros s Hs. rewrite map_has_app, (Hres1 s Hs). done.
Qed.

Lemma elem_of_fmap_snd (m : list (option value * value)) k v :
  (k, v) ∈ m → v ∈ m.*2.
Proof. intros H. apply list_elem_of_fmap. by exists (k, v). Qed.

(** X11.  An accepted import that takes the legacy path and succeeds
    stores decks whose string references all resolve.  Each stored deck is
    the payload's deck with [cards] replaced by the identifiers of its
    embedded cards (those cards that are truthy and have a truthy [id]), in
    order; the stored words begin with the payload's words as the map holds
    them, none overwritten by an embedded card, followed by embedded cards
    that have an identifier; and every string in a stored membership list
    is the [id] of a stored word. *)
Theorem import_upgrade_resolves (to_number_positive : value → bool) o w :
  let importedDecks := array_items (obj_lookup "decks" o) in
  let importedWords := array_items (obj_lookup "words" o) in
  let w' := (handleFileImport to_number_positive (Doc (VObj o)) true w).2 in
  is_legacy to_number_positive importedDecks = Some true →
  alerts w' = alerts w ++ [ImportSuccess] →
  ∃ ds' m0 added,
    ls w' !! DECKS_KEY = Some (Doc (VArr ds')) ∧
    ls w' !! WORDS_KEY = Some (Doc (VArr (m0.*2 ++ added))) ∧
    words_by_id importedWords = Some m0 ∧
    Forall (λ x, is_Some (card_id x)) added ∧
    Forall2 (λ d d', ∃ cs,
               get_prop "cards" d = Some (Some (VArr cs)) ∧
               d' = spread_with d [("cards", VArr (omap card_id cs))] ∧
               get_prop "cards" d' = Some (Some (VArr (omap card_id cs))))
      importedDecks ds' ∧
    (∀ d' ids s,
       d' ∈ ds' → get_prop "cards" d' = Some (Some (VArr ids)) →
       VStr s ∈ ids →
       ∃ word, word ∈ m0.*2 ++ added ∧ prop_is "id" s word).
Proof.
  intros importedDecks importedWords w' Hleg Hok. subst w'. revert Hok.
  run_handler. fold importedDecks importedWords. rewrite Hleg. simpl.
  destruct (words_by_id importedWords) as [m0|] eqn:Hm0; simpl;
    [|by intros [=]%(inj (app _))].
  destruct (upgrade_decks m0 importedDecks) as [[ds' m']|] eqn:Hup; simpl;
    [|by intros [=]%(inj (app _))].
  intros _.
  destruct (upgrade_decks_spec _ _ _ _ Hup) as (added & -> & Hadded & HF).
  assert (keyed (m0 ++ added)) as Hkeyed.
  { apply Forall_app. split; [by eapply words_by_id_keyed|].
    eapply Forall_impl; [exact Hadded|]. intros [k v] (i & -> & Hi).
    by apply card_id_keyed. }
  exists ds', m0, added.*2. rewrite <-fmap_app.
  unfold saveStories, saveWords, saveDecks. split_and!.
  - rewrite !lookup_insert_ne by done. by rewrite lookup_insert_eq.
  - rewrite lookup_insert_ne by done. by rewrite lookup_insert_eq.
  - done.
  - apply Forall_fmap. eapply Forall_impl; [exact Hadded|].
    intros [k v] (i & _ & Hi). simpl in *. by rewrite Hi.
  - eapply Forall2_impl; [exact HF|]. intros d d' (cs & Hc & -> & _).
    exists cs. split_and!; [done|done|].
    apply StorageFacts.get_prop_spread_with; [StorageFacts.closed_NoDup|by left].
  - intros d' ids s Hd' Hids Hs.
    apply list_elem_of_lookup in Hd' as [n Hn].
    destruct (Forall2_lookup_r _ _ _ _ _ HF Hn) as (d & _ & cs & Hc & -> & Hres).
    rewrite StorageFacts.get_prop_spread_with with (v := VArr (omap card_id cs))
      in Hids; [|StorageFacts.closed_NoDup|by left].
    injection Hids as <-.
    destruct (map_has_elem _ _ (Hres s Hs)) as [word Hword].
    exists word. split; [by eapply elem_of_fmap_snd|].
    unfold keyed in Hkeyed. rewrite Forall_forall in Hkeyed.
    apply (Hkeyed _ Hword).
Qed.

Lemma import_upgrade_resolves_witness :
  let o := [("decks",
             VArr [VObj [("id", VStr "d1");
                         ("cards", VArr [VObj [("id", VStr "w1");
                                               ("word", VStr "apple")];
                                         VObj [("word", VStr "pear")]])]]);
            ("words", VArr [VObj [("id", VStr "w0"); ("word", VStr "kiwi")]])] in
  let w' := (handleFileImport (λ _, false) (Doc (VObj o)) true
               Samples.stocked).2 in
  ls w' !! DECKS_KEY =
    Some (Doc (VArr [VObj [("id", VStr "d1"); ("cards", VArr [VStr "w1"])]])) ∧
  ∃ word, word ∈ array_items (match ls w' !! WORDS_KEY with
                                | Some (Doc v) => Some v
                                | _ => None
                                end) ∧
          prop_is "id" "w1" word.
Proof.
  intros o w'.
  destruct (import_upgrade_resolves (λ _, false) o Samples.stocked
              eq_refl eq_refl)
    as (ds' & m0 & added & Hd & Hw & Hm0 & _ & _ & Hres).
  fold w' in Hd, Hw. split; [reflexivity|].
  destruct (Hres (VObj [("id", VStr "d1"); ("cards", VArr [VStr "w1"])])
              [VStr "w1"] "w1") as (word & Hin & Hid).
  - assert (ds' = [VObj [("id", VStr "d1"); ("cards", VArr [VStr "w1"])]])
      as -> by (vm_compute in Hd; congruence).
    by left.
  - reflexivity.
  - by left.
  - exists word. rewrite Hw. by split.
Defined.

End UpgradeFacts.

(** ** Backup and restore *)

Module BackupFacts.
Import Storage HomePage HomePageHandlers Vocabulary.
Import ObjFacts StorageFacts HomePageFacts StoreReads PageFacts UpgradeFacts.

Section Restore.

Variable to_number_positive : value → bool.

Abbreviation import := (handleFileImport to_number_positive).

(** The two accepted paths of the import, run. *)
Lemma import_plain o w :
  is_legacy to_number_positive (array_items (obj_lookup "decks" o)) = Some false →
  import (Doc (VObj o)) true w =
    (Val (),
     let l := saveStories (array_items (obj_lookup "stories" o))
                (saveWords (array_items (obj_lookup "words" o))
                   (saveDecks (array_items (obj_lookup "decks" o)) (ls w))) in
     {| ls := l; decks := getDecks l; stories := getStories l;
        myWords := getWords l; alerts := alerts w ++ [ImportSuccess] |}).
Proof. intros Hleg. run_handler. by rewrite Hleg. Qed.

Lemma import_legacy o w m0 ds' m' :
  is_legacy to_number_positive (array_items (obj_lookup "decks" o)) = Some true →
  words_by_id (array_items (obj_lookup "words" o)) = Some m0 →
  upgrade_decks m0 (array_items (obj_lookup "decks" o)) = Some (ds', m') →
  import (Doc (VObj o)) true w =
    (Val (),
     let l := saveStories (array_items (obj_lookup "stories" o))
                (saveWords m'.*2 (saveDecks ds' (ls w))) in
     {| ls := l; decks := getDecks l; stories := getStories l;
        myWords := getWords l; alerts := alerts w ++ [ImportSuccess] |}).
Proof. intros Hleg Hm0 Hup. run_handler. by rewrite Hleg, Hm0, Hup. Qed.

Lemma is_legacy_loaded l :
  is_legacy to_number_positive (getDecks l)
  = Some (first_deck_has_cards (getDecks l)).
Proof.
  pose proof (getDecks_cards_objects l) as HF.
  destruct HF as [|d ds (o & ids & -> & Hc & Hobj) _]; [done|].
  unfold is_legacy, first_deck_has_cards. simpl. rewrite Hc. simpl.
  destruct Hobj as [|c cs (o' & ->) _]; done.
Qed.

Lemma words_by_id_total ws :
  Forall (λ x, x ≠ VNull) ws → is_Some (words_by_id ws).
Proof.
  intros Hws. unfold words_by_id.
  destruct (mapM _ ws) as [entries|] eqn:E; [by eexists|].
  apply mapM_None, Exists_exists in E as (x & Hin & Hx).
  rewrite Forall_forall in Hws. specialize (Hws x Hin). by destruct x.
Qed.

Lemma upgrade_decks_total m ds :
  Forall deck_shaped ds → is_Some (upgrade_decks m ds).
Proof.
  intros Hds. revert m. induction Hds as [|d ds (o & ids & -> & Hc) _ IH];
    intros m; [by eexists|].
  simpl. unfold upgrade_deck. simpl. rewrite Hc. cbn [mbind option_bind].
  destruct (foldl collect_card ([], m) ids) as [cardIds m1].
  cbn [mbind option_bind]. destruct (IH m1) as [[rest m2] ->]. by eexists.
Qed.

(** X12.  A backup can always be restored, and a backup whose first deck
    has no cards is restored as read.  [handleExport] writes what the three
    getters return; importing that file (the confirmation accepted) into
    any browser succeeds, leaves the page showing what the store then
    holds, and stores the stories of the backup's store as read; when the
    first deck read has no cards (or no deck was read) the decks and the
    words are stored as read as well. *)
Theorem export_then_import w0 w :
  let data := VObj [("decks", VArr (getDecks (ls w0)));
                    ("words", VArr (getWords (ls w0)));
                    ("stories", VArr (getStories (ls w0)))] in
  let w' := (import (Doc data) true w).2 in
  handleExport w0 = (Val data, w0) ∧
  (import (Doc data) true w).1 = Val () ∧
  alerts w' = alerts w ++ [ImportSuccess] ∧
  in_sync w' ∧
  getStories (ls w') = getStories (ls w0) ∧
  (first_deck_has_cards (getDecks (ls w0)) = false →
   getDecks (ls w') = getDecks (ls w0) ∧ getWords (ls w') = getWords (ls w0)).
Proof.
  intros data w'. subst w' data. split; [done|].
  destruct (getters_fixed (ls w0)) as (Fd & Fs & Fw).
  destruct (getters_not_null (ls w0)) as (_ & _ & Nw).
  pose proof (is_legacy_loaded (ls w0)) as Hleg.
  destruct (first_deck_has_cards (getDecks (ls w0))) eqn:Hfirst.
  - destruct (words_by_id_total _ Nw) as [m0 Hm0].
    destruct (upgrade_decks_total m0 _ (getDecks_shaped (ls w0))) as [[ds' m'] Hup].
    rewrite (import_legacy _ w m0 ds' m') by done. simpl.
    split_and!; try done. by getters.
  - rewrite (import_plain _ w) by done. simpl.
    split_and!; try done; [by getters|]. intros _. by getters.
Qed.

(** What [migrateWordCard] makes of an identifier string has no [id]. *)
Lemma card_id_garbled s r : migrateWordCard (VStr s) = Some r → card_id r = None.
Proof.
  rewrite migrateWordCard_string. intros [= <-].
  unfold card_id, spread_with. simpl truthy. cbn [get_prop].
  rewrite obj_lookup_assign_notin.
  - cbn [own_props]. by rewrite obj_lookup_id_indexed.
  - apply (bool_decide_unpack _). vm_compute. exact I.
Qed.

Lemma migrateDeck_id_deck d :
  id_deck d →
  ∃ r cs, migrateDeck d = Some r ∧
          get_prop "cards" r = Some (Some (VArr cs)) ∧
          omap card_id cs = [] ∧
          (first_deck_has_cards [d] = true → first_deck_has_cards [r] = true).
Proof.
  intros (o & ids & -> & Hc).
  rewrite (migrateDeck_cards_array _ _ Hc), mapM_migrateWordCard_strings. simpl.
  eexists _, _. split; [reflexivity|]. split_and!.
  - apply get_prop_spread_with; [closed_NoDup|find_entry].
  - clear Hc. induction ids as [|s ids IH]; [done|]. cbn [fmap list_fmap omap list_omap].
    fold (@fmap list _ _ _ (λ s, default VNull (migrateWordCard (VStr s))) ids).
    rewrite (card_id_garbled s); [exact IH|]. by rewrite migrateWordCard_string.
  - unfold first_deck_has_cards.
    rewrite get_prop_spread_with
      with (v := VArr ((λ s, default VNull (migrateWordCard (VStr s))) <$> ids));
      [|closed_NoDup|find_entry].
    simpl. rewrite Hc. by destruct ids.
Qed.

(** X13.  Backup and restore empties the decks of the current schema.
    When the stored decks hold identifier strings under [cards] and the
    first of them holds at least one, exporting and importing the export
    (the confirmation accepted) succeeds and stores as many decks, each
    with an empty [cards]: the getters behind the export turned every
    identifier into an object without [id], which the import takes for a
    legacy card and drops. *)
Theorem restore_empties_id_decks w0 w raw :
  ls w0 !! DECKS_KEY = Some (Doc (VArr raw)) →
  Forall id_deck raw →
  first_deck_has_cards raw = true →
  let data := VObj [("decks", VArr (getDecks (ls w0)));
                    ("words", VArr (getWords (ls w0)));
                    ("stories", VArr (getStories (ls w0)))] in
  let w' := (import (Doc data) true w).2 in
  alerts w' = alerts w ++ [ImportSuccess] ∧
  ∃ ds', ls w' !! DECKS_KEY = Some (Doc (VArr ds')) ∧
         length ds' = length raw ∧
         Forall (λ d', get_prop "cards" d' = Some (Some (VArr []))) ds'.
Proof.
  intros Hraw Hids Hfirst data w'. subst w' data.
  assert (∃ dsm, getDecks (ls w0) = dsm ∧
            Forall2 (λ d r, ∃ cs, get_prop "cards" r = Some (Some (VArr cs)) ∧
                                  omap card_id cs = []) raw dsm ∧
            first_deck_has_cards dsm = true) as (dsm & Hdsm & HF & Hfirst').
  { unfold getDecks. rewrite Hraw. clear Hraw.
    assert (∃ dsm, mapM migrateDeck raw = Some dsm ∧
              Forall2 (λ d r, ∃ cs, get_prop "cards" r = Some (Some (VArr cs)) ∧
                                    omap card_id cs = []) raw dsm ∧
              (first_deck_has_cards raw = true →
               first_deck_has_cards dsm = true)) as (dsm & -> & HF & Hf).
    { clear Hfirst. induction Hids as [|d ds Hd _ (dsm & IH & HF & _)].
      { exists []. by split_and!; [|constructor|]. }
      destruct (migrateDeck_id_deck d Hd) as (r & cs & Hr & Hc & Hnone & Hf).
      exists (r :: dsm). split_and!.
      - change (mapM migrateDeck (d :: ds)) with
          (y ← migrateDeck d; k ← mapM migrateDeck ds; mret (y :: k)).
        by rewrite Hr, IH.
      - constructor; eauto.
      - exact Hf. }
    exists dsm. simpl. split_and!; [done|done|by apply Hf]. }
  destruct (getters_not_null (ls w0)) as (_ & _ & Nw).
  pose proof (is_legacy_loaded (ls w0)) as Hleg. rewrite Hdsm, Hfirst' in Hleg.
  destruct (words_by_id_total _ Nw) as [m0 Hm0].
  pose proof (getDecks_shaped (ls w0)) as Hshaped. rewrite Hdsm in Hshaped.
  destruct (upgrade_decks_total m0 _ Hshaped) as [[ds' m'] Hup].
  rewrite Hdsm.
  rewrite (import_legacy _ w m0 ds' m') by done. simpl.
  split; [done|]. exists ds'. unfold saveStories, saveWords, saveDecks.
  rewrite !lookup_insert_ne by done. rewrite lookup_insert_eq.
  destruct (upgrade_decks_spec _ _ _ _ Hup) as (added & _ & _ & HF').
  split_and!; [done| |].
  - rewrite <-(Forall2_length _ _ _ HF'). symmetry. by eapply Forall2_length.
  - assert (Forall (λ r, ∃ cs, get_prop "cards" r = Some (Some (VArr cs)) ∧
                                omap card_id cs = []) dsm) as Hdsm'.
    { clear -HF. induction HF; constructor; eauto. }
    clear -HF' Hdsm'. induction HF' as [|d d' ds ds' (cs & Hc & -> & _) _ IH].
    { constructor. }
    apply Forall_cons in Hdsm' as [(cs' & Hc' & Hnone) Hrest].
    constructor; [|by apply IH].
    rewrite Hc in Hc'. injection Hc' as <-. rewrite Hnone.
    apply get_prop_spread_with; [closed_NoDup|by left].
Qed.

End Restore.

Lemma restore_empties_id_decks_witness :
  let w0 := Samples.stocked in
  let data := VObj [("decks", VArr (getDecks (ls w0)));
                    ("words", VArr (getWords (ls w0)));
                    ("stories", VArr (getStories (ls w0)))] in
  ls w0 !! DECKS_KEY =
    Some (Doc (VArr [VObj [("id", VStr "d1"); ("title", VStr "fruit");
                            ("cards", VArr [VStr "w1"])]])) ∧
  ∃ d', ls (handleFileImport (λ _, false) (Doc data) true w0).2 !! DECKS_KEY = Some (Doc (VArr [d'])) ∧
        get_prop "cards" d' = Some (Some (VArr [])).
Proof.
  intros w0 data. split; [reflexivity|].
  assert (Forall id_deck [VObj [("id", VStr "d1"); ("title", VStr "fruit");
                                ("cards", VArr [VStr "w1"])]]) as Hids.
  { repeat constructor. eexists _, ["w1"]. split; reflexivity. }
  destruct (restore_empties_id_decks (λ _, false) w0 w0 _ eq_refl Hids eq_refl)
    as (_ & ds' & Hd & Hlen & Hcards).
  destruct ds' as [|d' [|]]; try discriminate Hlen.
  exists d'. split; [exact Hd|]. rewrite Forall_singleton in Hcards.
  exact Hcards.
Defined.

End BackupFacts.

(** ** The save handlers of the application *)

Module AppFacts.
Import Storage App Vocabulary.
Import ObjFacts StorageFacts HomePageFacts StoreReads PageFacts UpgradeFacts.

Lemma strict_eq_str_iff a s : strict_eq a (Some (VStr s)) = true ↔ a = Some (VStr s).
Proof.
  split; [apply same_value_zero_eq|]. intros ->. apply same_value_zero_str.
Qed.

Lemma findIndex_spec (p : value → option bool) (P : value → Prop)
    `{!∀ x, Decision (P x)} xs :
  Forall (λ x, ∃ b, p x = Some b ∧ (b = true ↔ P x)) xs →
  findIndex p xs = Some (fst <$> list_find P xs).
Proof.
  induction 1 as [|x xs (b & Hp & Hb) _ IH]; [done|].
  simpl. rewrite Hp, IH. destruct b.
  - by rewrite decide_True by by apply Hb.
  - rewrite decide_False by (intros HP; by apply Hb in HP).
    by destruct (list_find P xs) as [[i y]|].
Qed.

Lemma filter_js_spec (p : value → option bool) (P : value → Prop)
    `{!∀ x, Decision (P x)} xs :
  Forall (λ x, ∃ b, p x = Some b ∧ (b = true ↔ P x)) xs →
  HomePage.filter_js p xs = Some (filter P xs).
Proof.
  induction 1 as [|x xs (b & Hp & Hb) _ IH]; [done|].
  simpl. rewrite Hp, IH. simpl. rewrite filter_cons. destruct b.
  - by rewrite decide_True by by apply Hb.
  - by rewrite decide_False by (intros HP; by apply Hb in HP).
Qed.

(** The migrations keep the [id]. *)
Lemma migrateDeck_id d r : migrateDeck d = Some r → get_prop "id" r = get_prop "id" d.
Proof.
  unfold migrateDeck.
  destruct (get_prop "targetLanguage" d) as [tl|] eqn:Etl; [|done].
  destruct (get_prop "nativeLanguage" d) as [nl|]; [|done].
  destruct (get_prop "cards" d) as [cards|]; [|done]. cbn [mbind option_bind].
  destruct (match cards with
            | Some (VArr l) => VArr <$> mapM migrateWordCard l
            | _ => Some (VArr [])
            end) as [c|]; [|done].
  cbn [mbind option_bind]. intros [= <-]. unfold spread_with. cbn [get_prop].
  rewrite obj_lookup_assign_notin
    by (apply (bool_decide_unpack _); vm_compute; exact I).
  destruct d as [|b|n|s|l|o]; try done; cbn [own_props get_prop].
  - by rewrite obj_lookup_id_indexed.
  - by rewrite obj_lookup_id_indexed.
Qed.

Lemma migrateWordCard_id w r :
  migrateWordCard w = Some r → get_prop "id" r = get_prop "id" w.
Proof.
  destruct w as [|b|n|s|l|o]; [done|..]; intros [= <-];
    unfold spread_with; cbn [get_prop];
    rewrite obj_lookup_assign_notin
      by (apply (bool_decide_unpack _); vm_compute; exact I);
    cbn [own_props]; try done; by rewrite obj_lookup_id_indexed.
Qed.

Lemma getDecks_saved_insert l decks0 i d dm :
  mapM migrateDeck decks0 = Some decks0 → migrateDeck d = Some dm →
  getDecks (saveDecks (<[i := d]> decks0) l) = <[i := dm]> decks0.
Proof.
  intros H0 Hd. rewrite getDecks_saveDecks.
  assert (mapM migrateDeck (<[i := d]> decks0) = Some (<[i := dm]> decks0)) as ->;
    [|done].
  apply mapM_Some, Forall2_insert; [by apply mapM_Some|done].
Qed.

Lemma getDecks_saved_cons l decks0 d dm :
  mapM migrateDeck decks0 = Some decks0 → migrateDeck d = Some dm →
  getDecks (saveDecks (d :: decks0) l) = dm :: decks0.
Proof.
  intros H0 Hd. rewrite getDecks_saveDecks.
  change (mapM migrateDeck (d :: decks0)) with
    (y ← migrateDeck d; k ← mapM migrateDeck decks0; mret (y :: k)).
  by rewrite Hd, H0.
Qed.

Lemma find_by_id s d xs :
  d ≠ VNull → prop_is "id" s d →
  Forall (λ x, x ≠ VNull) xs →
  findIndex (λ x, a ← get_prop "id" x; b ← get_prop "id" d;
                  Some (strict_eq a b)) xs
  = Some (fst <$> list_find (prop_is "id" s) xs).
Proof.
  intros Hd Hs Hxs. apply findIndex_spec.
  eapply Forall_impl; [exact Hxs|]. intros x Hx.
  unfold prop_is in *. rewrite Hs.
  destruct (get_prop "id" x) as [a|] eqn:Ea; [|by destruct x].
  simpl. eexists. split; [done|]. rewrite strict_eq_str_iff.
  split; congruence.
Qed.

(** X14.  Saving a deck whose [id] is a string replaces the first deck
    read with that [id], at its place, or puts the deck in front when there
    is none; the other decks are kept as read, the view returns home and
    the deck being edited is cleared.  When the deck is one that the getter
    can read back, saving it a second time stores the same decks. *)
Theorem save_deck_upserts deckToSave s st :
  prop_is "id" s deckToSave →
  let decks0 := getDecks (ls st) in
  let stored :=
    match list_find (prop_is "id" s) decks0 with
    | Some (i, _) => <[i := deckToSave]> decks0
    | None => deckToSave :: decks0
    end in
  ∃ st1,
    handleSaveDeck deckToSave st = Some st1 ∧
    ls st1 = saveDecks stored (ls st) ∧
    view st1 = home ∧ editingDeck st1 = None ∧
    (is_Some (migrateDeck deckToSave) →
     ∃ st2, handleSaveDeck deckToSave st1 = Some st2 ∧ ls st2 = ls st1).
Proof.
  intros Hs decks0 stored.
  assert (deckToSave ≠ VNull) as Hd by (by intros ->).
  destruct (getters_not_null (ls st)) as (Nd & _ & _).
  destruct (getters_fixed (ls st)) as (Fd & _ & _).
  fold decks0 in Nd, Fd.
  unfold handleSaveDeck at 1. fold decks0.
  rewrite (find_by_id s) by done. cbn [mbind option_bind].
  eexists. split; [reflexivity|]. simpl.
  assert (match fst <$> list_find (prop_is "id" s) decks0 with
          | Some i => <[i:=deckToSave]> decks0
          | None => deckToSave :: decks0
          end = stored) as ->.
  { subst stored. by destruct (list_find _ decks0) as [[i x]|]. }
  split_and!; [done..|]. intros [dm Hdm].
  assert (prop_is "id" s dm) as Hsm.
  { unfold prop_is in *. by rewrite (migrateDeck_id _ _ Hdm). }
  assert (dm ≠ VNull) as Hdmn by (by intros ->).
  unfold handleSaveDeck. simpl. subst stored.
  destruct (list_find (prop_is "id" s) decks0) as [[i x]|] eqn:Hfind.
  - apply list_find_Some in Hfind as (Hi & Hx & Hbefore).
    assert (i < length decks0) as Hlt by (by eapply lookup_lt_Some).
    rewrite (getDecks_saved_insert _ _ _ _ dm) by done.
    rewrite (find_by_id s); [|done|done|].
    2:{ apply Forall_insert; [done|done]. }
    assert (list_find (prop_is "id" s) (<[i:=dm]> decks0) = Some (i, dm)) as ->.
    { apply list_find_Some. split_and!; [by apply list_lookup_insert_eq|done|].
      intros j y Hj Hji. rewrite list_lookup_insert_ne in Hj by lia. eauto. }
    cbn [mbind option_bind fmap option_fmap option_map fst].
    eexists. split; [reflexivity|]. simpl. unfold saveDecks.
    by rewrite list_insert_insert_eq, insert_insert_eq.
  - rewrite (getDecks_saved_cons _ _ _ dm) by done.
    rewrite (find_by_id s); [|done|done|by constructor].
    assert (list_find (prop_is "id" s) (dm :: decks0) = Some (0, dm)) as ->.
    { apply list_find_Some. split_and!; [done|done|]. intros j y _ Hj. lia. }
    cbn [mbind option_bind fmap option_fmap option_map fst].
    eexists. split; [reflexivity|]. simpl. unfold saveDecks.
    by rewrite insert_insert_eq.
Qed.

Lemma save_deck_upserts_witness :
  let st := {| ls := saveDecks [VObj [("id", VStr "d1"); ("cards", VArr [])];
                                VObj [("id", VStr "d2"); ("cards", VArr [])]] ∅;
               view := editDeck; editingDeck := None; editingWords := None;
               studyingDeck := None; viewingStory := None;
               generatingStoryForDeck := None |} in
  let d := VObj [("id", VStr "d2"); ("title", VStr "new"); ("cards", VArr [])] in
  ∃ st1, handleSaveDeck d st = Some st1 ∧
         (λ x, get_prop "id" x) <$> getDecks (ls st1)
           = [Some (Some (VStr "d1")); Some (Some (VStr "d2"))] ∧
         getDecks (ls st1) !! 1 = migrateDeck d.
Proof.
  intros st d.
  destruct (save_deck_upserts d "d2" st eq_refl) as (st1 & H1 & Hls & _).
  exists st1. split; [exact H1|]. rewrite Hls. split; reflexivity.
Defined.

Lemma string_id_prop_is s x : string_id x = Some s ↔ prop_is "id" s x.
Proof.
  unfold string_id, prop_is.
  destruct (get_prop "id" x) as [[[]|]|]; split; congruence.
Qed.

Lemma map_has_set k k' v m :
  HomePage.map_has k (HomePage.map_set k' v m)
  = HomePage.map_has k m || HomePage.same_value_zero k' k.
Proof.
  induction m as [|[k0 v0] m IH]; simpl.
  { by rewrite orb_false_r. }
  destruct (HomePage.same_value_zero k0 k') eqn:E; simpl.
  - apply same_value_zero_eq in E as ->.
    destruct (HomePage.same_value_zero k' k); simpl; [done|].
    by rewrite orb_false_r.
  - rewrite IH. by rewrite orb_assoc.
Qed.

Lemma map_has_foldl k entries m :
  HomePage.map_has k (foldl (λ m e, HomePage.map_set e.1 e.2 m) m entries)
  = HomePage.map_has k m || existsb (λ e, HomePage.same_value_zero e.1 k) entries.
Proof.
  revert m. induction entries as [|e es IH]; intros m; simpl.
  { by rewrite orb_false_r. }
  by rewrite IH, map_has_set, orb_assoc.
Qed.

(** The keys of the map built from a batch with string identifiers. *)
Lemma words_by_id_keys batch :
  Forall (λ w, is_Some (string_id w)) batch →
  ∃ m, HomePage.words_by_id batch = Some m ∧
       ∀ x, x ≠ VNull →
            (∃ b, (i ← get_prop "id" x; Some (negb (HomePage.map_has i m)))
                  = Some b ∧
                  (b = true ↔ not_among (omap string_id batch) x)).
Proof.
  intros Hb. unfold HomePage.words_by_id.
  assert (mapM (λ w, i ← get_prop "id" w; Some (i, w)) batch
          = Some ((λ w, (Some (VStr (default "" (string_id w))), w)) <$> batch))
    as ->.
  { apply mapM_Some. induction Hb as [|w ws [s Hs] _ IH]; constructor; [|done].
    rewrite Hs. apply string_id_prop_is in Hs. unfold prop_is in Hs.
    by rewrite Hs. }
  eexists. split; [reflexivity|]. intros x Hx.
  destruct (get_prop "id" x) as [i|] eqn:Ei; [|by destruct x].
  simpl. eexists. split; [reflexivity|].
  rewrite map_has_foldl. simpl. rewrite negb_true_iff, <-not_true_iff_false.
  unfold not_among, string_id. rewrite Ei.
  rewrite existsb_exists.
  assert ((∃ e, In e ((λ w, (Some (VStr (default "" (string_id w))), w)) <$> batch)
                ∧ HomePage.same_value_zero e.1 i = true)
          ↔ ∃ s, i = Some (VStr s) ∧ s ∈ omap string_id batch) as ->.
  { split.
    - intros (e & Hin%list_elem_of_In & He).
      apply list_elem_of_fmap in Hin as (w & -> & Hw). cbn [fst] in He.
      apply same_value_zero_eq in He as <-. eexists. split; [done|].
      rewrite Forall_forall in Hb. destruct (Hb w Hw) as [s Hs]. rewrite Hs.
      apply list_elem_of_omap. eauto.
    - intros (s & -> & Hin). apply list_elem_of_omap in Hin as (w & Hw & Hs).
      eexists (_, w). split.
      + apply list_elem_of_In, list_elem_of_fmap. eauto.
      + simpl. rewrite Hs. apply same_value_zero_str. }
  destruct i as [[| | |s'| |]|]; try (split; [done|by intros _ (? & ? & _)]).
  split.
  - intros Hno Hin. apply Hno. eauto.
  - intros Hno (s & [= <-] & Hin). done.
Qed.

Lemma filter_all {A} (P : A → Prop) `{!∀ x, Decision (P x)} l :
  Forall P l → filter P l = l.
Proof.
  induction 1 as [|x l Hx _ IH]; [done|].
  by rewrite filter_cons, decide_True, IH.
Qed.

Lemma filter_none {A} (P : A → Prop) `{!∀ x, Decision (P x)} l :
  Forall (λ x, ¬ P x) l → filter P l = [].
Proof.
  induction 1 as [|x l Hx _ IH]; [done|].
  by rewrite filter_cons, decide_False, IH.
Qed.

Lemma string_id_migrated w r : migrateWordCard w = Some r → string_id r = string_id w.
Proof. intros H. unfold string_id. by rewrite (migrateWordCard_id _ _ H). Qed.

(** X15.  Saving words whose [id] is a string is an upsert by [id]: the
    words read whose [id] is not in the batch are kept in their order and
    the batch is appended, so a word of the batch replaces the stored one
    with its [id] (and moves to the end); the view returns home and the
    words being edited are cleared.  If the words read and the batch each
    have pairwise different identifiers, so have the words stored; and
    saving the same batch a second time stores the same words. *)
Theorem save_words_upserts batch st :
  Forall (λ w, is_Some (string_id w)) batch →
  let ids := omap string_id batch in
  let kept := filter (not_among ids) (getWords (ls st)) in
  ∃ st1,
    handleSaveWords batch st = Some st1 ∧
    ls st1 = saveWords (kept ++ batch) (ls st) ∧
    view st1 = home ∧ editingWords st1 = None ∧
    (NoDup (omap string_id (getWords (ls st))) → NoDup ids →
     NoDup (omap string_id (kept ++ batch))) ∧
    ∃ st2, handleSaveWords batch st1 = Some st2 ∧ ls st2 = ls st1.
Proof.
  intros Hb ids kept.
  destruct (words_by_id_keys batch Hb) as (m & Hm & Hp).
  destruct (getters_not_null (ls st)) as (_ & _ & Nw).
  destruct (getters_fixed (ls st)) as (_ & _ & Fw).
  assert (∀ xs, Forall (λ x, x ≠ VNull) xs →
            HomePage.filter_js
              (λ w, i ← get_prop "id" w; Some (negb (HomePage.map_has i m))) xs
            = Some (filter (not_among ids) xs)) as Hfilter.
  { intros xs Hxs. apply filter_js_spec.
    eapply Forall_impl; [exact Hxs|]. intros x Hx. by apply Hp. }
  unfold handleSaveWords at 1. rewrite Hm. cbn [mbind option_bind].
  rewrite (Hfilter _ Nw). cbn [mbind option_bind]. fold kept.
  eexists. split; [reflexivity|]. simpl. split_and!; [done..| |].
  - intros Hnd0 Hnd. rewrite omap_app. apply NoDup_app. split_and!; [|  |done].
    + subst kept. clear -Hnd0. induction (getWords (ls st)) as [|x xs IH]; [done|].
      rewrite filter_cons. simpl in Hnd0.
      destruct (string_id x) as [s|] eqn:Es.
      * apply NoDup_cons in Hnd0 as [Hs Hnd0].
        destruct (decide (not_among ids x)); [|by apply IH].
        simpl. rewrite Es. apply NoDup_cons. split; [|by apply IH].
        intros Hin. apply Hs. apply list_elem_of_omap in Hin as (y & Hy & Hys).
        apply list_elem_of_filter in Hy as [_ Hy].
        apply list_elem_of_omap. eauto.
      * destruct (decide (not_among ids x)); [|by apply IH].
        simpl. rewrite Es. by apply IH.
    + intros s Hin Hin'.
      apply list_elem_of_omap in Hin as (x & Hx & Hs).
      apply list_elem_of_filter in Hx as [Hx _].
      unfold not_among in Hx. by rewrite Hs in Hx.
  - assert (∃ batch', mapM migrateWordCard batch = Some batch' ∧
              Forall (λ x, x ≠ VNull ∧ ¬ not_among ids x) batch')
      as (batch' & Hbatch & Hdrop).
    { destruct (mapM migrateWordCard batch) as [batch'|] eqn:E.
      - exists batch'. split; [done|].
        pose proof (migrated_not_null _ _ _ migrateWordCard_fix eq_refl E) as Hnn.
        apply mapM_Some in E. rewrite Forall_forall in Hnn, Hb.
        apply Forall_forall. intros y Hy. split; [by apply Hnn|].
        apply list_elem_of_lookup in Hy as [n Hn].
        destruct (Forall2_lookup_r _ _ _ _ _ E Hn) as (x & Hx & Hxy).
        apply list_elem_of_lookup_2 in Hx. destruct (Hb x Hx) as [s Hs].
        unfold not_among. rewrite (string_id_migrated _ _ Hxy), Hs.
        intros Hno. apply Hno. apply list_elem_of_omap. eauto.
      - apply mapM_None, Exists_exists in E as (x & Hin & Hx).
        rewrite Forall_forall in Hb. destruct (Hb x Hin) as [s' Hs'].
        by destruct x. }
    assert (getWords (saveWords (kept ++ batch) (ls st)) = kept ++ batch')
      as Hread.
    { unfold getWords, saveWords. rewrite lookup_insert_eq.
      assert (mapM migrateWordCard (kept ++ batch) = Some (kept ++ batch'))
        as ->; [|done].
      apply mapM_Some, Forall2_app; apply mapM_Some; [|done].
      by apply mapM_filter_fixed. }
    unfold handleSaveWords. simpl. rewrite Hm, Hread. cbn [mbind option_bind].
    rewrite Hfilter.
    2:{ apply Forall_app. split.
        - apply Forall_forall. intros x [_ Hx]%list_elem_of_filter.
          rewrite Forall_forall in Nw. by apply Nw.
        - eapply Forall_impl; [exact Hdrop|]. by intros x [? _]. }
    cbn [mbind option_bind]. eexists. split; [reflexivity|]. simpl.
    rewrite filter_app, filter_all, filter_none, app_nil_r.
    + unfold saveWords. by rewrite insert_insert_eq.
    + eapply Forall_impl; [exact Hdrop|]. by intros x [_ ?].
    + apply Forall_forall. by intros x [? _]%list_elem_of_filter.
Qed.

Lemma save_words_upserts_witness :
  let st := {| ls := saveWords [VObj [("id", VStr "w1"); ("word", VStr "apple")];
                                VObj [("id", VStr "w2"); ("word", VStr "pear")]] ∅;
               view := editWords; editingDeck := None; editingWords := None;
               studyingDeck := None; viewingStory := None;
               generatingStoryForDeck := None |} in
  let batch := [VObj [("id", VStr "w1"); ("word", VStr "apples")]] in
  ∃ st1, handleSaveWords batch st = Some st1 ∧
         (λ x, get_prop "word" x) <$> getWords (ls st1)
           = [Some (Some (VStr "pear")); Some (Some (VStr "apples"))].
Proof.
  intros st batch.
  assert (Forall (λ w, is_Some (string_id w)) batch) as Hb.
  { repeat constructor. by eexists. }
  destruct (save_words_upserts batch st Hb) as (st1 & H1 & Hls & _).
  exists st1. split; [exact H1|]. rewrite Hls. reflexivity.
Defined.

(** X16.  Saving a story puts it in front of the stories read, touches
    neither the decks nor the words, returns the view home and clears the
    deck a story was being generated for.  Stories are not identified:
    saving the same story twice stores it twice.  A story other than
    [null] is read back, migrated, in front of the stories read before. *)
Theorem save_story_prepends story st :
  let st1 := handleSaveStory story st in
  ls st1 = saveStories (story :: getStories (ls st)) (ls st) ∧
  getDecks (ls st1) = getDecks (ls st) ∧ getWords (ls st1) = getWords (ls st) ∧
  view st1 = home ∧ generatingStoryForDeck st1 = None ∧
  (∀ ms, migrateStory story = Some ms →
     getStories (ls st1) = ms :: getStories (ls st) ∧
     getStories (ls (handleSaveStory story st1))
       = ms :: ms :: getStories (ls st)) ∧
  (story = VNull → getStories (ls st1) = []).
Proof.
  intros st1. subst st1. unfold handleSaveStory. simpl.
  destruct (getters_fixed (ls st)) as (_ & Fs & _).
  split_and!; try done.
  - by getters.
  - by getters.
  - intros ms Hms.
    assert (∀ l ss, mapM migrateStory ss = Some ss →
              getStories (saveStories (story :: ss) l) = ms :: ss) as Hread.
    { intros l ss Hss. unfold getStories, saveStories. rewrite lookup_insert_eq.
      change (mapM migrateStory (story :: ss)) with
        (y ← migrateStory story; k ← mapM migrateStory ss; mret (y :: k)).
      by rewrite Hms, Hss. }
    rewrite (Hread _ _ Fs). split; [done|]. apply Hread.
    change (mapM migrateStory (ms :: getStories (ls st))) with
      (y ← migrateStory ms; k ← mapM migrateStory (getStories (ls st));
       mret (y :: k)).
    by rewrite (migrateStory_fix _ _ Hms), Fs.
  - intros ->. unfold getStories, saveStories. by rewrite lookup_insert_eq.
Qed.



End AppFacts.

(** ** Word lists *)

Module WordListFacts.
Import Gemini WordLists Vocabulary WordFacts.

(** *** Characters kept by trimming and lower-casing *)






Lemma trim_white s : all_chars is_white s = true → trim s = "".
Proof.
  unfold trim. induction s as [|c s IH]; simpl; [done|].
  intros [Hc Hs]%andb_true_iff. rewrite Hc. by apply IH.
Qed.

Lemma trimEnd_nil s : trimEnd s = "" → all_chars is_white s = true.
Proof.
  induction s as [|c s IH]; simpl; [done|].
  destruct (trimEnd s) as [|c' r]; [|done].
  destruct (is_white c) eqn:Hc; [|done]. intros _. by rewrite IH.
Qed.

Lemma trim_nil s : trim s = "" → all_chars is_white s = true.
Proof.
  unfold trim. induction s as [|c s IH]; simpl; [done|].
  destruct (is_white c) eqn:Hc; [by apply IH|].
  intros H%trimEnd_nil. simpl in H. by rewrite Hc in H.
Qed.

(** *** The pieces of a split *)


Lemma split_runs_pieces p b s :
  all_chars p s = true →
  Forall (λ w, all_chars (λ c, p c && negb (is_separator c)) w = true)
    (split_runs b s).
Proof.
  revert b. induction s as [|c s IH]; intros b; simpl; [by repeat constructor|].
  intros [Hc Hs]%andb_true_iff.
  destruct (is_separator c) eqn:Ec.
  - destruct b; [by apply IH|]. constructor; [done|by apply IH].
  - specialize (IH false Hs). destruct (split_runs false s) as [|w ws]; simpl.
    + repeat constructor. simpl. by rewrite Hc, Ec.
    + apply Forall_cons in IH as [Hw Hws]. constructor; [|done].
      simpl. by rewrite Hc, Ec, Hw.
Qed.


Lemma all_chars_impl (p q : ascii → bool) s :
  (∀ c, p c = true → q c = true) → all_chars p s = true → all_chars q s = true.
Proof.
  intros Hpq. induction s as [|c s IH]; simpl; [done|].
  intros [Hc Hs]%andb_true_iff. by rewrite (Hpq _ Hc), IH.
Qed.

(** *** [words_of] *)


Lemma words_of_normalize pieces : normalize pieces = unique (words_of pieces).
Proof. done. Qed.

Lemma words_of_fixed ws : Forall normal ws → words_of ws = ws.
Proof.
  unfold words_of. induction 1 as [|w ws [Hw Hne] _ IH]; [done|].
  rewrite fmap_cons, filter_cons, Hw, decide_True by done. by rewrite IH.
Qed.

Lemma words_of_app xs ys : words_of (xs ++ ys) = words_of xs ++ words_of ys.
Proof. unfold words_of. by rewrite fmap_app, filter_app. Qed.

Lemma words_of_nonempty pieces :
  words_of (filter (λ w, w ≠ "") pieces) = words_of pieces.
Proof.
  unfold words_of. induction pieces as [|w ws IH]; [done|].
  rewrite filter_cons. destruct (decide (w ≠ "")) as [Hw|Hw].
  - rewrite !fmap_cons, !filter_cons, IH. done.
  - apply dec_stable in Hw as ->. rewrite IH, fmap_cons, filter_cons.
    by rewrite decide_False by (intros H; by apply H).
Qed.




(** *** Pieces that are not empty *)

Lemma nonempty_pieces_flag s :
  filter (λ w, w ≠ "") (split_runs true s) = filter (λ w, w ≠ "") (split_runs false s).
Proof.
  destruct s as [|c s]; [done|]. simpl. destruct (is_separator c); [|done].
  by rewrite filter_cons, decide_False by (intros H; by apply H).
Qed.

Lemma nonempty_pieces_sep c s :
  is_separator c = true →
  filter (λ w, w ≠ "") (split_runs false (String c s))
  = filter (λ w, w ≠ "") (split_runs false s).
Proof.
  intros Hc. simpl. rewrite Hc, filter_cons.
  rewrite decide_False by (intros H; by apply H). apply nonempty_pieces_flag.
Qed.

(** Splitting [a ++ c ++ b] at a separator [c]: the first piece is that
    of [a], and the pieces that are not empty are those of [a] and then
    those of [b]. *)
Lemma split_runs_app_sep c a b :
  is_separator c = true →
  ∃ hd tl tl',
    split_runs false a = hd :: tl ∧
    split_runs false (String.append a (String c b)) = hd :: tl' ∧
    filter (λ w, w ≠ "") tl' =
      filter (λ w, w ≠ "") tl ++ filter (λ w, w ≠ "") (split_runs false b).
Proof.
  intros Hc. induction a as [|x a (hd & tl & tl' & Ha & Hab & Hne)].
  { simpl. rewrite Hc. exists "", [], (split_runs true b).
    split_and!; [done|done|]. apply nonempty_pieces_flag. }
  simpl. destruct (is_separator x) eqn:Hx.
  - exists "", (split_runs true a), (split_runs true (String.append a (String c b))).
    split_and!; [done|done|].
    rewrite !nonempty_pieces_flag, Ha, Hab, !filter_cons, Hne.
    by destruct (decide (hd ≠ "")).
  - rewrite Ha, Hab. by exists (String x hd), tl, tl'.
Qed.

Lemma nonempty_pieces_app_sep c a b :
  is_separator c = true →
  filter (λ w, w ≠ "") (split_runs false (String.append a (String c b)))
  = filter (λ w, w ≠ "") (split_runs false a)
    ++ filter (λ w, w ≠ "") (split_runs false b).
Proof.
  intros Hc. destruct (split_runs_app_sep c a b Hc)
    as (hd & tl & tl' & -> & -> & Hne).
  rewrite !filter_cons, Hne. by destruct (decide (hd ≠ "")).
Qed.

Lemma split_runs_word w :
  all_chars (λ c, negb (is_separator c)) w = true → split_runs false w = [w].
Proof.
  induction w as [|c w IH]; [done|]. simpl.
  intros [Hc Hw]%andb_true_iff. apply negb_true_iff in Hc. by rewrite Hc, IH.
Qed.

Lemma nonempty_pieces_join ws :
  Forall (λ w, w ≠ "" ∧ all_chars (λ c, negb (is_separator c)) w = true) ws →
  filter (λ w, w ≠ "")
    (split_runs false (join (String "," (String "010" EmptyString)) ws)) = ws.
Proof.
  induction 1 as [|w ws [Hne Hw] Hws IH]; [done|].
  destruct ws as [|w' ws].
  { simpl. by rewrite split_runs_word, filter_cons, decide_True by done. }
  change (join ?sep (w :: w' :: ws)) with
    (String.append w (String "," (String "010" (join sep (w' :: ws))))).
  rewrite nonempty_pieces_app_sep by done.
  rewrite split_runs_word, filter_cons, decide_True by done.
  rewrite nonempty_pieces_sep by done. by rewrite IH.
Qed.

Lemma handleGenerate_words_nonempty s :
  handleGenerate_words s
  = words_of (filter (λ w, w ≠ "") (split_runs false s)).
Proof. unfold handleGenerate_words. by rewrite words_of_nonempty. Qed.

Lemma handleGenerate_words_blank s : trim s = "" → handleGenerate_words s = [].
Proof.
  intros Hs%trim_nil. unfold handleGenerate_words, words_of.
  apply AppFacts.filter_none, Forall_fmap, Forall_forall.
  intros w Hw Hne. apply Hne. simpl.
  pose proof (split_runs_pieces _ false _ Hs) as HF. rewrite Forall_forall in HF.
  rewrite trim_white; [done|]. eapply all_chars_impl; [|exact (HF w Hw)].
  intros c. simpl. by destruct (is_white c).
Qed.

(** X18.  The prompt survives the word-list helper.  When the generated
    words are normal and hold no separator, and at least one of them is
    not yet in the prompt, the words [handleGenerate] reads from the
    updated prompt are those it read from the former prompt followed by the
    generated words that are not among the trimmed pieces of the former
    prompt, in order (pieces are compared as written, so a word that the
    prompt holds in another case is added again).  When every generated
    word is already in the prompt, the updater returns the empty prompt. *)
Theorem prompt_round_trip words prev :
  Forall (λ w, normal w ∧
               all_chars (λ c, negb (is_separator c)) w = true) words →
  let existingWords := filter (λ w, w ≠ "") (trim <$> split_runs false prev) in
  let newWords := filter (λ w, w ∉ existingWords) words in
  (newWords ≠ [] →
   handleGenerate_words (prompt_updater words prev)
   = handleGenerate_words prev ++ newWords) ∧
  (newWords = [] → prompt_updater words prev = "").
Proof.
  intros Hwords existingWords newWords.
  assert (Forall (λ w, normal w ∧
                       all_chars (λ c, negb (is_separator c)) w = true) newWords)
    as Hnew.
  { apply Forall_forall. intros w [_ Hw]%list_elem_of_filter.
    rewrite Forall_forall in Hwords. by apply Hwords. }
  assert (handleGenerate_words
            (join (String "," (String "010" EmptyString)) newWords) = newWords)
    as Hjoin.
  { rewrite handleGenerate_words_nonempty, nonempty_pieces_join.
    - apply words_of_fixed. eapply Forall_impl; [exact Hnew|]. by intros w [? _].
    - eapply Forall_impl; [exact Hnew|]. by intros w [[_ ?] ?]. }
  unfold prompt_updater. fold existingWords newWords. split.
  - intros Hne. rewrite (bool_decide_eq_true_2 (newWords ≠ [])), andb_true_r by done.
    case_bool_decide as Hprev.
    + rewrite handleGenerate_words_nonempty.
      change (String.append (String "," (String "010" EmptyString)) ?x)
        with (String "," (String "010" x)).
      rewrite nonempty_pieces_app_sep, nonempty_pieces_sep by done.
      rewrite words_of_app, <-!handleGenerate_words_nonempty. by rewrite Hjoin.
    + by rewrite Hjoin, (handleGenerate_words_blank _ Hprev).
  - intros ->. by rewrite andb_false_r.
Qed.

Lemma prompt_round_trip_witness :
  handleGenerate_words
    (prompt_updater ["apple"; "kiwi"] "Kiwi, pear")
  = ["kiwi"; "pear"; "apple"; "kiwi"].
Proof.
  assert (Forall (λ w, normal w ∧
                       all_chars (λ c, negb (is_separator c)) w = true)
            ["apple"; "kiwi"]) as Hwords.
  { repeat constructor; done. }
  destruct (prompt_round_trip ["apple"; "kiwi"] "Kiwi, pear" Hwords) as [Hadd _].
  rewrite Hadd; [reflexivity|]. by vm_compute.
Defined.

End WordListFacts.

(** ** The deck editor *)

Module EditDeckFacts.
Import Storage EditDeckPage Vocabulary.
Import ObjFacts StorageFacts HomePageFacts StoreReads PageFacts UpgradeFacts
  AppFacts WordFacts.

Lemma same_value_zero_object k o : HomePage.same_value_zero k (Some (VObj o)) = false.
Proof. by destruct k as [[]|]. Qed.

Lemma map_get_object o m : map_get (Some (VObj o)) m = None.
Proof.
  unfold map_get. induction m as [|[k v] m IH]; [done|].
  simpl. by rewrite same_value_zero_object.
Qed.

Lemma same_value_zero_sym a b :
  HomePage.same_value_zero a b = HomePage.same_value_zero b a.
Proof.
  destruct a as [[]|], b as [[]|]; simpl; try done.
  - by destruct b0, b.
  - apply Z.eqb_sym.
  - apply String.eqb_sym.
Qed.

Lemma map_get_set k k' v m :
  map_get k (HomePage.map_set k' v m)
  = if HomePage.same_value_zero k' k then Some v else map_get k m.
Proof.
  unfold map_get. induction m as [|[k0 v0] m IH]; simpl.
  { by destruct (HomePage.same_value_zero k' k). }
  destruct (HomePage.same_value_zero k0 k') eqn:E0; simpl.
  - apply same_value_zero_eq in E0 as ->.
    by destruct (HomePage.same_value_zero k' k).
  - destruct (HomePage.same_value_zero k0 k) eqn:E1; [|exact IH].
    apply same_value_zero_eq in E1 as ->.
    by rewrite same_value_zero_sym, E0.
Qed.

Lemma map_get_foldl k entries m :
  map_get k (foldl (λ m e, HomePage.map_set e.1 e.2 m) m entries)
  = match last (filter (λ e, HomePage.same_value_zero e.1 k = true) entries) with
    | Some e => Some e.2
    | None => map_get k m
    end.
Proof.
  revert m. induction entries as [|e es IH]; intros m; [done|].
  simpl. rewrite IH, map_get_set, filter_cons.
  destruct (decide (HomePage.same_value_zero e.1 k = true)) as [He|He].
  - rewrite He. destruct (filter _ es) as [|e' es']; [done|].
    rewrite last_cons_cons. destruct (last (e' :: es')) eqn:El; [done|].
    by apply last_None in El.
  - apply not_true_is_false in He. by rewrite He.
Qed.

(** The word that the map of all words holds for a string identifier: the
    last word read with that [id]. *)
Lemma allWordsMap_get l s :
  ∃ m, allWordsMap l = Some m ∧
       map_get (Some (VStr s)) m = last (filter (prop_is "id" s) (getWords l)).
Proof.
  unfold allWordsMap, HomePage.words_by_id.
  destruct (getters_not_null l) as (_ & _ & Nw).
  assert (mapM (λ w, i ← get_prop "id" w; Some (i, w)) (getWords l)
          = Some ((λ w, (default None (get_prop "id" w), w)) <$> getWords l))
    as ->.
  { apply mapM_Some. induction Nw as [|w ws Hw _ IH]; constructor; [|done].
    destruct (get_prop "id" w) eqn:E; [done|by destruct w]. }
  eexists. split; [reflexivity|]. rewrite map_get_foldl.
  assert (filter (λ e, HomePage.same_value_zero e.1 (Some (VStr s)) = true)
            ((λ w, (default None (get_prop "id" w), w)) <$> getWords l)
          = (λ w, (default None (get_prop "id" w), w))
              <$> filter (prop_is "id" s) (getWords l)) as ->.
  { induction Nw as [|w ws Hw _ IH]; [done|].
    rewrite fmap_cons, !filter_cons. cbn [fst].
    assert (HomePage.same_value_zero (default None (get_prop "id" w))
              (Some (VStr s)) = true ↔ prop_is "id" s w) as Hiff.
    { unfold prop_is. destruct (get_prop "id" w) as [a|] eqn:E; [|by destruct w].
      simpl. rewrite (strict_eq_str_iff a s). split; congruence. }
    destruct (decide (prop_is "id" s w)) as [Hp|Hp].
    - rewrite decide_True by by apply Hiff. by rewrite fmap_cons, IH.
    - by rewrite decide_False by by rewrite Hiff. }
  rewrite fmap_last. by destruct (last (filter (prop_is "id" s) (getWords l))).
Qed.

(** X19.  What the deck editor shows.  For a deck as [getDecks] returns
    it the editor shows no card, whatever words are stored: its membership
    list holds objects, which are keys of no entry of the map.  For a deck
    whose [cards] holds identifier strings it shows, in the order of the
    list, for each identifier the last stored word with that [id], and
    nothing for an identifier without a word. *)
Theorem displayed_cards l d :
  (∀ l0 m, d ∈ getDecks l0 → cardsForDeck d m = Some []) ∧
  (∀ o ids, d = VObj o → obj_lookup "cards" o = Some (VArr (VStr <$> ids)) →
     ∃ m, allWordsMap l = Some m ∧
          cardsForDeck d m
          = Some (omap (λ s, last (filter (prop_is "id" s) (getWords l))) ids)).
Proof.
  split.
  - intros l0 m Hd.
    pose proof (getDecks_cards_objects l0) as HF. rewrite Forall_forall in HF.
    destruct (HF d Hd) as (o & ids & -> & Hc & Hobj).
    unfold cardsForDeck. simpl. rewrite Hc. simpl. f_equal.
    clear Hc Hd HF. induction Hobj as [|c cs (o' & ->) _ IH]; [done|].
    cbn [omap list_omap]. by rewrite map_get_object.
  - intros o ids -> Hc.
    destruct (allWordsMap_get l "") as (m & Hm & _). exists m. split; [done|].
    unfold cardsForDeck. simpl. rewrite Hc. simpl. f_equal. clear Hc.
    induction ids as [|s ids IH]; [done|].
    rewrite fmap_cons. cbn [omap list_omap].
    destruct (allWordsMap_get l s) as (m' & Hm' & Hget).
    rewrite Hm in Hm'. injection Hm' as <-. by rewrite Hget, IH.
Qed.

(** *** Membership *)

Lemma set_values_step acc x :
  (if existsb (λ y, HomePage.same_value_zero (Some y) (Some (VStr x)))
        (VStr <$> acc)
   then VStr <$> acc else (VStr <$> acc) ++ [VStr x])
  = VStr <$> Gemini.set_add acc x.
Proof.
  unfold Gemini.set_add.
  assert (existsb (λ y, HomePage.same_value_zero (Some y) (Some (VStr x)))
            (VStr <$> acc) = bool_decide (x ∈ acc)) as ->.
  { induction acc as [|a acc IHa]; [done|]. rewrite fmap_cons.
    cbn [existsb].
    change (HomePage.same_value_zero (Some (VStr a)) (Some (VStr x)))
      with (String.eqb a x).
    rewrite IHa. destruct (String.eqb_spec a x) as [->|Hne].
    - simpl. symmetry. apply bool_decide_eq_true_2. by left.
    - simpl. apply bool_decide_ext. rewrite elem_of_cons. naive_solver. }
  case_bool_decide; [done|]. by rewrite fmap_app.
Qed.

Lemma set_values_strings xs : set_values (VStr <$> xs) = VStr <$> Gemini.unique xs.
Proof.
  unfold set_values, Gemini.unique.
  assert (∀ acc,
            foldl (λ seen x,
                     if existsb (λ y, HomePage.same_value_zero (Some y) (Some x))
                          seen
                     then seen else seen ++ [x]) (VStr <$> acc) (VStr <$> xs)
            = VStr <$> foldl Gemini.set_add acc xs) as Hgen.
  { induction xs as [|x xs IH]; intros acc; [done|].
    rewrite fmap_cons. cbn [foldl]. by rewrite set_values_step, IH. }
  apply (Hgen []).
Qed.

Lemma filter_strings wordId (ids : list string) :
  filter (λ id, negb (strict_eq_str (Some id) wordId)) (VStr <$> ids)
  = VStr <$> filter (λ s, s ≠ wordId) ids.
Proof.
  induction ids as [|s ids IH]; [done|].
  rewrite fmap_cons, !filter_cons, IH. simpl.
  destruct (String.eqb_spec s wordId) as [->|Hne]; simpl.
  - by rewrite decide_False by (intros H; by apply H).
  - by rewrite decide_True.
Qed.

Lemma obj_set_set k v v' o : obj_set k v (obj_set k v' o) = obj_set k v o.
Proof.
  induction o as [|[k0 v0] o IH]; simpl.
  { by rewrite String.eqb_refl. }
  destruct (String.eqb k0 k) eqn:E; simpl; rewrite E; [done|]. by rewrite IH.
Qed.

Lemma set_add_prefix acc xs : acc `prefix_of` foldl Gemini.set_add acc xs.
Proof.
  revert acc. induction xs as [|x xs IH]; intros acc; [done|].
  simpl. etrans; [|apply IH]. unfold Gemini.set_add.
  case_bool_decide; [done|]. by apply prefix_app_r.
Qed.

(** X20.  The membership list under the deck editor.  On a deck whose
    [cards] holds identifier strings, removing a word leaves the other
    identifiers in their order and nothing else changed; adding the
    identifiers of new cards appends those not yet present, once each, so
    the list has no duplicates and, when it had none, starts with the
    former list; and adding an identifier that was not there and removing
    it again gives back the deck. *)
Theorem membership_updates o (ids : list string) :
  obj_lookup "cards" o = Some (VArr (VStr <$> ids)) →
  (∀ wordId,
     handleRemoveWordFromDeck wordId (VObj o)
     = Some (VObj (obj_set "cards"
                     (VArr (VStr <$> filter (λ s, s ≠ wordId) ids)) o))) ∧
  (∀ new,
     handleAddWords_deck (VStr <$> new) (VObj o)
     = Some (VObj (obj_set "cards"
                     (VArr (VStr <$> Gemini.unique (ids ++ new))) o)) ∧
     NoDup (Gemini.unique (ids ++ new)) ∧
     (∀ s, s ∈ Gemini.unique (ids ++ new) ↔ s ∈ ids ∨ s ∈ new) ∧
     (NoDup ids → ids `prefix_of` Gemini.unique (ids ++ new))) ∧
  (∀ w, NoDup ids → w ∉ ids →
     handleAddWords_deck [VStr w] (VObj o) ≫= handleRemoveWordFromDeck w
     = Some (VObj o)).
Proof.
  intros Hc.
  assert (∀ wordId l o',
            obj_lookup "cards" o' = Some (VArr (VStr <$> l)) →
            handleRemoveWordFromDeck wordId (VObj o')
            = Some (VObj (obj_set "cards"
                            (VArr (VStr <$> filter (λ s, s ≠ wordId) l)) o')))
    as Hremove.
  { intros wordId l o' Hl.
    unfold handleRemoveWordFromDeck, HomePage.without_word. cbn [get_prop].
    rewrite Hl. cbn [mbind option_bind]. by rewrite filter_strings. }
  assert (∀ new,
            handleAddWords_deck (VStr <$> new) (VObj o)
            = Some (VObj (obj_set "cards"
                            (VArr (VStr <$> Gemini.unique (ids ++ new))) o)))
    as Hadd.
  { intros new. unfold handleAddWords_deck, spread_with, obj_assign.
    simpl. rewrite Hc. simpl. by rewrite <-fmap_app, set_values_strings. }
  split_and!.
  - intros wordId. by apply Hremove.
  - intros new. split_and!.
    + apply Hadd.
    + apply NoDup_unique.
    + intros s. rewrite elem_of_unique. apply elem_of_app.
    + intros Hnd. unfold Gemini.unique. rewrite foldl_app.
      change (foldl Gemini.set_add [] ids) with (Gemini.unique ids).
      rewrite (unique_NoDup _ Hnd). apply set_add_prefix.
  - intros w Hnd Hw. change [VStr w] with (VStr <$> [w]).
    rewrite (Hadd [w]). cbn [mbind option_bind].
    assert (NoDup (ids ++ [w])) as Hnd'.
    { apply NoDup_app. split_and!; [done| |apply NoDup_singleton].
      intros x Hx ->%list_elem_of_singleton. done. }
    rewrite (unique_NoDup _ Hnd').
    rewrite (Hremove w (ids ++ [w])) by apply obj_lookup_set_eq.
    rewrite obj_set_set, filter_app, filter_all, filter_none, app_nil_r.
    + by rewrite obj_set_id.
    + repeat constructor. by intros H.
    + apply Forall_forall. intros x Hx ->. done.
Qed.

Lemma membership_updates_witness :
  let d := VObj [("id", VStr "d1"); ("cards", VArr [VStr "w1"; VStr "w2"])] in
  handleRemoveWordFromDeck "w1" d
    = Some (VObj [("id", VStr "d1"); ("cards", VArr [VStr "w2"])]) ∧
  handleAddWords_deck [VStr "w2"; VStr "w3"] d
    = Some (VObj [("id", VStr "d1");
                  ("cards", VArr [VStr "w1"; VStr "w2"; VStr "w3"])]).
Proof.
  intros d.
  destruct (membership_updates [("id", VStr "d1");
                                ("cards", VArr [VStr "w1"; VStr "w2"])]
              ["w1"; "w2"] eq_refl) as (Hremove & Hadd & _).
  split.
  - exact (Hremove "w1").
  - exact (proj1 (Hadd ["w2"; "w3"])).
Defined.

(** X21.  Editing a card in the deck editor never adds or removes a
    stored word.  For a card whose [id] is a string, the first word read
    with that [id] is replaced at its place and the words are stored; when
    no word read has that [id] the store is left untouched and the edit is
    not persisted.  Either way the identifiers of the stored words, in
    order, and the decks are as before; and among the displayed cards
    exactly those with that [id] are replaced by the card. *)
Theorem card_update_in_place updatedCard s l :
  prop_is "id" s updatedCard →
  let allWords := getWords l in
  let l' := match list_find (prop_is "id" s) allWords with
            | Some (i, _) => saveWords (<[i := updatedCard]> allWords) l
            | None => l
            end in
  handleCardUpdate_store updatedCard l = Some l' ∧
  string_id <$> getWords l' = string_id <$> allWords ∧
  getDecks l' = getDecks l ∧ getStories l' = getStories l ∧
  (∀ prev, Forall (λ c, c ≠ VNull) prev →
     handleCardUpdate_displayed updatedCard prev
     = Some ((λ c, if decide (prop_is "id" s c) then updatedCard else c)
               <$> prev)).
Proof.
  intros Hs allWords l'.
  assert (updatedCard ≠ VNull) as Hd by (by intros ->).
  destruct (getters_not_null l) as (_ & _ & Nw).
  destruct (getters_fixed l) as (_ & _ & Fw). fold allWords in Nw, Fw.
  split_and!.
  - unfold handleCardUpdate_store. fold allWords.
    rewrite (find_by_id s) by done. cbn [mbind option_bind]. subst l'.
    by destruct (list_find _ allWords) as [[i x]|].
  - subst l'. destruct (list_find _ allWords) as [[i x]|] eqn:Hfind; [|done].
    apply list_find_Some in Hfind as (Hi & Hx & _).
    destruct (migrateWordCard updatedCard) as [cm|] eqn:Hcm; [|by destruct updatedCard].
    assert (getWords (saveWords (<[i:=updatedCard]> allWords) l)
            = <[i:=cm]> allWords) as ->.
    { unfold getWords at 1, saveWords. rewrite lookup_insert_eq.
      assert (mapM migrateWordCard (<[i:=updatedCard]> allWords)
              = Some (<[i:=cm]> allWords)) as ->; [|done].
      apply mapM_Some, Forall2_insert; [by apply mapM_Some|done]. }
    rewrite list_fmap_insert. apply list_insert_id.
    rewrite list_lookup_fmap, Hi. simpl. f_equal.
    rewrite (string_id_migrated _ _ Hcm).
    apply string_id_prop_is in Hs, Hx. congruence.
  - subst l'. destruct (list_find _ allWords) as [[i x]|]; [|done]. by getters.
  - subst l'. destruct (list_find _ allWords) as [[i x]|]; [|done]. by getters.
  - intros prev Hprev. unfold handleCardUpdate_displayed. apply mapM_Some.
    apply Forall2_fmap_r, Forall_Forall2_diag.
    eapply Forall_impl; [exact Hprev|]. intros c Hcn. unfold compose.
    pose proof Hs as Hs'. unfold prop_is in Hs'. rewrite Hs'.
    destruct (get_prop "id" c) as [a|] eqn:Ea; [|by destruct c].
    cbn [mbind option_bind]. f_equal.
    destruct (App.strict_eq a (Some (VStr s))) eqn:E.
    + apply strict_eq_str_iff in E as ->. by rewrite decide_True.
    + rewrite decide_False; [done|]. unfold prop_is. rewrite Ea. intros [= ->].
      by rewrite (proj2 (strict_eq_str_iff _ _) eq_refl) in E.
Qed.

Lemma card_update_in_place_witness :
  let l := saveWords [VObj [("id", VStr "w1"); ("word", VStr "apple")];
                      VObj [("id", VStr "w2"); ("word", VStr "pear")]] ∅ in
  (λ l', (λ x, get_prop "word" x) <$> getWords l')
    <$> handleCardUpdate_store
          (VObj [("id", VStr "w2"); ("word", VStr "pears")]) l
    = Some [Some (Some (VStr "apple")); Some (Some (VStr "pears"))] ∧
  handleCardUpdate_store (VObj [("id", VStr "w9"); ("word", VStr "plum")]) l
    = Some l.
Proof.
  intros l. split.
  - destruct (card_update_in_place
                (VObj [("id", VStr "w2"); ("word", VStr "pears")]) "w2" l eq_refl)
      as (-> & _). reflexivity.
  - destruct (card_update_in_place
                (VObj [("id", VStr "w9"); ("word", VStr "plum")]) "w9" l eq_refl)
      as (-> & _). reflexivity.
Defined.

End EditDeckFacts.

(** ** The words editor *)

Module EditWordsFacts.
Import Gemini WordLists EditWordsPage Vocabulary WordFacts WordListFacts AppFacts.

Lemma split_comma_word w :
  all_chars (λ c, negb (is_comma c)) w = true → split_comma w = [w].
Proof.
  induction w as [|c w IH]; [done|]. simpl.
  intros [Hc Hw]%andb_true_iff. apply negb_true_iff in Hc. by rewrite Hc, IH.
Qed.

Lemma split_comma_app w rest :
  all_chars (λ c, negb (is_comma c)) w = true →
  split_comma (String.append w (String "," rest)) = w :: split_comma rest.
Proof.
  induction w as [|c w IH]; [done|]. simpl.
  intros [Hc Hw]%andb_true_iff. apply negb_true_iff in Hc. by rewrite Hc, IH.
Qed.

Lemma split_comma_join ws :
  Forall (λ w, all_chars (λ c, negb (is_comma c)) w = true) ws → ws ≠ [] →
  split_comma (join "," ws) = ws.
Proof.
  induction 1 as [|w ws Hw Hws IH]; [done|]. intros _.
  destruct ws as [|w' ws]; [by apply split_comma_word|].
  change (join "," (w :: w' :: ws))
    with (String.append w (String "," (join "," (w' :: ws)))).
  rewrite split_comma_app by done. by rewrite IH.
Qed.

Lemma join_nil ws :
  Forall (λ w, w ≠ "") ws → join "," ws = "" → ws = [].
Proof.
  destruct 1 as [|w l Hw _]; [done|]. destruct w as [|c w]; [done|].
  by destruct l.
Qed.

Lemma join_inj xs ys :
  Forall (λ w, w ≠ "" ∧ all_chars (λ c, negb (is_comma c)) w = true) xs →
  Forall (λ w, w ≠ "" ∧ all_chars (λ c, negb (is_comma c)) w = true) ys →
  join "," xs = join "," ys → xs = ys.
Proof.
  intros Hxs Hys Heq.
  assert (∀ l, Forall (λ w, w ≠ "" ∧
                            all_chars (λ c, negb (is_comma c)) w = true) l →
               Forall (λ w, w ≠ "") l ∧
               Forall (λ w, all_chars (λ c, negb (is_comma c)) w = true) l)
    as Hsplit by (intros l; apply Forall_and).
  destruct (Hsplit _ Hxs) as [Nx Cx], (Hsplit _ Hys) as [Ny Cy].
  destruct (decide (xs = [])) as [->|Hx].
  { symmetry. by apply join_nil. }
  destruct (decide (ys = [])) as [->|Hy].
  { by apply join_nil. }
  by rewrite <-(split_comma_join xs), <-(split_comma_join ys), Heq.
Qed.

(** X22.  When the words editor adopts a draft.  For identifiers that
    are not empty and hold no comma, the stored draft replaces the words
    shown exactly when the draft was written for the same identifiers, in
    any order and with the same repetitions, and the confirmation is
    accepted; otherwise the words shown stay.  The stored draft is left
    under the key either way, an unreadable one is removed, and the
    comparison is not changed by reordering either list. *)
Theorem draft_adopted_for_same_ids slot initialWordIds confirmed shown :
  let after := restore_draft slot initialWordIds confirmed shown in
  (∀ draft,
     slot = Some (Stored draft) →
     Forall (λ w, w ≠ "" ∧ all_chars (λ c, negb (is_comma c)) w = true)
       initialWordIds →
     Forall (λ w, w ≠ "" ∧ all_chars (λ c, negb (is_comma c)) w = true)
       (initialIds draft) →
     after.2 = slot ∧
     (confirmed = true ∧ initialWordIds ≡ₚ initialIds draft →
      after.1 = words draft) ∧
     (¬ (confirmed = true ∧ initialWordIds ≡ₚ initialIds draft) →
      after.1 = shown)) ∧
  (slot = None ∨ slot = Some Unreadable → after = (shown, None)) ∧
  (∀ xs ys xs' ys', xs ≡ₚ xs' → ys ≡ₚ ys' → same_ids xs ys = same_ids xs' ys').
Proof.
  intros after. subst after. split_and!.
  - intros draft -> Hcur Hdraft. simpl.
    assert (same_ids initialWordIds (initialIds draft) = true
            ↔ initialWordIds ≡ₚ initialIds draft) as Hiff.
    { unfold same_ids. rewrite String.eqb_eq. split.
      - intros Heq. apply sort_eq_iff, join_inj; [| |done].
        + by rewrite sort_Permutation.
        + by rewrite sort_Permutation.
      - intros HP. apply sort_eq_iff in HP. by rewrite HP. }
    destruct (same_ids initialWordIds (initialIds draft)) eqn:E, confirmed;
      simpl; split_and!; try done.
    + intros H. destruct H. split; [done|]. by apply Hiff.
    + by intros [? _].
    + intros [_ HP]. apply Hiff in HP. done.
    + by intros [? _].
  - by intros [->| ->].
  - intros xs ys xs' ys' Hx Hy. unfold same_ids.
    apply sort_eq_iff in Hx, Hy. by rewrite Hx, Hy.
Qed.

(** Without the restriction on the identifiers the comparison of the
    joined lists takes different identifiers for the same. *)
Example joined_ids_collide :
  same_ids ["a,b"] ["a"; "b"] = true ∧ same_ids [] [""] = true.
Proof. split; reflexivity. Qed.

(** X23.  Editing a card in the words editor replaces the first card
    shown with the same [id], at its place, and nothing else: as many
    cards are shown, with the same identifiers in the same order; doing it
    a second time changes nothing; and a card whose [id] no card shown has
    is dropped. *)
Theorem words_editor_update updatedCard s shown :
  prop_is "id" s updatedCard →
  Forall (λ c, c ≠ VNull) shown →
  let shown' := match list_find (prop_is "id" s) shown with
                | Some (i, _) => <[i := updatedCard]> shown
                | None => shown
                end in
  handleCardUpdate updatedCard shown = Some shown' ∧
  length shown' = length shown ∧
  string_id <$> shown' = string_id <$> shown ∧
  handleCardUpdate updatedCard shown' = Some shown' ∧
  (Forall (λ c, ¬ prop_is "id" s c) shown → shown' = shown).
Proof.
  intros Hs Hshown shown'.
  assert (updatedCard ≠ VNull) as Hd by (by intros ->).
  assert (∀ l, Forall (λ c, c ≠ VNull) l →
            handleCardUpdate updatedCard l
            = Some match list_find (prop_is "id" s) l with
                   | Some (i, _) => <[i := updatedCard]> l
                   | None => l
                   end) as Hrun.
  { intros l Hl. unfold handleCardUpdate. rewrite (find_by_id s) by done.
    cbn [mbind option_bind]. by destruct (list_find _ l) as [[i x]|]. }
  split_and!.
  - by apply Hrun.
  - subst shown'. destruct (list_find _ shown) as [[i x]|]; [|done].
    apply length_insert.
  - subst shown'. destruct (list_find _ shown) as [[i x]|] eqn:Hfind; [|done].
    apply list_find_Some in Hfind as (Hi & Hx & _).
    rewrite list_fmap_insert. apply list_insert_id.
    rewrite list_lookup_fmap, Hi. simpl. f_equal.
    apply string_id_prop_is in Hs, Hx. congruence.
  - subst shown'. destruct (list_find _ shown) as [[i x]|] eqn:Hfind.
    + apply list_find_Some in Hfind as (Hi & Hx & Hbefore).
      assert (i < length shown) as Hlt by (by eapply lookup_lt_Some).
      rewrite Hrun by (by apply Forall_insert).
      assert (list_find (prop_is "id" s) (<[i:=updatedCard]> shown)
              = Some (i, updatedCard)) as ->.
      { apply list_find_Some. split_and!; [by apply list_lookup_insert_eq|done|].
        intros j y Hj Hji. rewrite list_lookup_insert_ne in Hj by lia. eauto. }
      by rewrite list_insert_insert_eq.
    + by rewrite Hrun, Hfind.
  - intros Hnone. subst shown'.
    by rewrite (proj2 (list_find_None (prop_is "id" s) shown) Hnone).
Qed.

Lemma words_editor_update_witness :
  handleCardUpdate (VObj [("id", VStr "w2"); ("word", VStr "pears")])
    [VObj [("id", VStr "w1"); ("word", VStr "apple")];
     VObj [("id", VStr "w2"); ("word", VStr "pear")]]
  = Some [VObj [("id", VStr "w1"); ("word", VStr "apple")];
          VObj [("id", VStr "w2"); ("word", VStr "pears")]].
Proof.
  assert (Forall (λ c, c ≠ VNull)
            [VObj [("id", VStr "w1"); ("word", VStr "apple")];
             VObj [("id", VStr "w2"); ("word", VStr "pear")]]) as Hshown.
  { repeat constructor; done. }
  destruct (words_editor_update
              (VObj [("id", VStr "w2"); ("word", VStr "pears")]) "w2" _
              eq_refl Hshown) as (-> & _).
  reflexivity.
Defined.

End EditWordsFacts.

(** ** The study session *)

Module StudyFacts.
Import StudyPage.

Section Session.

Context {card : Type}.

Lemma swap_Permutation i j (a : list card) : swap i j a ≡ₚ a.
Proof.
  unfold swap. destruct (a !! i) as [x|] eqn:Ei; [|done].
  destruct (a !! j) as [y|] eqn:Ej; [|done].
  by apply Permutation_insert_swap.
Qed.

Lemma shuffle_from_Permutation random i (a : list card) :
  shuffle_from random i a ≡ₚ a.
Proof.
  revert a. induction i as [|i IH]; intros a; [done|].
  simpl. rewrite IH. apply swap_Permutation.
Qed.

(** X24.  [shuffleArray] returns a rearrangement of its argument, whatever
    numbers are drawn: the same cards with the same repetitions, and as
    many. *)
Theorem shuffle_permutes random (array : list card) :
  shuffleArray random array ≡ₚ array ∧
  length (shuffleArray random array) = length array ∧
  (∀ c, c ∈ shuffleArray random array ↔ c ∈ array).
Proof.
  assert (shuffleArray random array ≡ₚ array) as HP
    by apply shuffle_from_Permutation.
  split_and!; [done|by rewrite HP|]. intros c. by rewrite HP.
Qed.

(** X25.  One press of a marking button, up to the end of its timeout.
    Inside a round both buttons move to the next card, and "learning" puts
    the card at the end of the learning queue.  On the last card of a round
    the decision is taken on the learning queue as it was before the press:
    when it held cards the next round is a rearrangement of exactly those
    cards and the learning queue is emptied, so a last card marked
    "learning" is not repeated unless it was queued before; when it was
    empty the session is complete, also when the last card was marked
    "learning".  Without a current card, or during a transition, a press
    changes nothing. *)
Theorem marking_a_card random (s : Session card) :
  let l := handleMarkLearning random s in
  let k := handleMarkKnown random s in
  (currentCard s = None ∨ isTransitioning s = true → l = s ∧ k = s) ∧
  (∀ c, currentCard s = Some c → isTransitioning s = false →
     isTransitioning l = false ∧ isTransitioning k = false ∧
     isFlipped l = false ∧ isFlipped k = false ∧
     (currentIndex s + 1 < length (sessionQueue s) →
        currentIndex l = currentIndex s + 1 ∧
        currentIndex k = currentIndex s + 1 ∧
        sessionQueue l = sessionQueue s ∧ sessionQueue k = sessionQueue s ∧
        learningQueue l = learningQueue s ++ [c] ∧
        learningQueue k = learningQueue s ∧
        sessionComplete l = sessionComplete s ∧
        sessionComplete k = sessionComplete s) ∧
     (currentIndex s + 1 = length (sessionQueue s) →
        learningQueue s ≠ [] →
        sessionQueue l ≡ₚ learningQueue s ∧ sessionQueue k ≡ₚ learningQueue s ∧
        learningQueue l = [] ∧ learningQueue k = [] ∧
        currentIndex l = 0 ∧ currentIndex k = 0 ∧
        (c ∉ learningQueue s → c ∉ sessionQueue l)) ∧
     (currentIndex s + 1 = length (sessionQueue s) →
        learningQueue s = [] →
        sessionComplete l = true ∧ sessionComplete k = true ∧
        learningQueue l = [c] ∧ sessionQueue l = sessionQueue s)).
Proof.
  intros l k. subst l k. unfold handleMarkLearning, handleMarkKnown. split.
  - intros [-> | Ht]; [done|]. rewrite Ht. by destruct (currentCard s).
  - intros c -> ->. unfold advanceToNextCard, advance_timeout. simpl.
    pose proof (shuffle_from_Permutation random
                  (length (learningQueue s) - 1) (learningQueue s)) as HP.
    fold (shuffleArray random (learningQueue s)) in HP.
    destruct (Nat.ltb_spec (currentIndex s + 1) (length (sessionQueue s)))
      as [Hlt|Hge];
      [|destruct (Nat.ltb_spec 0 (length (learningQueue s))) as [Hpos|Hzero]];
      simpl.
    + split_and!; try done; intros; lia.
    + split_and!; try done.
      * intros; lia.
      * intros _ _. split_and!; try done. intros Hc. by rewrite HP.
      * intros _ Hnil. rewrite Hnil in Hpos. simpl in Hpos. lia.
    + assert (learningQueue s = []) as Hnil.
      { destruct (learningQueue s); [done|simpl in Hzero; lia]. }
      split_and!; try done.
      * intros; lia.
      * intros _ _. by rewrite Hnil.
Qed.

End Session.

(** A deck of one card: marked "learning", the card is not shown again
    and the session is complete. *)
Lemma marking_a_card_witness :
  let s := start (λ _, 0) [7] initial in
  let l := handleMarkLearning (λ _, 0) s in
  currentCard s = Some 7 ∧ sessionComplete l = true ∧ learningQueue l = [7].
Proof.
  intros s l. split; [reflexivity|].
  destruct (marking_a_card (λ _, 0) s) as [_ H].
  destruct (H 7 eq_refl eq_refl) as (_ & _ & _ & _ & _ & _ & Hdone).
  destruct (Hdone eq_refl eq_refl) as (Hc & _ & Hl & _). by split.
Defined.

End StudyFacts.

(** ** Collocations as text *)

Module CollocationFacts.
Import Gemini WordLists WordCardComponent Vocabulary WordFacts WordListFacts.

Lemma all_chars_app p a b :
  all_chars p (String.append a b) = all_chars p a && all_chars p b.
Proof.
  induction a as [|c a IH]; [done|]. simpl. by rewrite IH, andb_assoc.
Qed.

Lemma split_char_word sep w :
  all_chars (λ c, negb (Ascii.eqb c sep)) w = true → split_char sep w = [w].
Proof.
  induction w as [|c w IH]; [done|]. simpl.
  intros [Hc Hw]%andb_true_iff. apply negb_true_iff in Hc. by rewrite Hc, IH.
Qed.

Lemma split_char_app sep w rest :
  all_chars (λ c, negb (Ascii.eqb c sep)) w = true →
  split_char sep (String.append w (String sep rest)) = w :: split_char sep rest.
Proof.
  induction w as [|c w IH]; simpl.
  { by rewrite Ascii.eqb_refl. }
  intros [Hc Hw]%andb_true_iff. apply negb_true_iff in Hc. by rewrite Hc, IH.
Qed.

Lemma split_char_join sep ws :
  Forall (λ w, all_chars (λ c, negb (Ascii.eqb c sep)) w = true) ws → ws ≠ [] →
  split_char sep (join (String sep EmptyString) ws) = ws.
Proof.
  induction 1 as [|w ws Hw Hws IH]; [done|]. intros _.
  destruct ws as [|w' ws]; [by apply split_char_word|].
  change (join ?s (w :: w' :: ws))
    with (String.append w (String sep (join s (w' :: ws)))).
  rewrite split_char_app by done. by rewrite IH.
Qed.

Lemma trimEnd_space w : trimEnd (String.append w " ") = trimEnd w.
Proof.
  induction w as [|c w IH]; [done|]. simpl. by rewrite IH.
Qed.

Lemma trim_space_after w : trim w = w → w ≠ "" → trim (String.append w " ") = w.
Proof.
  intros Hw Hne. destruct w as [|c w]; [done|].
  assert (is_white c = false) as Hc.
  { unfold trim in Hw. simpl in Hw. destruct (is_white c) eqn:E; [|done].
    pose proof (trimStart_clean w) as Hclean.
    assert (clean_start (trimEnd (trimStart w))) as Hclean'
      by (by apply clean_start_trimEnd).
    rewrite Hw in Hclean'. simpl in Hclean'. congruence. }
  unfold trim in *. simpl in *. rewrite Hc in *.
  change (String c (String.append w " ")) with (String.append (String c w) " ").
  by rewrite trimEnd_space.
Qed.

Lemma trim_space_before w : trim (String.append " " w) = trim w.
Proof. done. Qed.

Lemma append_assoc a b c :
  String.append a (String.append b c) = String.append (String.append a b) c.
Proof.
  induction a as [|x a IH]; [done|].
  change (String x (String.append a (String.append b c))
          = String x (String.append (String.append a b) c)).
  by rewrite IH.
Qed.

Lemma line_round_trip p t :
  trim p = p → p ≠ "" → trim t = t →
  all_chars (λ x, negb (Ascii.eqb x "|")) p = true →
  all_chars (λ x, negb (Ascii.eqb x "|")) t = true →
  split_char "|" (String.append p (String.append " | " t))
  = [String.append p " "; String.append " " t] ∧
  trim (String.append p " ") = p ∧ trim (String.append " " t) = t.
Proof.
  intros Hp Hpne Ht Hfp Hft. split_and!.
  - change (String.append p (String.append " | " t))
      with (String.append p (String.append " " (String "|" (String.append " " t)))).
    rewrite append_assoc, split_char_app.
    + by rewrite split_char_word.
    + rewrite all_chars_app. simpl. by rewrite andb_true_r.
  - by apply trim_space_after.
  - by rewrite trim_space_before.
Qed.

(** X26.  The text of the collocations field reads back as the
    collocations it was written from, when phrases and translations are
    trimmed and hold neither a bar nor a line feed and no phrase is empty;
    and whatever the text, the collocations read from it have a trimmed,
    non-empty phrase and a trimmed translation. *)
Theorem collocations_round_trip cols :
  (∀ str, Forall (λ c, phrase c ≠ "" ∧ trim (phrase c) = phrase c ∧
                       trim (translation c) = translation c)
            (stringToCollocations str)) ∧
  (Forall (λ c,
             trim (phrase c) = phrase c ∧ phrase c ≠ "" ∧
             trim (translation c) = translation c ∧
             all_chars (λ x, negb (Ascii.eqb x "|") && negb (Ascii.eqb x "010"))
               (String.append (phrase c) (translation c)) = true) cols →
   stringToCollocations (collocationsToString cols) = cols).
Proof.
  split.
  { intros str. apply Forall_forall. intros c. unfold stringToCollocations.
    rewrite list_elem_of_filter, list_elem_of_fmap.
    intros (Hne & line & -> & _). simpl in *. split_and!; [done|..].
    - destruct (split_char "|" line !! 0); [apply trim_idemp|done].
    - destruct (split_char "|" line !! 1); [apply trim_idemp|done]. }
  intros Hcols. unfold stringToCollocations, collocationsToString.
  destruct (decide (cols = [])) as [->|Hne]; [done|].
  rewrite split_char_join.
  - rewrite <-list_fmap_compose. clear Hne.
    induction Hcols as [|[p t] cs (Hp & Hpne & Ht & Hfree) _ IH]; [done|].
    simpl in Hp, Hpne, Ht, Hfree. rewrite all_chars_app in Hfree.
    apply andb_true_iff in Hfree as [Hfp Hft].
    destruct (line_round_trip p t) as (Hsplit & Htp & Htt); try done.
    { eapply all_chars_impl; [|exact Hfp]. intros x. by intros [? _]%andb_true_iff. }
    { eapply all_chars_impl; [|exact Hft]. intros x. by intros [? _]%andb_true_iff. }
    rewrite fmap_cons.
    match goal with
    | |- context [?f {| phrase := p; translation := t |}] =>
        assert (f {| phrase := p; translation := t |}
                = {| phrase := p; translation := t |}) as ->
    end.
    { unfold compose. cbn [phrase translation]. rewrite Hsplit.
      cbn [lookup list_lookup fmap option_fmap option_map default].
      by rewrite Htp, Htt. }
    rewrite filter_cons, decide_True by done. by rewrite IH.
  - apply Forall_fmap. eapply Forall_impl; [exact Hcols|].
    intros [p t] (_ & _ & _ & Hfree). simpl in *.
    rewrite !all_chars_app in *. simpl.
    apply andb_true_iff in Hfree as [Hfp Hft]. apply andb_true_iff. split.
    + eapply all_chars_impl; [|exact Hfp]. intros x. by intros [_ ?]%andb_true_iff.
    + eapply all_chars_impl; [|exact Hft]. intros x. by intros [_ ?]%andb_true_iff.
  - by destruct cols.
Qed.

Lemma collocations_round_trip_witness :
  stringToCollocations
    (collocationsToString
       [{| phrase := "make sense"; translation := "avoir du sens" |};
        {| phrase := "take part"; translation := "" |}])
  = [{| phrase := "make sense"; translation := "avoir du sens" |};
     {| phrase := "take part"; translation := "" |}].
Proof.
  apply (proj2 (collocations_round_trip _)). repeat constructor; done.
Defined.

End CollocationFacts.
